(** * pyclustering.nnet.sync: the Kuramoto oscillatory network

    A shallow embedding of [pyclustering/nnet/sync/__init__.py] and the
    properties of its phase normalisation, order metric, phase derivative,
    ensemble extraction and simulation loops.

    Numbers.  A Python [float] is an IEEE binary64 value.  The program is
    written once, over an interface [Arith] of the arithmetic it uses, and
    read at two instances:
    - [R], exact arithmetic, in which the value formulas of the
      specification (sums of [exp] and [sin], intervals bounded by [2 * PI],
      [|a - b| < tolerance]) are stated and proved;
    - [float], Rocq's primitive binary64 numbers, on which the program runs
      as it does in Python, rounding included.
    What is proved for every [Arith] holds at both.  How often a loop runs is
    checked at both, and the places where rounding changes what the program
    does, the loop of [phase_normalization], the time grid of
    [simulate_static] and the tolerance test of [allocate_sync_ensembles],
    have binary64 statements of their own.

    Effects.  Python exceptions and non-termination are results of type
    [outcome]; the two [simulate_*] methods, which assign [self._phases] and
    print, are state transformers over [world].  The methods that only read
    the network are functions of it.

    Not in the file: the base class [network], of which [num_osc] and
    [has_connection] are fields of [sync_network] here; and the libraries,
    gathered in [Imports] and [ImportsClass]. *)

From Stdlib Require Import String ZArith List Bool Lia Permutation Sorted.
From Stdlib Require Import Reals Lra.
From Stdlib Require Import Floats.PrimFloat Floats.SpecFloat Floats.FloatOps.
Import ListNotations.

Set Implicit Arguments.

(** ** Results of a Python call *)

Inductive exn : Type :=
| NameError (msg : string)
| TypeError
| AttributeError
| IndexError
| ZeroDivisionError
| ValueError
| OverflowError.

(** [OutOfFuel] stands for a loop that has not ended within the fuel given. *)
Inductive outcome (A : Type) : Type :=
| Ok (a : A)
| Raise (e : exn)
| OutOfFuel.

Arguments Ok {A} a.
Arguments Raise {A} e.
Arguments OutOfFuel {A}.

Definition bind {A B : Type} (m : outcome A) (k : A -> outcome B) : outcome B :=
  match m with
  | Ok a => k a
  | Raise e => Raise e
  | OutOfFuel => OutOfFuel
  end.

Declare Scope py_scope.
Delimit Scope py_scope with py.
Notation "x <- m ;; k" := (bind m (fun x => k))
  (at level 61, m at next level, right associativity) : py_scope.
Notation "' pat <- m ;; k" := (bind m (fun x => match x with pat => k end))
  (at level 61, pat pattern, m at next level, right associativity) : py_scope.
Open Scope py_scope.

(** [l[i]] on a Python list, for a non-negative index. *)
Definition getitem {A : Type} (l : list A) (i : nat) : outcome A :=
  match nth_error l i with
  | Some a => Ok a
  | None => Raise IndexError
  end.

(** [for x in xs: acc = body(x, acc)], the body free to raise. *)
Fixpoint for_each {A S : Type} (xs : list A) (body : A -> S -> outcome S) (acc : S)
  : outcome S :=
  match xs with
  | [] => Ok acc
  | x :: rest => acc' <- body x acc ;; for_each rest body acc'
  end.

(** [range(lo, hi, 1)]. *)
Definition range (lo hi : nat) : list nat := seq lo (hi - lo).

(** Methods that assign to [self] or print: state transformers that keep the
    state reached when an exception leaves them. *)
Definition prog (W A : Type) : Type := W -> outcome A * W.

Definition pret {W A : Type} (a : A) : prog W A := fun w => (Ok a, w).

Definition lift {W A : Type} (m : outcome A) : prog W A := fun w => (m, w).

Definition pbind {W A B : Type} (m : prog W A) (k : A -> prog W B) : prog W B :=
  fun w =>
    match m w with
    | (Ok a, w') => k a w'
    | (Raise e, w') => (Raise e, w')
    | (OutOfFuel, w') => (OutOfFuel, w')
    end.

Notation "x <~ m ;; k" := (pbind m (fun x => k))
  (at level 61, m at next level, right associativity) : py_scope.

Fixpoint pfor_each {W A S : Type} (xs : list A) (body : A -> S -> prog W S) (acc : S)
  : prog W S :=
  match xs with
  | [] => pret acc
  | x :: rest => acc' <~ body x acc ;; pfor_each rest body acc'
  end.

(** ** Arithmetic *)

Class Arith (T : Type) : Type := {
  of_Z : Z -> T;              (* an [int] used where a [float] is expected *)
  add : T -> T -> T;
  sub : T -> T -> T;
  mul : T -> T -> T;
  quot : T -> T -> T;         (* [/] on a divisor that is not zero *)
  neg : T -> T;
  absv : T -> T;              (* [abs] *)
  ltb : T -> T -> bool;       (* [<] *)
  eqb : T -> T -> bool;       (* [==] *)
  ceil : T -> option Z;       (* the integer of [ceil], none for inf and NaN *)
  pi : T                      (* [scipy.pi] *)
}.

Declare Scope arith_scope.
Delimit Scope arith_scope with ar.
Infix "+" := add : arith_scope.
Infix "-" := sub : arith_scope.
Infix "*" := mul : arith_scope.
Infix "<?" := ltb : arith_scope.
Notation "x >? y" := (ltb y x) (only parsing) : arith_scope.
Infix "==?" := eqb (at level 70) : arith_scope.

(** Exact arithmetic. *)
Definition Rltb (x y : R) : bool := if Rlt_dec x y then true else false.
Definition Reqb (x y : R) : bool := if Req_dec_T x y then true else false.
Definition Rceil (x : R) : Z := (1 - up (- x))%Z.

#[export] Instance Arith_R : Arith R := {
  of_Z := IZR;
  add := Rplus; sub := Rminus; mul := Rmult; quot := Rdiv;
  neg := Ropp; absv := Rabs;
  ltb := Rltb; eqb := Reqb;
  ceil := fun x => Some (Rceil x);
  pi := PI
}.

(** Binary64 arithmetic.  [binary_normalize] rounds an integer to the nearest
    binary64 value, ties to even, as Python's [float(int)] does. *)
Definition float_of_Z (z : Z) : float := SF2Prim (binary_normalize prec emax z 0 false).

(** [ceil] of a finite binary64 value: it is [m * 2^e] for an integer [m].
    An infinity and a NaN have none. *)
Definition float_ceil (x : float) : option Z :=
  match Prim2SF x with
  | S754_finite s m e =>
      let v := if s then Z.neg m else Z.pos m in
      Some (if (0 <=? e)%Z then (v * 2 ^ e)%Z else (- ((- v) / 2 ^ (- e)))%Z)
  | S754_zero _ => Some 0%Z
  | S754_infinity _ | S754_nan => None
  end.

(** [scipy.pi], the binary64 value nearest to the number pi. *)
Definition float_pi : float := 0x1.921fb54442d18p+1%float.

#[export] Instance Arith_float : Arith float := {
  of_Z := float_of_Z;
  add := PrimFloat.add; sub := PrimFloat.sub; mul := PrimFloat.mul;
  quot := PrimFloat.div;
  neg := PrimFloat.opp; absv := PrimFloat.abs;
  ltb := PrimFloat.ltb; eqb := PrimFloat.eqb;
  ceil := float_ceil;
  pi := float_pi
}.

Section Normalization.

Context {T : Type} {AT : Arith T}.
Local Open Scope arith_scope.

(** [2.0 * pi] *)
Definition two_pi : T := of_Z 2 * pi.

(** [x / y]: Python raises on a zero divisor, floats included. *)
Definition truediv (x y : T) : outcome T :=
  if y ==? of_Z 0 then Raise ZeroDivisionError else Ok (quot x y).

(** The [while] loop of [phase_normalization], [fuel] bounding the number
    of times its body runs. *)
Fixpoint phase_normalization_loop (fuel : nat) (norm_teta : T) : outcome T :=
  if (norm_teta >? two_pi) || (norm_teta <? of_Z 0) then
    match fuel with
    | O => OutOfFuel
    | S fuel' =>
        if norm_teta >? two_pi
        then phase_normalization_loop fuel' (norm_teta - two_pi)
        else phase_normalization_loop fuel' (norm_teta + two_pi)
    end
  else Ok norm_teta.

Definition phase_normalization (fuel : nat) (teta : T) : outcome T :=
  phase_normalization_loop fuel teta.

End Normalization.

(** ** The network *)

(** A solver tag is whatever Python object the caller passes as [solution];
    the constants [solve_type.FAST] and [solve_type.RK4] are declared in
    [pyclustering.nnet], outside this file, and are taken as given below. *)
Inductive pyobj : Type :=
| PyInt (z : Z)
| PyStr (s : string).

Definition pyobj_eqb (a b : pyobj) : bool :=
  match a, b with
  | PyInt x, PyInt y => Z.eqb x y
  | PyStr x, PyStr y => String.eqb x y
  | _, _ => false
  end.

(** [next_phases[index] = v] *)
Definition setitem {A : Type} (l : list A) (i : nat) (v : A) : outcome (list A) :=
  if Nat.ltb i (length l) then Ok (firstn i l ++ v :: skipn (S i) l)
  else Raise IndexError.

(** What a simulation returns in each component: [None], a single value or
    the list collected so far. *)
Inductive dyn (A : Type) : Type :=
| DynNone
| DynLast (a : A)
| DynList (l : list A).
Arguments DynNone {A}.
Arguments DynLast {A} a.
Arguments DynList {A} l.

(** [d.append(a)] *)
Definition append {A : Type} (d : dyn A) (a : A) : outcome (dyn A) :=
  match d with
  | DynList l => Ok (DynList (l ++ [a]))
  | _ => Raise AttributeError
  end.

(** The pair [(dyn_time, dyn_phase)] a simulation returns. *)
Definition dynamic (T : Type) : Type := (dyn T * dyn (list T))%type.

(** What the module imports and this file does not define. *)
Class Imports (T : Type) : Type := {
  math_exp : T -> T;
  math_sin : T -> T;
  (** [odeint(func, y0, t, (index,))]: the first column of the array it
      returns, one entry per time of [t]. *)
  odeint : (T -> T -> outcome T) -> T -> list T -> outcome (list T);
  (** [str] of a float. *)
  str : T -> string;
  (** [solve_type.FAST] and [solve_type.RK4], from [pyclustering.nnet]. *)
  FAST : pyobj;
  RK4 : pyobj;
  (** The C implementation, [pyclustering.core.wrapper]. *)
  wrapper_sync_local_order : Z -> outcome T;
  wrapper_allocate_sync_ensembles : Z -> T -> outcome (list (list nat));
  wrapper_simulate_dynamic :
    Z -> T -> pyobj -> bool -> T -> T -> T -> outcome (dynamic T);
  wrapper_simulate_sync_network : Z -> Z -> T -> pyobj -> bool -> outcome (dynamic T)
}.

Section Network.

Context {T : Type} {AT : Arith T} {IM : Imports T}.
Local Open Scope arith_scope.

(** [sync_network]: [num_osc] and [has_connection] belong to the base class
    [network]; the handle of the C implementation is [None] unless the
    network was built with [ccore = True]. *)
Record sync_network : Type := {
  num_osc : nat;
  has_connection : nat -> nat -> bool;
  _phases : list T;
  _freq : list T;
  _weight : T;
  _ccore_network_pointer : option Z
}.

Definition with_phases (net : sync_network) (p : list T) : sync_network :=
  {| num_osc := num_osc net;
     has_connection := has_connection net;
     _phases := p;
     _freq := _freq net;
     _weight := _weight net;
     _ccore_network_pointer := _ccore_network_pointer net |}.

(** [numpy.arange(start, stop, step)] on Python floats.  The length is the
    ceiling of [(stop - start) / step], none when that is negative; a
    quotient that is a NaN is a [ValueError] and an infinite one an
    [OverflowError].  The first two values are [start] and [start + step];
    from the third on, value [k] is [start + k * delta] for
    [delta = (start + step) - start].  A length that memory cannot hold is
    not modelled. *)
Definition numpy_arange (start stop step : T) : outcome (list T) :=
  q <- truediv (stop - start) step ;;
  match ceil q with
  | None => Raise (if q ==? q then OverflowError else ValueError)
  | Some length =>
      let next := start + step in
      let delta := next - start in
      Ok (map (fun k => match k with
                        | O => start
                        | S O => next
                        | _ => start + of_Z (Z.of_nat k) * delta
                        end)
            (seq 0 (Z.to_nat length)))
  end.

Definition sync_local_order (net : sync_network) : outcome T :=
  match _ccore_network_pointer net with
  | Some p => wrapper_sync_local_order p
  | None =>
      '(exp_amount, num_neigh) <-
        for_each (range 0 (num_osc net)) (fun i acc =>
          for_each (range 0 (num_osc net)) (fun j '(exp_amount, num_neigh) =>
            if has_connection net i j then
              phase_j <- getitem (_phases net) j ;;
              phase_i <- getitem (_phases net) i ;;
              Ok (exp_amount + math_exp (neg (absv (phase_j - phase_i))),
                  S num_neigh)
            else Ok (exp_amount, num_neigh)) acc)
          (of_Z 0, 0%nat) ;;
      let num_neigh := if Nat.eqb num_neigh 0 then 1%nat else num_neigh in
      truediv exp_amount (of_Z (Z.of_nat num_neigh))
  end.

Definition phase_kuramoto (net : sync_network) (teta t : T) (argv : nat) : outcome T :=
  let index := argv in
  phase <-
    for_each (range 0 (num_osc net)) (fun k phase =>
      if has_connection net index k then
        phase_k <- getitem (_phases net) k ;;
        Ok (phase + math_sin (phase_k - teta))
      else Ok phase)
      (of_Z 0) ;;
  f <- getitem (_freq net) index ;;
  q <- truediv (phase * _weight net) (of_Z (Z.of_nat (num_osc net))) ;;
  Ok (f + q).

(** The test of [allocate_sync_ensembles] on oscillators [i] and
    [neuron_index]. *)
Definition in_tolerance (net : sync_network) (tolerance : T) (i neuron_index : nat)
  : outcome bool :=
  phase_i <- getitem (_phases net) i ;;
  phase_n <- getitem (_phases net) neuron_index ;;
  Ok ((phase_i <? phase_n + tolerance) && (phase_i >? phase_n - tolerance)).

(** [for neuron_index in cluster], left at the first hit. *)
Fixpoint scan_members (net : sync_network) (tolerance : T) (i : nat)
    (cluster : list nat) : outcome bool :=
  match cluster with
  | [] => Ok false
  | neuron_index :: rest =>
      hit <- in_tolerance net tolerance i neuron_index ;;
      if hit then Ok true else scan_members net tolerance i rest
  end.

(** [for cluster in clusters], left at the first cluster that took [i];
    the flag is [cluster_allocated]. *)
Fixpoint scan_clusters (net : sync_network) (tolerance : T) (i : nat)
    (clusters : list (list nat)) : outcome (bool * list (list nat)) :=
  match clusters with
  | [] => Ok (false, [])
  | cluster :: rest =>
      hit <- scan_members net tolerance i cluster ;;
      if hit then Ok (true, (cluster ++ [i]) :: rest)
      else
        '(cluster_allocated, rest') <- scan_clusters net tolerance i rest ;;
        Ok (cluster_allocated, cluster :: rest')
  end.

Definition allocate_sync_ensembles (net : sync_network) (tolerance : T)
  : outcome (list (list nat)) :=
  match _ccore_network_pointer net with
  | Some p => wrapper_allocate_sync_ensembles p tolerance
  | None =>
      let clusters := if Nat.ltb 0 (num_osc net) then [[0%nat]] else [] in
      for_each (range 1 (num_osc net)) (fun i clusters =>
        '(cluster_allocated, clusters) <- scan_clusters net tolerance i clusters ;;
        if cluster_allocated then Ok clusters else Ok (clusters ++ [[i]]))
        clusters
  end.

(** The [raise] of [_calculate_phases].  Its argument is built first, and
    [+] of a [str] and an object that is not a [str] is a [TypeError]. *)
Definition unsupported_solver_error (solution : pyobj) : exn :=
  match solution with
  | PyStr s => NameError ("Solver '" ++ s ++ "' is not supported")%string
  | PyInt _ => TypeError
  end.

Definition unsupported_solver {A : Type} (solution : pyobj) : outcome A :=
  Raise (unsupported_solver_error solution).

Definition _calculate_phases (fuel : nat) (net : sync_network) (solution : pyobj)
    (t step int_step : T) : outcome (list T) :=
  for_each (range 0 (num_osc net)) (fun index next_phases =>
    if pyobj_eqb solution FAST then
      p <- getitem (_phases net) index ;;
      d <- phase_kuramoto net p (of_Z 0) index ;;
      v <- phase_normalization fuel (p + d) ;;
      setitem next_phases index v
    else if pyobj_eqb solution RK4 then
      p <- getitem (_phases net) index ;;
      ts <- numpy_arange (t - step) t int_step ;;
      result <- odeint (fun y s => phase_kuramoto net y s index) p ts ;;
      y <- getitem result (length result - 1) ;;
      v <- phase_normalization fuel y ;;
      setitem next_phases index v
    else unsupported_solver solution)
    (repeat (of_Z 0) (num_osc net)).

(** ** Simulation *)

(** The network and what it has printed. *)
Record world : Type := {
  self : sync_network;
  stdout : list string
}.

Definition get_self : prog world sync_network := fun w => (Ok (self w), w).

Definition set_phases (p : list T) : prog world unit :=
  fun w => (Ok tt, {| self := with_phases (self w) p; stdout := stdout w |}).

Definition print (line : string) : prog world unit :=
  fun w => (Ok tt, {| self := self w; stdout := stdout w ++ [line] |}).

(** [self._phases = self._calculate_phases(solution, t, step, int_step)] *)
Definition update_phases (fuel : nat) (solution : pyobj) (t step int_step : T)
  : prog world unit :=
  net <~ get_self ;;
  next_phases <~ lift (_calculate_phases fuel net solution t step int_step) ;;
  set_phases next_phases.

(** The bookkeeping after a step, at time [t]: [dyn_phase] first, then
    [dyn_time]. *)
Definition record_step (collect_dynamic : bool) (t : T) (acc : dynamic T)
  : prog world (dynamic T) :=
  net <~ get_self ;;
  let '(dyn_time, dyn_phase) := acc in
  if collect_dynamic then
    dyn_phase <~ lift (append dyn_phase (_phases net)) ;;
    dyn_time <~ lift (append dyn_time t) ;;
    pret (dyn_time, dyn_phase)
  else pret (DynLast t, DynLast (_phases net)).

Definition warning (current_order : T) : string :=
  ("Warning: sync_network::simulate_dynamic - simulation is aborted due to low level of convergence rate (order = "
     ++ str current_order ++ ").")%string.

(** The [while] loop of [simulate_dynamic]; [fuel] bounds its iterations and,
    inside an iteration, those of [phase_normalization]. *)
Fixpoint dynamic_loop (fuel : nat) (order : T) (solution : pyobj)
    (collect_dynamic : bool) (step int_step threshold_changes : T)
    (time_counter previous_order current_order : T) (acc : dynamic T)
  : prog world (dynamic T) :=
  if current_order <? order then
    match fuel with
    | O => lift OutOfFuel
    | S fuel' =>
        _ <~ update_phases fuel' solution time_counter step int_step ;;
        let time_counter := time_counter + step in
        acc <~ record_step collect_dynamic time_counter acc ;;
        let previous_order := current_order in
        net <~ get_self ;;
        current_order <~ lift (sync_local_order net) ;;
        if absv (current_order - previous_order) <? threshold_changes then
          _ <~ print (warning current_order) ;;
          pret acc
        else
          dynamic_loop fuel' order solution collect_dynamic step int_step
            threshold_changes time_counter previous_order current_order acc
    end
  else pret acc.

Definition simulate_dynamic (fuel : nat) (order : T) (solution : pyobj)
    (collect_dynamic : bool) (step int_step threshold_changes : T)
  : prog world (dynamic T) :=
  net <~ get_self ;;
  match _ccore_network_pointer net with
  | Some p =>
      lift (wrapper_simulate_dynamic p order solution collect_dynamic step int_step
              threshold_changes)
  | None =>
      let time_counter := of_Z 0 in
      let previous_order := of_Z 0 in
      current_order <~ lift (sync_local_order net) ;;
      acc <~ (if collect_dynamic then
                dyn_phase <~ lift (append (DynList []) (_phases net)) ;;
                dyn_time <~ lift (append (DynList []) (of_Z 0)) ;;
                pret (dyn_time, dyn_phase)
              else pret (DynList [], DynList [])) ;;
      dynamic_loop fuel order solution collect_dynamic step int_step
        threshold_changes time_counter previous_order current_order acc
  end.

Definition simulate_static (fuel : nat) (steps : Z) (time : T) (solution : pyobj)
    (collect_dynamic : bool) : prog world (dynamic T) :=
  net <~ get_self ;;
  match _ccore_network_pointer net with
  | Some p => lift (wrapper_simulate_sync_network p steps time solution collect_dynamic)
  | None =>
      acc <~ (if collect_dynamic then
                dyn_phase <~ lift (append (DynList []) (_phases net)) ;;
                dyn_time <~ lift (append (DynList []) (of_Z 0)) ;;
                pret (dyn_time, dyn_phase)
              else pret (DynNone, DynNone)) ;;
      step <~ lift (truediv time (of_Z steps)) ;;
      int_step <~ lift (truediv step (of_Z 10)) ;;
      ts <~ lift (numpy_arange step (time + step) step) ;;
      pfor_each ts (fun t acc =>
        _ <~ update_phases fuel solution t step int_step ;;
        record_step collect_dynamic t acc) acc
  end.

(** [simulate] *)
Definition simulate (fuel : nat) (steps : Z) (time : T) (solution : pyobj)
    (collect_dynamic : bool) : prog world (dynamic T) :=
  simulate_static fuel steps time solution collect_dynamic.

End Network.

(** ** Definitions the statements use *)

(** Enough iterations for [teta]. *)
Definition normalization_fuel (teta : R) : nat := Z.to_nat (up (Rabs teta / (2 * PI))).

(** Greedy first-fit by index, in the words of the specification: [near i m]
    says that oscillator [i] is within tolerance of member [m].  An index
    joins the first cluster, in creation order, that has such a member, and
    opens a cluster of its own when there is none. *)
Section FirstFit.

Variable near : nat -> nat -> bool.

Fixpoint place (i : nat) (clusters : list (list nat)) : list (list nat) :=
  match clusters with
  | [] => [[i]]
  | cluster :: rest =>
      if existsb (near i) cluster then (cluster ++ [i]) :: rest
      else cluster :: place i rest
  end.

(** Index [0] seeds the first cluster; the indices [1 .. n - 1] follow in
    ascending order. *)
Definition greedy_first_fit (n : nat) : list (list nat) :=
  fold_left (fun clusters i => place i clusters) (seq 1 (n - 1)) [[0%nat]].

End FirstFit.

(** [|phases[i] - phases[m]| < tolerance], on real phases. *)
Definition within (phases : list R) (tolerance : R) (i m : nat) : bool :=
  Rltb (Rabs (nth i phases 0%R - nth m phases 0%R)) tolerance.

(** The same test, [abs(phases[i] - phases[m]) < tolerance], computed in the
    arithmetic of the program. *)
Definition abs_within {T : Type} {AT : Arith T} (phases : list T) (tolerance : T)
    (i m : nat) : bool :=
  let zero := of_Z 0 in
  ltb (absv (sub (nth i phases zero) (nth m phases zero))) tolerance.

(** The two-sided test as the program writes it, on any arithmetic. *)
Definition two_sided {T : Type} {AT : Arith T} (phases : list T) (tolerance : T)
    (i m : nat) : bool :=
  let zero := of_Z 0 in
  ltb (nth i phases zero) (add (nth m phases zero) tolerance)
  && ltb (sub (nth m phases zero) tolerance) (nth i phases zero).

(** Sums of reals, and the index sets the formulas of the order metric and of
    the phase derivative range over. *)
Definition Rsum (l : list R) : R := fold_right Rplus 0%R l.

Definition connected_pairs {T : Type} (net : @sync_network T) : list (nat * nat) :=
  filter (fun p => has_connection net (fst p) (snd p))
    (list_prod (seq 0 (num_osc net)) (seq 0 (num_osc net))).

(** The term of the pair [(i, j)] in the local order. *)
Definition pair_term {IM : Imports R} (net : @sync_network R) (p : nat * nat) : R :=
  math_exp (- Rabs (nth (snd p) (_phases net) 0 - nth (fst p) (_phases net) 0))%R.

Definition neighbours {T : Type} (net : @sync_network T) (i : nat) : list nat :=
  filter (has_connection net i) (seq 0 (num_osc net)).

(** Explicit Euler steps along a time grid, from the value [y] at time [t]. *)
Fixpoint euler (func : R -> R -> outcome R) (y : R) (t : R) (ts : list R)
  : outcome (list R) :=
  match ts with
  | [] => Ok []
  | t' :: rest =>
      d <- func y t ;;
      let y' := (y + (t' - t) * d)%R in
      ys <- euler func y' t' rest ;;
      Ok (y' :: ys)
  end.

(** An [Imports] over the reals for the closed examples: the real [exp] and
    [sin], [euler] for [odeint], integer solver tags, and a C implementation
    that is never reached. *)
Definition real_imports : Imports R := {|
  math_exp := exp;
  math_sin := sin;
  odeint := fun func y0 ts =>
    match ts with
    | [] => Ok []
    | t0 :: rest => ys <- euler func y0 t0 rest ;; Ok (y0 :: ys)
    end;
  str := fun _ => "?"%string;
  FAST := PyInt 0;
  RK4 := PyInt 1;
  wrapper_sync_local_order := fun _ => Raise AttributeError;
  wrapper_allocate_sync_ensembles := fun _ _ => Raise AttributeError;
  wrapper_simulate_dynamic := fun _ _ _ _ _ _ _ => Raise AttributeError;
  wrapper_simulate_sync_network := fun _ _ _ _ _ => Raise AttributeError
|}.

(** Two oscillators, linked both ways, a quarter apart. *)
Definition pair_network : @sync_network R := {|
  num_osc := 2;
  has_connection := fun i j => negb (Nat.eqb i j);
  _phases := [0%R; (1 / 4)%R];
  _freq := [0%R; 0%R];
  _weight := 1%R;
  _ccore_network_pointer := None
|}.

Section LoopStates.

Context {T : Type} {AT : Arith T} {IM : Imports T}.

(** The loop variables of [simulate_dynamic] when the loop condition is
    tested: [time_counter], [self._phases] and [current_order]. *)
Record visit : Type := {
  at_time : T;
  at_phases : list T;
  at_order : T
}.

(** The last of the visits [start :: later]. *)
Fixpoint final (start : visit) (later : list visit) : visit :=
  match later with
  | [] => start
  | next :: rest => final next rest
  end.

(** [iterations net order threshold_changes solution step int_step start
    later]: from the visit [start] the loop runs through the visits
    [later], one per iteration.  An iteration begins because the order is
    below the target; it computes the new phases from the phases and the
    time of the visit before, adds [step] to the time and takes the local
    order of the new phases; another iteration follows only when the order
    changed by no less than the threshold. *)
Fixpoint iterations (net : sync_network) (order threshold_changes : T)
    (solution : pyobj) (step int_step : T) (start : visit) (later : list visit)
  : Prop :=
  match later with
  | [] => True
  | next :: rest =>
      ltb (at_order start) order = true
      /\ (exists fuel : nat,
            _calculate_phases fuel (with_phases net (at_phases start)) solution
              (at_time start) step int_step
            = Ok (at_phases next))
      /\ at_time next = add (at_time start) step
      /\ sync_local_order (with_phases net (at_phases next)) = Ok (at_order next)
      /\ (rest <> [] ->
          ltb (absv (sub (at_order next) (at_order start))) threshold_changes = false)
      /\ iterations net order threshold_changes solution step int_step next rest
  end.

(** The pair [(dyn_time, dyn_phase)] after the visits [start :: later]: with
    collection the times and the phase vectors of all visits, in order;
    without, the two empty lists when no iteration ran and the time and the
    phase vector of the last visit otherwise. *)
Definition trajectory (collect_dynamic : bool) (start : visit) (later : list visit)
  : dynamic T :=
  if collect_dynamic then
    (DynList (map at_time (start :: later)), DynList (map at_phases (start :: later)))
  else
    match later with
    | [] => (DynList [], DynList [])
    | _ :: _ =>
        (DynLast (at_time (final start later)), DynLast (at_phases (final start later)))
    end.

End LoopStates.

(** An [Imports] over binary64 numbers: [exp], [sin] and [odeint] are the
    caller's. *)
Definition binary64_imports (exp sin : float -> float)
    (solve : (float -> float -> outcome float) -> float -> list float
             -> outcome (list float)) : Imports float := {|
  math_exp := exp;
  math_sin := sin;
  odeint := solve;
  str := fun _ => "?"%string;
  FAST := PyInt 0;
  RK4 := PyInt 1;
  wrapper_sync_local_order := fun _ => Raise AttributeError;
  wrapper_allocate_sync_ensembles := fun _ _ => Raise AttributeError;
  wrapper_simulate_dynamic := fun _ _ _ _ _ _ _ => Raise AttributeError;
  wrapper_simulate_sync_network := fun _ _ _ _ _ => Raise AttributeError
|}.

(** Binary64 with stand-ins for [exp], [sin] and [odeint], for the methods
    that call none of them. *)
Definition binary64_plain : Imports float :=
  binary64_imports (fun x => x) (fun x => x) (fun _ _ _ => Raise AttributeError).

(** Two binary64 oscillators at [3.0] and [3.01], with the tolerance [0.01]. *)
Definition close_pair : @sync_network float := {|
  num_osc := 2;
  has_connection := fun _ _ => true;
  _phases := [3%float; 0x1.8147ae147ae14p+1%float];
  _freq := [0%float; 0%float];
  _weight := 1%float;
  _ccore_network_pointer := None
|}.

Definition close_tolerance : float := 0x1.47ae147ae147bp-7%float.

(** One oscillator, no link, at phase [0]: on binary64 numbers and on the
    reals. *)
Definition lone_oscillator {T : Type} {AT : Arith T} : @sync_network T := {|
  num_osc := 1;
  has_connection := fun _ _ => false;
  _phases := [of_Z 0];
  _freq := [of_Z 0];
  _weight := of_Z 1;
  _ccore_network_pointer := None
|}.

Definition fresh {T : Type} (net : @sync_network T) : world :=
  {| self := net; stdout := [] |}.

(** The lone oscillator over the reals: its phase after one [FAST] step, and
    the result and state of a dynamic simulation that stalls at once. *)
Definition lone_next : R := (0 + (0 + 0 * 1 / 1))%R.

Definition stalled_world : @world R :=
  {| self := with_phases lone_oscillator [lone_next];
     stdout := [@warning R real_imports (0 / 1)%R] |}.

Definition stalled_result : dynamic R :=
  (DynList [0%R; (0 + 1 / 10)%R], DynList [[0%R]; [lone_next]]).

(** The time stamps of a static simulation in exact arithmetic. *)
Definition static_times (steps : Z) (time : R) : list R :=
  let step := (time / IZR steps)%R in
  0%R :: map (fun k => (step + IZR (Z.of_nat k) * step)%R) (seq 0 (Z.to_nat steps)).


(** ** The rest of the class: global order, constructor, destructor *)

(** What [sync_order], [__init__] and [__del__] import besides [Imports]:
    [math.expm1], [random.random] as the sequence of its draws, the tags of
    [initial_type], the link test the base class [network] sets up from
    [num_osc], [type_conn] and [conn_represent], and the part of the C
    implementation they call. *)
Class ImportsClass (T : Type) : Type := {
  math_expm1 : T -> T;
  random_draw : nat -> T;
  RANDOM_GAUSSIAN : pyobj;
  EQUIPARTITION : pyobj;
  network_has_connection : nat -> pyobj -> pyobj -> nat -> nat -> bool;
  wrapper_sync_order : Z -> outcome T
}.

Section RestOfClass.

Context {T : Type} {AT : Arith T} {IM : Imports T} {IC : ImportsClass T}.
Local Open Scope arith_scope.

(** [abs(1j * x)]: the product is the complex number [(0 * x - 0) + x j],
    whose modulus is [abs(x)]. *)
Definition abs_imaginary (x : T) : T := absv x.

Definition sync_order (net : sync_network) : outcome T :=
  match _ccore_network_pointer net with
  | Some p => wrapper_sync_order p
  | None =>
      '(exp_amount, average_phase) <-
        for_each (range 0 (num_osc net)) (fun index '(exp_amount, average_phase) =>
          phase <- getitem (_phases net) index ;;
          let exp_amount := exp_amount + math_expm1 (abs_imaginary phase) in
          phase <- getitem (_phases net) index ;;
          Ok (exp_amount, average_phase + phase))
          (of_Z 0, of_Z 0) ;;
      exp_amount <- truediv exp_amount (of_Z (Z.of_nat (num_osc net))) ;;
      mean <- truediv average_phase (of_Z (Z.of_nat (num_osc net))) ;;
      let average_phase := math_expm1 (abs_imaginary mean) in
      truediv (absv average_phase) (absv exp_amount)
  end.

(** The loop of the constructor: [drawn] counts the calls of
    [random.random()] so far. *)
Fixpoint init_loop (num_osc : nat) (frequency : T) (initial_phases : pyobj)
    (indexes : list nat) (phases freq : list T) (drawn : nat)
  : outcome (list T * list T * nat) :=
  match indexes with
  | [] => Ok (phases, freq, drawn)
  | index :: rest =>
      '(phases, drawn) <-
        (if pyobj_eqb initial_phases RANDOM_GAUSSIAN then
           Ok (phases ++ [random_draw drawn * of_Z 2 * pi], S drawn)
         else if pyobj_eqb initial_phases EQUIPARTITION then
           q <- truediv pi (of_Z (Z.of_nat num_osc)) ;;
           Ok (phases ++ [q * of_Z (Z.of_nat index)], drawn)
         else Ok (phases, drawn)) ;;
      let freq := freq ++ [random_draw drawn * frequency] in
      init_loop num_osc frequency initial_phases rest phases freq (S drawn)
  end.

(** [sync_network(num_osc, weight, frequency, type_conn, conn_represent,
    initial_phases, ccore = False)]: the network and the number of random
    draws it took. *)
Definition init (num_osc : nat) (weight frequency : T)
    (type_conn conn_represent initial_phases : pyobj)
  : outcome (@sync_network T * nat) :=
  '(phases, freq, drawn) <-
    init_loop num_osc frequency initial_phases (range 0 num_osc) [] [] 0 ;;
  Ok ({| num_osc := num_osc;
         has_connection := network_has_connection num_osc type_conn conn_represent;
         _phases := phases;
         _freq := freq;
         _weight := weight;
         _ccore_network_pointer := None |}, drawn).

(** [__del__]: the network and the handles given to
    [wrapper.destroy_sync_network] so far. *)
Definition del (state : @sync_network T * list Z) : @sync_network T * list Z :=
  let '(net, destroyed) := state in
  match _ccore_network_pointer net with
  | Some p =>
      ({| num_osc := num_osc net;
          has_connection := has_connection net;
          _phases := _phases net;
          _freq := _freq net;
          _weight := _weight net;
          _ccore_network_pointer := None |}, destroyed ++ [p])
  | None => (net, destroyed)
  end.

End RestOfClass.

(** The reals' [ImportsClass] for the closed examples: [expm1 x = exp x - 1],
    every draw one half, integer tags, every pair of distinct oscillators
    linked. *)
Definition real_class : ImportsClass R := {|
  math_expm1 := fun x => (exp x - 1)%R;
  random_draw := fun _ => (1 / 2)%R;
  RANDOM_GAUSSIAN := PyInt 0;
  EQUIPARTITION := PyInt 1;
  network_has_connection := fun _ _ _ i j => negb (Nat.eqb i j);
  wrapper_sync_order := fun _ => Raise AttributeError
|}.

(** Clusters as [allocate_sync_ensembles] builds them.  [chained seen c]:
    every member of [c], and of [seen ++ c] once [seen] is not empty, has a
    member before it that it is [near]. *)
Section ClusterShape.

Variable near : nat -> nat -> bool.

Fixpoint chained (seen cluster : list nat) : Prop :=
  match cluster with
  | [] => True
  | m :: rest =>
      (seen <> [] -> existsb (near m) seen = true) /\ chained (seen ++ [m]) rest
  end.

(** A cluster built from indices below [s]: ascending, not empty, chained,
    and opened by an index that is [near] no smaller index. *)
Definition well_built (s : nat) (cluster : list nat) : Prop :=
  StronglySorted lt cluster
  /\ Forall (fun m => m < s) cluster
  /\ cluster <> []
  /\ chained [] cluster
  /\ (forall j : nat, j < hd 0 cluster -> near (hd 0 cluster) j = false).

End ClusterShape.

(** What [phase_normalization] lets through. *)
Definition normalised {T : Type} {AT : Arith T} (x : T) : Prop :=
  ltb two_pi x = false /\ ltb x (of_Z 0) = false.

(** What a simulation may change.  [only_phases w w']: the network of [w']
    is that of [w] with another phase vector, and nothing more was printed.
    [phases_and_warning w w']: the same, or with one more line printed, the
    stall warning. *)
Definition only_phases {T : Type} (w w' : @world T) : Prop :=
  exists p : list T,
    w' = {| self := with_phases (self w) p; stdout := stdout w |}.

Definition phases_and_warning {T : Type} {IM : Imports T} (w w' : @world T) : Prop :=
  exists p : list T,
    self w' = with_phases (self w) p
    /\ (stdout w' = stdout w
        \/ exists current : T, stdout w' = stdout w ++ [warning current]).

(** A program all of whose runs change the phases at most. *)
Definition keeps_frame {T A : Type} (m : prog (@world T) A) : Prop :=
  forall w : world, only_phases w (snd (m w)).

(** Two oscillators linked both ways at the same phase, and the pair the
    constructor builds under [real_class] for [RANDOM_GAUSSIAN]. *)
Definition level_pair : @sync_network R := {|
  num_osc := 2;
  has_connection := fun i j => negb (Nat.eqb i j);
  _phases := [(1 / 4)%R; (1 / 4)%R];
  _freq := [0%R; 0%R];
  _weight := 1%R;
  _ccore_network_pointer := None
|}.

Definition half_turn_pair : @sync_network R := {|
  num_osc := 2;
  has_connection := fun i j => negb (Nat.eqb i j);
  _phases := [(1 / 2 * 2 * PI)%R; (1 / 2 * 2 * PI)%R];
  _freq := [(1 / 2 * 3)%R; (1 / 2 * 3)%R];
  _weight := 1%R;
  _ccore_network_pointer := None
|}.
(** ** Exact arithmetic: the comparisons *)

Lemma Rltb_true_iff (x y : R) : Rltb x y = true <-> (x < y)%R.
Proof. unfold Rltb. destruct (Rlt_dec x y); split; intros; try assumption; try reflexivity; try discriminate; contradiction. Qed.

Lemma Rltb_false_iff (x y : R) : Rltb x y = false <-> (y <= x)%R.
Proof.
  unfold Rltb. destruct (Rlt_dec x y) as [H | H]; split; intros H'; try reflexivity; try discriminate.
  - lra.
  - lra.
Qed.

Lemma Reqb_true_iff (x y : R) : Reqb x y = true <-> x = y.
Proof. unfold Reqb. destruct (Req_dec_T x y); split; intros; try assumption; try reflexivity; try discriminate; contradiction. Qed.

Lemma two_pi_pos : (0 < 2 * PI)%R.
Proof. pose proof PI_RGT_0. lra. Qed.

(** ** Phase normalisation *)

Section NormalizationGeneric.

Context {T : Type} {AT : Arith T}.

(** On any arithmetic, what the loop returns is neither above [2.0 * pi] nor
    below [0]. *)

Lemma phase_normalization_loop_exit (fuel : nat) (x v : T) :
  phase_normalization_loop fuel x = Ok v ->
  ltb two_pi v = false /\ ltb v (of_Z 0) = false.
Proof.
  revert x. induction fuel as [| fuel IH]; intros x; simpl.
  - destruct (ltb two_pi x) eqn:E1; simpl; [discriminate |].
    destruct (ltb x (of_Z 0)) eqn:E2; simpl; [discriminate |].
    intros H; injection H as <-. split; assumption.
  - destruct (ltb two_pi x) eqn:E1; simpl; [apply IH |].
    destruct (ltb x (of_Z 0)) eqn:E2; simpl; [apply IH |].
    intros H; injection H as <-. split; assumption.
Qed.
End NormalizationGeneric.

Lemma loop_R_unfold (fuel : nat) (x : R) :
  phase_normalization_loop (S fuel) x =
  if Rltb (2 * PI) x then phase_normalization_loop fuel (x - 2 * PI)%R
  else if Rltb x 0 then phase_normalization_loop fuel (x + 2 * PI)%R
  else Ok x.
Proof.
  cbn -[PI]. destruct (Rltb (2 * PI) x); destruct (Rltb x 0); reflexivity.
Qed.

Lemma loop_R_in_range (fuel : nat) (x : R) :
  (0 <= x <= 2 * PI)%R -> phase_normalization_loop fuel x = Ok x.
Proof.
  intros [H0 H1].
  assert (E1 : Rltb (2 * PI) x = false) by (apply Rltb_false_iff; lra).
  assert (E2 : Rltb x 0 = false) by (apply Rltb_false_iff; lra).
  destruct fuel; cbn -[PI]; rewrite E1, E2; reflexivity.
Qed.

Lemma loop_R_down (n : nat) : forall x : R,
  (0 <= x)%R -> (x <= 2 * PI * (INR n + 1))%R ->
  exists v, phase_normalization_loop n x = Ok v /\ (0 <= v <= 2 * PI)%R.
Proof.
  induction n as [| n IH]; intros x H0 Hx.
  - simpl in Hx. exists x. split; [apply loop_R_in_range |]; lra.
  - rewrite S_INR in Hx. destruct (Rle_or_lt x (2 * PI)) as [Hle | Hgt].
    + exists x. split; [apply loop_R_in_range |]; lra.
    + rewrite loop_R_unfold. rewrite (proj2 (Rltb_true_iff _ _) Hgt).
      apply IH; lra.
Qed.

Lemma loop_R_up (n : nat) : forall x : R,
  (x <= 2 * PI)%R -> (- (2 * PI * INR n) <= x)%R ->
  exists v, phase_normalization_loop n x = Ok v /\ (0 <= v <= 2 * PI)%R.
Proof.
  induction n as [| n IH]; intros x H1 Hx.
  - simpl in Hx. exists x. split; [apply loop_R_in_range |]; lra.
  - rewrite S_INR in Hx. destruct (Rle_or_lt 0 x) as [Hge | Hlt].
    + exists x. split; [apply loop_R_in_range |]; lra.
    + rewrite loop_R_unfold.
      pose proof two_pi_pos.
      rewrite (proj2 (Rltb_false_iff _ _)) by lra.
      rewrite (proj2 (Rltb_true_iff _ _) Hlt).
      apply IH; lra.
Qed.

Lemma normalization_fuel_bound (teta : R) :
  (Rabs teta <= 2 * PI * INR (normalization_fuel teta))%R.
Proof.
  unfold normalization_fuel. pose proof two_pi_pos as Hp.
  set (q := (Rabs teta / (2 * PI))%R).
  assert (Hq : (0 <= q)%R).
  { unfold q. apply Rmult_le_pos; [apply Rabs_pos |]. left. apply Rinv_0_lt_compat. exact Hp. }
  destruct (archimed q) as [Hup _].
  assert (Hz : (0 <= up q)%Z).
  { apply le_IZR. lra. }
  rewrite INR_IZR_INZ, Z2Nat.id by exact Hz.
  assert (Rabs teta = q * (2 * PI))%R as ->.
  { unfold q. field. lra. }
  nra.
Qed.

Lemma phase_normalization_total (teta : R) :
  exists v, phase_normalization (normalization_fuel teta) teta = Ok v /\ (0 <= v <= 2 * PI)%R.
Proof.
  pose proof (normalization_fuel_bound teta) as Hb. pose proof two_pi_pos.
  unfold phase_normalization.
  destruct (Rle_or_lt 0 teta) as [Hge | Hlt].
  - apply loop_R_down; [exact Hge |]. rewrite Rabs_right in Hb by lra. nra.
  - apply loop_R_up; [lra |]. rewrite Rabs_left in Hb by lra. lra.
Qed.

Lemma loop_fuel_mono {T} {AT : Arith T} (n : nat) : forall (x v : T) (m : nat),
  phase_normalization_loop n x = Ok v -> (n <= m)%nat -> phase_normalization_loop m x = Ok v.
Proof.
  induction n as [| n IH]; intros x v m H Hle.
  - simpl in H. destruct m; simpl; destruct (ltb two_pi x || ltb x (of_Z 0)); try discriminate; assumption.
  - destruct m; [lia |]. simpl in *. destruct (ltb two_pi x || ltb x (of_Z 0)); [| assumption].
    destruct (ltb two_pi x); apply IH; try assumption; lia.
Qed.

(** C1 fails as stated: the loop is left as soon as the value is not above
    [2 * PI], so [2 * PI] itself is returned unchanged, and it is not below
    [2 * PI]. *)
Lemma phase_normalization_two_pi_fixed :
  (forall fuel : nat, phase_normalization fuel (2 * PI)%R = Ok (2 * PI)%R)
  /\ ~ (2 * PI < 2 * PI)%R.
Proof.
  split.
  - intros fuel. apply loop_R_in_range. pose proof two_pi_pos. lra.
  - apply Rlt_irrefl.
Qed.

(** The same input on binary64 numbers. *)
Example phase_normalization_two_pi_binary64 :
  phase_normalization 0 (two_pi : float) = Ok two_pi
  /\ PrimFloat.ltb two_pi two_pi = false.
Proof. split; vm_compute; reflexivity. Qed.

(** C1, amended: in exact arithmetic [phase_normalization] returns for every
    real [teta], with every fuel from [normalization_fuel teta] on, and the
    value it returns lies in the closed interval from [0] to [2 * PI], the
    interval its docstring names. *)
Theorem phase_normalization_range (teta : R) :
  exists v : R,
    (forall fuel : nat, (normalization_fuel teta <= fuel)%nat ->
       phase_normalization fuel teta = Ok v)
    /\ (0 <= v <= 2 * PI)%R.
Proof.
  destruct (phase_normalization_total teta) as [v [Hv Hr]].
  exists v. split; [| exact Hr].
  intros fuel Hle. unfold phase_normalization in *.
  apply loop_fuel_mono with (n := normalization_fuel teta); assumption.
Qed.

(** ** Binary64: the loop that does not end *)

Lemma loop_binary64_absorbed (fuel : nat) :
  phase_normalization_loop (S fuel) 1e17%float = phase_normalization_loop fuel 1e17%float.
Proof.
  change (phase_normalization_loop (S fuel) 1e17%float)
    with (if (PrimFloat.ltb two_pi 1e17 || PrimFloat.ltb 1e17 (float_of_Z 0))%float
          then if PrimFloat.ltb two_pi 1e17%float
               then phase_normalization_loop fuel (PrimFloat.sub 1e17 two_pi)
               else phase_normalization_loop fuel (PrimFloat.add 1e17 two_pi)
          else Ok 1e17%float).
  replace (PrimFloat.ltb two_pi 1e17%float) with true by (vm_compute; reflexivity).
  replace (PrimFloat.sub 1e17 two_pi) with 1e17%float by (vm_compute; reflexivity).
  reflexivity.
Qed.

(** C2 fails on the program: [1e17 - 2.0 * pi] rounds back to [1e17], so on
    this input the loop of [phase_normalization] never makes progress and no
    amount of fuel lets it return. *)
Theorem phase_normalization_binary64_diverges :
  forall fuel : nat, phase_normalization fuel 1e17%float = OutOfFuel.
Proof.
  unfold phase_normalization. induction fuel as [| fuel IH].
  - vm_compute. reflexivity.
  - rewrite loop_binary64_absorbed. exact IH.
Qed.

(** ** Ensemble extraction *)

Lemma getitem_nth {A : Type} (l : list A) (i : nat) (d : A) :
  i < length l -> getitem l i = Ok (nth i l d).
Proof.
  intros H. unfold getitem. rewrite (nth_error_nth' l d H). reflexivity.
Qed.

Section FirstFitFacts.

Variable near : nat -> nat -> bool.

Lemma place_concat (i : nat) (clusters : list (list nat)) :
  Permutation (concat (place near i clusters)) (i :: concat clusters).
Proof.
  induction clusters as [| c rest IH]; simpl.
  - reflexivity.
  - destruct (existsb (near i) c); simpl.
    + rewrite <- app_assoc. simpl.
      rewrite <- Permutation_middle. reflexivity.
    + rewrite IH. rewrite <- Permutation_middle. reflexivity.
Qed.

Lemma place_bound (s i : nat) (clusters : list (list nat)) :
  i < s ->
  Forall (Forall (fun m => m < s)) clusters ->
  Forall (Forall (fun m => m < s)) (place near i clusters).
Proof.
  intros Hi. induction clusters as [| c rest IH]; simpl; intros H.
  - repeat constructor. exact Hi.
  - inversion H as [| ? ? Hc Hrest]; subst.
    destruct (existsb (near i) c).
    + constructor; [| exact Hrest].
      apply Forall_app. split; [exact Hc | repeat constructor; exact Hi].
    + constructor; [exact Hc | apply IH; exact Hrest].
Qed.

Lemma place_nonempty (i : nat) (clusters : list (list nat)) :
  Forall (fun c => c <> []) clusters ->
  Forall (fun c => c <> []) (place near i clusters).
Proof.
  induction clusters as [| c rest IH]; simpl; intros H.
  - repeat constructor. discriminate.
  - inversion H as [| ? ? Hc Hrest]; subst.
    destruct (existsb (near i) c).
    + constructor; [| exact Hrest]. destruct c; discriminate.
    + constructor; [exact Hc | apply IH; exact Hrest].
Qed.

Lemma fold_place_concat (k : nat) : forall (s : nat) (clusters : list (list nat)),
  Permutation
    (concat (fold_left (fun cl i => place near i cl) (seq s k) clusters))
    (concat clusters ++ seq s k).
Proof.
  induction k as [| k IH]; intros s clusters; simpl.
  - rewrite app_nil_r. reflexivity.
  - rewrite IH. rewrite place_concat. simpl.
    rewrite <- Permutation_middle. reflexivity.
Qed.

Lemma fold_place_nonempty (k : nat) : forall (s : nat) (clusters : list (list nat)),
  Forall (fun c => c <> []) clusters ->
  Forall (fun c => c <> [])
    (fold_left (fun cl i => place near i cl) (seq s k) clusters).
Proof.
  induction k as [| k IH]; intros s clusters H; simpl.
  - exact H.
  - apply IH. apply place_nonempty. exact H.
Qed.

Lemma greedy_first_fit_concat (n : nat) :
  1 <= n -> Permutation (concat (greedy_first_fit near n)) (seq 0 n).
Proof.
  intros Hn. unfold greedy_first_fit. rewrite fold_place_concat. simpl.
  destruct n as [| n]; [lia |]. simpl. rewrite Nat.sub_0_r. reflexivity.
Qed.

Lemma greedy_first_fit_nonempty (n : nat) :
  Forall (fun c => c <> []) (greedy_first_fit near n).
Proof.
  unfold greedy_first_fit. apply fold_place_nonempty.
  repeat constructor. discriminate.
Qed.

Lemma place_ext (near' : nat -> nat -> bool) (s i : nat) (clusters : list (list nat)) :
  (forall m, m < s -> near i m = near' i m) ->
  Forall (Forall (fun m => m < s)) clusters ->
  place near i clusters = place near' i clusters.
Proof.
  intros Hext. induction clusters as [| c rest IH]; simpl; intros H.
  - reflexivity.
  - inversion H as [| ? ? Hc Hrest]; subst.
    assert (E : existsb (near i) c = existsb (near' i) c).
    { clear - Hext Hc. induction Hc as [| m c Hm Hc IHc]; simpl.
      - reflexivity.
      - rewrite IHc, (Hext m Hm). reflexivity. }
    rewrite E. destruct (existsb (near' i) c); [reflexivity |].
    rewrite IH by exact Hrest. reflexivity.
Qed.

Lemma fold_place_ext (near' : nat -> nat -> bool) (k : nat) :
  forall (s : nat) (clusters : list (list nat)),
  (forall i m, m < i -> near i m = near' i m) ->
  Forall (Forall (fun m => m < s)) clusters ->
  fold_left (fun cl i => place near i cl) (seq s k) clusters
  = fold_left (fun cl i => place near' i cl) (seq s k) clusters.
Proof.
  induction k as [| k IH]; intros s clusters Hext H; simpl.
  - reflexivity.
  - rewrite <- (@place_ext near' s s clusters)
      by (try assumption; intros; apply Hext; assumption).
    apply IH; [exact Hext |].
    apply place_bound; [lia |].
    eapply Forall_impl; [| exact H]. intros c Hc.
    eapply Forall_impl; [| exact Hc]. simpl. intros; lia.
Qed.

End FirstFitFacts.

Section EnsemblesGeneric.

Context {T : Type} {AT : Arith T} {IM : Imports T}.

Lemma in_tolerance_two_sided (net : sync_network) (tolerance : T) (i m : nat) :
  i < length (_phases net) -> m < length (_phases net) ->
  in_tolerance net tolerance i m = Ok (two_sided (_phases net) tolerance i m).
Proof.
  intros Hi Hm. unfold in_tolerance, two_sided.
  rewrite (getitem_nth _ (of_Z 0) Hi), (getitem_nth _ (of_Z 0) Hm). reflexivity.
Qed.

Lemma scan_members_existsb (net : sync_network) (tolerance : T) (i : nat)
    (cluster : list nat) :
  i < length (_phases net) ->
  Forall (fun m => m < length (_phases net)) cluster ->
  scan_members net tolerance i cluster
  = Ok (existsb (two_sided (_phases net) tolerance i) cluster).
Proof.
  intros Hi H. induction H as [| m c Hm Hc IH]; simpl.
  - reflexivity.
  - rewrite (in_tolerance_two_sided net tolerance Hi Hm). simpl.
    destruct (two_sided (_phases net) tolerance i m); simpl; [reflexivity | exact IH].
Qed.

(** One round of the outer loop body: the flag and the list it leaves amount
    to [place]. *)
Lemma scan_clusters_place (net : sync_network) (tolerance : T) (i : nat)
    (clusters : list (list nat)) :
  i < length (_phases net) ->
  Forall (Forall (fun m => m < length (_phases net))) clusters ->
  exists (flag : bool) (clusters' : list (list nat)),
    scan_clusters net tolerance i clusters = Ok (flag, clusters')
    /\ (if flag then clusters' else clusters' ++ [[i]])
       = place (two_sided (_phases net) tolerance) i clusters.
Proof.
  intros Hi H. induction H as [| c rest Hc Hrest IH]; simpl.
  - exists false, []. split; reflexivity.
  - rewrite (scan_members_existsb net tolerance Hi Hc). simpl.
    destruct (existsb (two_sided (_phases net) tolerance i) c).
    + exists true, ((c ++ [i]) :: rest). split; reflexivity.
    + destruct IH as [flag [cl' [E Hp]]]. rewrite E. simpl.
      exists flag, (c :: cl'). split; [reflexivity |].
      rewrite <- Hp. destruct flag; reflexivity.
Qed.

Lemma allocate_loop_fold (net : sync_network) (tolerance : T) (k : nat) :
  forall (s : nat) (clusters : list (list nat)),
  s + k <= length (_phases net) ->
  Forall (Forall (fun m => m < s)) clusters ->
  for_each (seq s k) (fun i clusters =>
      '(cluster_allocated, clusters) <- scan_clusters net tolerance i clusters ;;
      if cluster_allocated then Ok clusters else Ok (clusters ++ [[i]]))
    clusters
  = Ok (fold_left (fun cl i => place (two_sided (_phases net) tolerance) i cl)
          (seq s k) clusters).
Proof.
  induction k as [| k IH]; intros s clusters Hlen H; simpl.
  - reflexivity.
  - assert (Hb : Forall (Forall (fun m => m < length (_phases net))) clusters).
    { eapply Forall_impl; [| exact H]. intros c Hc.
      eapply Forall_impl; [| exact Hc]. simpl. intros; lia. }
    destruct (@scan_clusters_place net tolerance s clusters) as [flag [cl' [E Hp]]];
      [lia | exact Hb |].
    rewrite E. simpl.
    assert (Hstep : (if flag then Ok cl' else Ok (cl' ++ [[s]]))
                    = Ok (place (two_sided (_phases net) tolerance) s clusters)).
    { rewrite <- Hp. destruct flag; reflexivity. }
    rewrite Hstep. simpl. apply IH; [lia |].
    apply place_bound; [lia |].
    eapply Forall_impl; [| exact H]. intros c Hc.
    eapply Forall_impl; [| exact Hc]. simpl. intros; lia.
Qed.

(** The program is greedy first-fit on its own two-sided test. *)
Lemma allocate_sync_ensembles_first_fit (net : sync_network) (tolerance : T) :
  _ccore_network_pointer net = None ->
  length (_phases net) = num_osc net ->
  1 <= num_osc net ->
  allocate_sync_ensembles net tolerance
  = Ok (greedy_first_fit (two_sided (_phases net) tolerance) (num_osc net)).
Proof.
  intros Hc Hlen Hn. unfold allocate_sync_ensembles. rewrite Hc.
  destruct (Nat.ltb_spec 0 (num_osc net)) as [_ | Hz]; [| lia].
  unfold range, greedy_first_fit. apply allocate_loop_fold; [lia |].
  repeat constructor.
Qed.

(** C3: on any arithmetic, binary64 included, for a network of at least one
    oscillator that runs the Python implementation and holds one phase per
    oscillator, [allocate_sync_ensembles] is greedy first-fit by index on the
    test the program writes: index [0] seeds the first cluster, and each
    later index [i] joins the first cluster, in creation order, with a
    member [m] such that [phases[i] < phases[m] + tolerance] and
    [phases[i] > phases[m] - tolerance], the sum and the difference as the
    program computes them, or opens a new singleton cluster when there is
    none. *)
Theorem allocate_sync_ensembles_two_sided_first_fit (net : sync_network) (tolerance : T) :
  _ccore_network_pointer net = None ->
  length (_phases net) = num_osc net ->
  1 <= num_osc net ->
  allocate_sync_ensembles net tolerance
  = Ok (greedy_first_fit
          (fun i m =>
             ltb (nth i (_phases net) (of_Z 0)) (add (nth m (_phases net) (of_Z 0)) tolerance)
             && ltb (sub (nth m (_phases net) (of_Z 0)) tolerance)
                  (nth i (_phases net) (of_Z 0)))
          (num_osc net)).
Proof.
  intros Hc Hlen Hn.
  rewrite allocate_sync_ensembles_first_fit by assumption.
  reflexivity.
Qed.

Lemma allocate_sync_ensembles_empty (net : sync_network) (tolerance : T) :
  _ccore_network_pointer net = None ->
  num_osc net = 0 ->
  allocate_sync_ensembles net tolerance = Ok [].
Proof.
  intros Hc Hn. unfold allocate_sync_ensembles. rewrite Hc, Hn. reflexivity.
Qed.

(** C4: for a network that runs the Python implementation and holds one
    phase per oscillator, [allocate_sync_ensembles] returns a list of
    clusters which, laid end to end, is a rearrangement of
    [0, ..., num_osc - 1]: every index is in exactly one cluster and once
    in it; no cluster is empty. *)
Theorem allocate_sync_ensembles_partition (net : sync_network) (tolerance : T) :
  _ccore_network_pointer net = None ->
  length (_phases net) = num_osc net ->
  exists clusters : list (list nat),
    allocate_sync_ensembles net tolerance = Ok clusters
    /\ Permutation (concat clusters) (seq 0 (num_osc net))
    /\ (forall i : nat,
          count_occ Nat.eq_dec (concat clusters) i
          = if Nat.ltb i (num_osc net) then 1 else 0)
    /\ Forall (fun cluster => cluster <> []) clusters.
Proof.
  intros Hc Hlen.
  assert (Hcount : forall clusters : list (list nat),
             Permutation (concat clusters) (seq 0 (num_osc net)) ->
             forall i : nat,
               count_occ Nat.eq_dec (concat clusters) i
               = if Nat.ltb i (num_osc net) then 1 else 0).
  { intros clusters Hp i.
    rewrite (Permutation_count_occ Nat.eq_dec) in Hp. rewrite Hp.
    destruct (Nat.ltb_spec i (num_osc net)) as [Hlt | Hge].
    - assert (Hin : In i (seq 0 (num_osc net))) by (apply in_seq; lia).
      pose proof (proj1 (NoDup_count_occ Nat.eq_dec _) (seq_NoDup (num_osc net) 0) i) as Hle.
      pose proof (proj1 (count_occ_In Nat.eq_dec _ i) Hin). lia.
    - apply count_occ_not_In. rewrite in_seq. lia. }
  destruct (Nat.eq_dec (num_osc net) 0) as [Hz | Hnz].
  - exists []. rewrite (allocate_sync_ensembles_empty net tolerance Hc Hz).
    assert (Hp : Permutation (concat (@nil (list nat))) (seq 0 (num_osc net))).
    { rewrite Hz. simpl. constructor. }
    repeat split; [exact Hp | apply Hcount; exact Hp | constructor].
  - exists (greedy_first_fit (two_sided (_phases net) tolerance) (num_osc net)).
    rewrite allocate_sync_ensembles_first_fit by (try assumption; lia).
    assert (Hp := @greedy_first_fit_concat (two_sided (_phases net) tolerance)
                    (num_osc net) ltac:(lia)).
    repeat split; [exact Hp | apply Hcount; exact Hp | apply greedy_first_fit_nonempty].
Qed.

End EnsemblesGeneric.

(** ** Exact arithmetic: ensembles, order and derivative *)

Lemma two_sided_within (phases : list R) (tolerance : R) (i m : nat) :
  two_sided phases tolerance i m = within phases tolerance i m.
Proof.
  unfold two_sided, within. cbn [of_Z ltb add sub Arith_R].
  set (a := nth i phases 0%R). set (b := nth m phases 0%R).
  destruct (Rltb (Rabs (a - b)) tolerance) eqn:E.
  - apply Rltb_true_iff in E. apply Rabs_def2 in E.
    apply andb_true_iff. split; apply Rltb_true_iff; lra.
  - apply Rltb_false_iff in E. apply andb_false_iff.
    destruct (Rle_or_lt 0 (a - b)) as [Hs | Hs].
    + rewrite Rabs_right in E by lra. left. apply Rltb_false_iff. lra.
    + rewrite Rabs_left in E by lra. right. apply Rltb_false_iff. lra.
Qed.

(** What [place] does, case by case. *)
Lemma place_no_hit (near : nat -> nat -> bool) (i : nat) (clusters : list (list nat)) :
  Forall (fun c => existsb (near i) c = false) clusters ->
  place near i clusters = clusters ++ [[i]].
Proof.
  induction 1 as [| c rest Hc _ IH]; simpl.
  - reflexivity.
  - rewrite Hc, IH. reflexivity.
Qed.

Lemma place_first_hit (near : nat -> nat -> bool) (i : nat)
    (before : list (list nat)) (c : list nat) (after : list (list nat)) :
  Forall (fun c' => existsb (near i) c' = false) before ->
  existsb (near i) c = true ->
  place near i (before ++ c :: after) = before ++ (c ++ [i]) :: after.
Proof.
  intros Hb Hc. induction Hb as [| c' rest Hc' _ IH]; simpl.
  - rewrite Hc. reflexivity.
  - rewrite Hc', IH. reflexivity.
Qed.

Lemma Rsum_app (a b : list R) : Rsum (a ++ b) = (Rsum a + Rsum b)%R.
Proof.
  induction a as [| x a IH]; simpl; [| rewrite IH]; lra.
Qed.

Section Exact.

Context {IM : Imports R}.

(** In exact arithmetic the two-sided test is the bound on the absolute
    difference: on a network of at least one oscillator that runs the Python
    implementation and holds one phase per oscillator,
    [allocate_sync_ensembles] is greedy first-fit by index on
    [|phases[i] - phases[m]| < tolerance]. *)
Theorem allocate_sync_ensembles_greedy (net : sync_network) (tolerance : R) :
  _ccore_network_pointer net = None ->
  length (_phases net) = num_osc net ->
  1 <= num_osc net ->
  allocate_sync_ensembles net tolerance
  = Ok (greedy_first_fit (within (_phases net) tolerance) (num_osc net)).
Proof.
  intros Hc Hlen Hn.
  rewrite allocate_sync_ensembles_first_fit by assumption.
  f_equal. unfold greedy_first_fit.
  apply fold_place_ext.
  - intros i m _. apply two_sided_within.
  - repeat constructor.
Qed.

(** *** Local order *)

Lemma local_order_inner (net : sync_network) (i : nat) (js : list nat) :
  i < length (_phases net) ->
  Forall (fun j => j < length (_phases net)) js ->
  forall (s : R) (c : nat),
  for_each js (fun j '(exp_amount, num_neigh) =>
      if has_connection net i j then
        phase_j <- getitem (_phases net) j ;;
        phase_i <- getitem (_phases net) i ;;
        Ok (add exp_amount (math_exp (neg (absv (sub phase_j phase_i)))), S num_neigh)
      else Ok (exp_amount, num_neigh)) (s, c)
  = Ok ((s + Rsum (map (pair_term net)
                     (filter (fun p => has_connection net (fst p) (snd p))
                        (map (pair i) js))))%R,
        c + length (filter (fun p => has_connection net (fst p) (snd p))
                      (map (pair i) js))).
Proof.
  intros Hi H. rewrite (getitem_nth _ 0%R Hi).
  induction H as [| j js Hj Hjs IH]; intros s c.
  - simpl. f_equal. f_equal; [lra | lia].
  - cbn [for_each map filter fst snd]. destruct (has_connection net i j) eqn:E.
    + rewrite (getitem_nth _ 0%R Hj). cbn [bind].
      rewrite IH. f_equal. cbn [map length Rsum fold_right]. f_equal; [| lia].
      unfold pair_term, Rsum. cbn [fst snd add sub neg absv Arith_R]. lra.
    + cbn [bind]. apply IH.
Qed.

Lemma local_order_outer (net : sync_network) (js : list nat) (rows : list nat) :
  Forall (fun i => i < length (_phases net)) rows ->
  Forall (fun j => j < length (_phases net)) js ->
  forall (s : R) (c : nat),
  for_each rows (fun i acc =>
      for_each js (fun j '(exp_amount, num_neigh) =>
        if has_connection net i j then
          phase_j <- getitem (_phases net) j ;;
          phase_i <- getitem (_phases net) i ;;
          Ok (add exp_amount (math_exp (neg (absv (sub phase_j phase_i)))), S num_neigh)
        else Ok (exp_amount, num_neigh)) acc) (s, c)
  = Ok ((s + Rsum (map (pair_term net)
                     (filter (fun p => has_connection net (fst p) (snd p))
                        (list_prod rows js))))%R,
        c + length (filter (fun p => has_connection net (fst p) (snd p))
                      (list_prod rows js))).
Proof.
  intros His Hjs. induction His as [| i rows Hi His IH]; intros s c; simpl.
  - f_equal. f_equal; [lra | lia].
  - rewrite (local_order_inner net Hi Hjs). cbn [bind].
    rewrite IH. f_equal.
    change (fun y : nat => (i, y)) with (pair (B := nat) i).
    rewrite filter_app, map_app, length_app, Rsum_app.
    f_equal; [lra | lia].
Qed.

Lemma seq_bound (n : nat) : Forall (fun i => i < n) (seq 0 n).
Proof. apply Forall_forall. intros i Hi. apply in_seq in Hi. lia. Qed.

Lemma truediv_count (x : R) (k : nat) :
  1 <= k -> truediv x (of_Z (Z.of_nat k)) = Ok (x / INR k)%R.
Proof.
  intros Hk. unfold truediv. cbn [of_Z eqb quot Arith_R].
  rewrite <- INR_IZR_INZ.
  assert (Hne : INR k <> 0%R).
  { apply not_0_INR. lia. }
  unfold Reqb. destruct (Req_dec_T (INR k) 0); [contradiction | reflexivity].
Qed.

(** C5: for a network that runs the Python implementation and holds one
    phase per oscillator, [sync_local_order] returns the sum of
    [exp(-|phases[j] - phases[i]|)] over the ordered pairs [(i, j)] with
    [has_connection(i, j)], divided by the number of such pairs or by [1]
    when there is none; it raises nothing, a network without connections
    included. *)
Theorem sync_local_order_formula (net : sync_network) :
  _ccore_network_pointer net = None ->
  length (_phases net) = num_osc net ->
  sync_local_order net
  = Ok (Rsum (map (pair_term net) (connected_pairs net))
        / INR (Nat.max 1 (length (connected_pairs net))))%R
  /\ (connected_pairs net = [] -> sync_local_order net = Ok (0 / 1)%R).
Proof.
  intros Hc Hlen.
  assert (E0 : sync_local_order net
               = Ok (Rsum (map (pair_term net) (connected_pairs net))
                     / INR (Nat.max 1 (length (connected_pairs net))))%R);
    [| split; [exact E0 | intros Hnone; rewrite E0, Hnone; reflexivity]].
  revert Hc Hlen.
  intros Hc Hlen. unfold sync_local_order. rewrite Hc. unfold range.
  rewrite Nat.sub_0_r.
  rewrite (@local_order_outer net (seq 0 (num_osc net)) (seq 0 (num_osc net)))
    by (rewrite Hlen; apply seq_bound).
  cbn [bind]. fold (connected_pairs net).
  cbn [of_Z Arith_R]. rewrite Rplus_0_l. simpl (0 + _).
  set (k := length (connected_pairs net)).
  assert (E : (if Nat.eqb k 0 then 1 else k) = Nat.max 1 k).
  { destruct (Nat.eqb_spec k 0); lia. }
  rewrite E. apply truediv_count. lia.
Qed.

(** *** Phase derivative *)

Lemma kuramoto_sum (net : sync_network) (teta : R) (i : nat) (ks : list nat) :
  Forall (fun k => k < length (_phases net)) ks ->
  forall phase : R,
  for_each ks (fun k phase =>
      if has_connection net i k then
        phase_k <- getitem (_phases net) k ;;
        Ok (add phase (math_sin (sub phase_k teta)))
      else Ok phase) phase
  = Ok (phase + Rsum (map (fun k => math_sin (nth k (_phases net) 0 - teta))
                        (filter (has_connection net i) ks)))%R.
Proof.
  intros H. induction H as [| k ks Hk Hks IH]; intros phase; simpl.
  - f_equal. lra.
  - destruct (has_connection net i k) eqn:E; simpl.
    + rewrite (getitem_nth _ 0%R Hk). simpl. rewrite IH. f_equal.
      cbn [add sub Arith_R]. lra.
    + apply IH.
Qed.

(** C6: for an oscillator index [i] below [num_osc], on a network that
    holds one phase and one frequency per oscillator, [phase_kuramoto]
    returns [freq[i] + (weight / num_osc) * S], with [S] the sum of
    [sin(phases[j] - teta)] over the [j] with [has_connection(i, j)]; the
    time [t] has no part in the value, and the method, a function of the
    network, returns a number and leaves the network as it is. *)
Theorem phase_kuramoto_formula (net : sync_network) (teta t : R) (i : nat) :
  length (_phases net) = num_osc net ->
  length (_freq net) = num_osc net ->
  i < num_osc net ->
  phase_kuramoto net teta t i
  = Ok (nth i (_freq net) 0
        + (_weight net / INR (num_osc net))
          * Rsum (map (fun j => math_sin (nth j (_phases net) 0 - teta))
                    (neighbours net i)))%R.
Proof.
  intros Hp Hf Hi. unfold phase_kuramoto, range. rewrite Nat.sub_0_r.
  rewrite kuramoto_sum by (rewrite Hp; apply seq_bound).
  cbn [bind]. rewrite (getitem_nth _ 0%R) by lia. cbn [bind].
  rewrite truediv_count by lia. cbn [bind].
  fold (neighbours net i). f_equal.
  cbn [of_Z add mul Arith_R].
  assert (Hne : INR (num_osc net) <> 0%R) by (apply not_0_INR; lia).
  field. exact Hne.
Qed.

End Exact.

(** ** The solver tag and the simulation loops *)

Lemma pyobj_eqb_eq (a b : pyobj) : pyobj_eqb a b = true <-> a = b.
Proof.
  destruct a as [x | x], b as [y | y]; simpl; split; intros H;
    try discriminate; try (inversion H; subst).
  - apply Z.eqb_eq in H. subst. reflexivity.
  - apply Z.eqb_refl.
  - apply String.eqb_eq in H. subst. reflexivity.
  - apply String.eqb_refl.
Qed.

Lemma pyobj_eqb_neq (a b : pyobj) : a <> b -> pyobj_eqb a b = false.
Proof.
  intros H. destruct (pyobj_eqb a b) eqn:E; [| reflexivity].
  apply pyobj_eqb_eq in E. contradiction.
Qed.

Section SimulationGeneric.

Context {T : Type} {AT : Arith T} {IM : Imports T}.

(** On a network of at least one oscillator, a solver tag that is neither
    [solve_type.FAST] nor [solve_type.RK4] makes [_calculate_phases] raise
    at its first oscillator: the [NameError]
    [Solver '...' is not supported] when the tag is a string, and a
    [TypeError] from putting that message together when it is not.  The
    assignment [self._phases = self._calculate_phases(...)] then does not
    take place: the network and the output are as before. *)
Lemma unsupported_solver_fails (fuel : nat) (solution : pyobj)
    (t step int_step : T) (w : world) :
  solution <> FAST ->
  solution <> RK4 ->
  1 <= num_osc (self w) ->
  _calculate_phases fuel (self w) solution t step int_step
  = Raise (unsupported_solver_error solution)
  /\ update_phases fuel solution t step int_step w
     = (Raise (unsupported_solver_error solution), w).
Proof.
  intros HF HR Hn.
  assert (E : _calculate_phases fuel (self w) solution t step int_step
              = Raise (unsupported_solver_error solution)).
  { unfold _calculate_phases, range.
    destruct (num_osc (self w)) as [| n]; [lia |].
    cbn [Nat.sub seq for_each].
    rewrite (pyobj_eqb_neq HF), (pyobj_eqb_neq HR). reflexivity. }
  split; [exact E |].
  unfold update_phases, pbind, get_self, lift. rewrite E. reflexivity.
Qed.

(** C7 fails on the program for every solver tag that is not a string, the
    integer tags of [solve_type] among them.  On a network of at least one
    oscillator such a tag, when it is neither [solve_type.FAST] nor
    [solve_type.RK4], does not give the [NameError]
    [Solver '...' is not supported]: building its message,
    ["Solver '" + solution + "' is not supported"], raises [TypeError]
    first.  The phase vector and the output are left as they were. *)
Theorem unsupported_solver_type_error (fuel : nat) (tag : Z)
    (t step int_step : T) (w : world) :
  PyInt tag <> FAST ->
  PyInt tag <> RK4 ->
  1 <= num_osc (self w) ->
  _calculate_phases fuel (self w) (PyInt tag) t step int_step = Raise TypeError
  /\ (forall message : string,
        _calculate_phases fuel (self w) (PyInt tag) t step int_step
        <> Raise (NameError message))
  /\ update_phases fuel (PyInt tag) t step int_step w = (Raise TypeError, w).
Proof.
  intros HF HR Hn.
  destruct (unsupported_solver_fails fuel t step int_step w HF HR Hn) as [E U].
  cbn [unsupported_solver_error] in E, U.
  split; [exact E |]. split; [| exact U].
  intros message. rewrite E. discriminate.
Qed.

(** *** The loop of [simulate_dynamic] *)

Lemma with_phases_same (net : @sync_network T) : with_phases net (_phases net) = net.
Proof. destruct net. reflexivity. Qed.

Lemma with_phases_twice (net : @sync_network T) (p q : list T) :
  with_phases (with_phases net p) q = with_phases net q.
Proof. reflexivity. Qed.

Lemma final_snoc (start : @visit T) (earlier : list (@visit T)) (last : @visit T) :
  final start (earlier ++ [last]) = last.
Proof.
  revert start. induction earlier as [| v earlier IH]; intros start; simpl.
  - reflexivity.
  - apply IH.
Qed.

(** The loop, started at the visit [start] with the lists [times] and
    [snapshots] collected so far, or with [acc] when nothing is collected. *)
Lemma dynamic_loop_history (net : sync_network) (order : T) (solution : pyobj)
    (collect_dynamic : bool) (step int_step threshold_changes : T) (fuel : nat) :
  forall (start : @visit T) (previous_order : T) (acc : dynamic T)
         (w : world) (r : dynamic T) (w' : world),
  self w = with_phases net (at_phases start) ->
  sync_local_order (self w) = Ok (at_order start) ->
  (collect_dynamic = true ->
   exists times snapshots, acc = (DynList times, DynList snapshots)) ->
  dynamic_loop fuel order solution collect_dynamic step int_step threshold_changes
    (at_time start) previous_order (at_order start) acc w = (Ok r, w') ->
  exists later : list (@visit T),
    iterations net order threshold_changes solution step int_step start later
    /\ self w' = with_phases net (at_phases (final start later))
    /\ sync_local_order (self w') = Ok (at_order (final start later))
    /\ (forall times snapshots,
          collect_dynamic = true -> acc = (DynList times, DynList snapshots) ->
          r = (DynList (times ++ map at_time later),
               DynList (snapshots ++ map at_phases later)))
    /\ (collect_dynamic = false ->
        r = match later with
            | [] => acc
            | _ :: _ => (DynLast (at_time (final start later)),
                         DynLast (at_phases (final start later)))
            end)
    /\ (ltb (at_order (final start later)) order = false /\ stdout w' = stdout w
        \/ exists (earlier : list (@visit T)) (last : @visit T),
             later = earlier ++ [last]
             /\ ltb (absv (sub (at_order last) (at_order (final start earlier))))
                  threshold_changes = true
             /\ stdout w' = stdout w ++ [warning (at_order last)]).
Proof.
  assert (Hstop : forall (start : @visit T) (acc : dynamic T) (w : world),
            self w = with_phases net (at_phases start) ->
            sync_local_order (self w) = Ok (at_order start) ->
            ltb (at_order start) order = false ->
            exists later : list (@visit T),
              iterations net order threshold_changes solution step int_step start later
              /\ self w = with_phases net (at_phases (final start later))
              /\ sync_local_order (self w) = Ok (at_order (final start later))
              /\ (forall times snapshots,
                    collect_dynamic = true -> acc = (DynList times, DynList snapshots) ->
                    acc = (DynList (times ++ map at_time later),
                           DynList (snapshots ++ map at_phases later)))
              /\ (collect_dynamic = false ->
                  acc = match later with
                        | [] => acc
                        | _ :: _ => (DynLast (at_time (final start later)),
                                     DynLast (at_phases (final start later)))
                        end)
              /\ (ltb (at_order (final start later)) order = false
                  /\ stdout w = stdout w
                  \/ exists (earlier : list (@visit T)) (last : @visit T),
                       later = earlier ++ [last]
                       /\ ltb (absv (sub (at_order last) (at_order (final start earlier))))
                            threshold_changes = true
                       /\ stdout w = stdout w ++ [warning (at_order last)])).
  { intros start acc w Hw Hcur Hlt. exists []. cbn [iterations final map].
    split; [exact I |]. split; [exact Hw |]. split; [exact Hcur |].
    split; [| split].
    - intros times snapshots _ ->. rewrite !app_nil_r. reflexivity.
    - reflexivity.
    - left. split; [exact Hlt | reflexivity]. }
  induction fuel as [| fuel IH];
    intros start previous_order acc w r w' Hw Hcur Hacc Hrun;
    cbn [dynamic_loop] in Hrun.
  - destruct (ltb (at_order start) order) eqn:Hlt; [discriminate |].
    injection Hrun as <- <-. apply Hstop; assumption.
  - destruct (ltb (at_order start) order) eqn:Hlt.
    2: { injection Hrun as <- <-. apply Hstop; assumption. }
    unfold pbind at 1 in Hrun. unfold update_phases, pbind, get_self, lift in Hrun.
    destruct (_calculate_phases fuel (self w) solution (at_time start) step int_step)
      as [next | e |] eqn:Hnext; try discriminate.
    cbn [set_phases] in Hrun.
    set (w1 := {| self := with_phases (self w) next; stdout := stdout w |}) in *.
    assert (Hw1 : self w1 = with_phases net next).
    { unfold w1. cbn [self]. rewrite Hw. reflexivity. }
    assert (Hrec : exists acc1,
               record_step collect_dynamic (add (at_time start) step) acc w1 = (Ok acc1, w1)
               /\ (forall times snapshots,
                     collect_dynamic = true -> acc = (DynList times, DynList snapshots) ->
                     acc1 = (DynList (times ++ [add (at_time start) step]),
                             DynList (snapshots ++ [next])))
               /\ (collect_dynamic = false ->
                   acc1 = (DynLast (add (at_time start) step), DynLast next))).
    { unfold record_step, pbind, get_self. destruct acc as [dyn_time dyn_phase].
      destruct collect_dynamic.
      - destruct (Hacc eq_refl) as [times [snapshots E]]. injection E as -> ->.
        cbn [append lift pret]. eexists. split; [reflexivity |]. split.
        + intros times' snapshots' _ E. injection E as <- <-. reflexivity.
        + discriminate.
      - cbn [pret]. eexists. split; [reflexivity |]. split.
        + discriminate.
        + reflexivity. }
    destruct Hrec as [acc1 [Hrec [Hacc1 Hlast1]]]. rewrite Hrec in Hrun.
    destruct (sync_local_order (self w1)) as [current1 | e |] eqn:Hcur1;
      try discriminate.
    set (next_visit := {| at_time := add (at_time start) step;
                          at_phases := next;
                          at_order := current1 |}).
    assert (Hstep : exists fuel' : nat,
               _calculate_phases fuel' (with_phases net (at_phases start)) solution
                 (at_time start) step int_step = Ok next).
    { exists fuel. rewrite <- Hw. exact Hnext. }
    assert (Hord : sync_local_order (with_phases net next) = Ok current1).
    { rewrite <- Hw1. exact Hcur1. }
    destruct (ltb (absv (sub current1 (at_order start))) threshold_changes) eqn:Hstall.
    + unfold print, pret in Hrun. cbn [self stdout] in Hrun.
      injection Hrun as <- <-. cbn [self stdout].
      exists [next_visit]. cbn [iterations final map at_time at_phases at_order next_visit].
      split; [repeat split; try assumption; intros H; contradiction |].
      split; [exact Hw1 |]. split; [exact Hcur1 |]. split; [| split].
      * intros times snapshots Hcol E. exact (Hacc1 times snapshots Hcol E).
      * exact Hlast1.
      * right. exists [], next_visit. cbn [app final at_order next_visit].
        repeat split; try assumption; reflexivity.
    + destruct (IH next_visit (at_order start) acc1 w1 r w' Hw1 Hcur1) as
        [rest [Hit [Hself [Hfin [Hcoll [Hlast Hexit]]]]]].
      * intros Hcol. destruct (Hacc Hcol) as [times [snapshots E]].
        exists (times ++ [add (at_time start) step]), (snapshots ++ [next]).
        exact (Hacc1 times snapshots Hcol E).
      * exact Hrun.
      * exists (next_visit :: rest).
        cbn [iterations final map].
        change (at_time next_visit) with (add (at_time start) step).
        change (at_phases next_visit) with next.
        change (at_order next_visit) with current1.
        split; [repeat split; try assumption; intros _; exact Hstall |].
        split; [exact Hself |]. split; [exact Hfin |]. split; [| split].
        -- intros times snapshots Hcol E.
           rewrite (Hcoll _ _ Hcol (Hacc1 times snapshots Hcol E)).
           rewrite <- !app_assoc. reflexivity.
        -- intros Hcol. rewrite (Hlast Hcol).
           destruct rest; [apply Hlast1; exact Hcol | reflexivity].
        -- destruct Hexit as [[Hge Hout] | [earlier [last [E [Hst Hout]]]]].
           ++ left. split; assumption.
           ++ right. exists (next_visit :: earlier), last. subst rest.
              repeat split; assumption.
Qed.

Lemma simulate_dynamic_history (fuel : nat) (order : T) (solution : pyobj)
    (collect_dynamic : bool) (step int_step threshold_changes : T)
    (w : world) (r : dynamic T) (w' : world) :
  _ccore_network_pointer (self w) = None ->
  simulate_dynamic fuel order solution collect_dynamic step int_step threshold_changes w
  = (Ok r, w') ->
  exists (current : T) (later : list (@visit T)),
    let start := {| at_time := of_Z 0;
                    at_phases := _phases (self w);
                    at_order := current |} in
    sync_local_order (self w) = Ok current
    /\ iterations (self w) order threshold_changes solution step int_step start later
    /\ self w' = with_phases (self w) (at_phases (final start later))
    /\ sync_local_order (self w') = Ok (at_order (final start later))
    /\ r = trajectory collect_dynamic start later
    /\ (ltb (at_order (final start later)) order = false /\ stdout w' = stdout w
        \/ exists (earlier : list (@visit T)) (last : @visit T),
             later = earlier ++ [last]
             /\ ltb (absv (sub (at_order last) (at_order (final start earlier))))
                  threshold_changes = true
             /\ stdout w' = stdout w ++ [warning (at_order last)]).
Proof.
  intros Hc Hrun. unfold simulate_dynamic, pbind at 1, get_self in Hrun.
  rewrite Hc in Hrun. unfold pbind at 1, lift at 1 in Hrun.
  destruct (sync_local_order (self w)) as [current0 | e |] eqn:Hcur; try discriminate.
  unfold pbind at 1 in Hrun.
  set (start := {| at_time := of_Z 0;
                   at_phases := _phases (self w);
                   at_order := current0 |}).
  set (acc0 := if collect_dynamic
               then (DynList [of_Z 0], DynList [_phases (self w)])
               else (DynList [], DynList [])).
  assert (E : (if collect_dynamic
               then dyn_phase <~ lift (append (DynList []) (_phases (self w))) ;;
                    dyn_time <~ lift (append (DynList []) (of_Z 0)) ;;
                    pret (dyn_time, dyn_phase)
               else pret (DynList [], DynList [])) w = (Ok acc0, w)).
  { unfold acc0. destruct collect_dynamic; reflexivity. }
  rewrite E in Hrun.
  change (of_Z 0) with (at_time start) in Hrun at 1.
  change current0 with (at_order start) in Hrun.
  destruct (@dynamic_loop_history (self w) order solution collect_dynamic step int_step
              threshold_changes fuel start (at_time start) acc0 w r w') as
    [later [Hit [Hself [Hfin [Hcoll [Hlast Hexit]]]]]].
  - cbn [at_phases start]. symmetry. apply with_phases_same.
  - exact Hcur.
  - intros Hcol. unfold acc0. rewrite Hcol. eexists. eexists. reflexivity.
  - exact Hrun.
  - exists current0, later. cbv zeta. fold start.
    split; [reflexivity |]. split; [exact Hit |]. split; [exact Hself |].
    split; [exact Hfin |]. split; [| exact Hexit].
    unfold trajectory, acc0 in *. destruct collect_dynamic.
    + rewrite (Hcoll _ _ eq_refl eq_refl). reflexivity.
    + rewrite (Hlast eq_refl). reflexivity.
Qed.

Lemma simulate_dynamic_at_target (fuel : nat) (order : T) (solution : pyobj)
    (step int_step threshold_changes : T) (w : world) (current : T) :
  _ccore_network_pointer (self w) = None ->
  sync_local_order (self w) = Ok current ->
  ltb current order = false ->
  simulate_dynamic fuel order solution false step int_step threshold_changes w
  = (Ok (DynList [], DynList []), w).
Proof.
  intros Hc Hcur Hlt. unfold simulate_dynamic, pbind at 1, get_self.
  rewrite Hc. unfold pbind at 1, lift at 1. rewrite Hcur.
  unfold pbind at 1, pret at 1.
  destruct fuel; cbn [dynamic_loop]; rewrite Hlt; reflexivity.
Qed.

End SimulationGeneric.

Lemma pbind_ok {W A B : Type} (m : prog W A) (k : A -> prog W B) (w w' : W) (a : A) :
  m w = (Ok a, w') -> pbind m k w = k a w'.
Proof. intros H. unfold pbind. rewrite H. reflexivity. Qed.

Section StepsGeneric.

Context {T : Type} {AT : Arith T} {IM : Imports T}.

Lemma update_phases_run (fuel : nat) (solution : pyobj) (t step int_step : T)
    (w : world) (next : list T) :
  _calculate_phases fuel (self w) solution t step int_step = Ok next ->
  update_phases fuel solution t step int_step w
  = (Ok tt, {| self := with_phases (self w) next; stdout := stdout w |}).
Proof.
  intros H. unfold update_phases, pbind, get_self, lift. rewrite H. reflexivity.
Qed.

Lemma record_step_collect (t : T) (times : list T) (snapshots : list (list T))
    (w : world) :
  record_step true t (DynList times, DynList snapshots) w
  = (Ok (DynList (times ++ [t]), DynList (snapshots ++ [_phases (self w)])), w).
Proof. reflexivity. Qed.

End StepsGeneric.


(** ** Exact arithmetic: how [simulate_dynamic] returns *)

Section ExactSimulation.

Context {IM : Imports R}.


(** C10: when [collect_dynamic] is false and the local order of the network
    is already at least the target, [simulate_dynamic] leaves the network
    and the output untouched, the loop body not having run, and returns the
    pair of two empty lists, not a time and a phase vector. *)
Theorem simulate_dynamic_already_ordered (fuel : nat) (order : R) (solution : pyobj)
    (step int_step threshold_changes : R) (w : world) (current : R) :
  _ccore_network_pointer (self w) = None ->
  sync_local_order (self w) = Ok current ->
  (order <= current)%R ->
  simulate_dynamic fuel order solution false step int_step threshold_changes w
  = (Ok (DynList [], DynList []), w).
Proof.
  intros Hc Hcur Hle. apply simulate_dynamic_at_target with (current := current);
    try assumption.
  apply Rltb_false_iff. exact Hle.
Qed.

End ExactSimulation.

(** ** Closed instances *)

Ltac Rarith :=
  pose proof two_pi_pos;
  first [ lra | apply Rabs_def1; lra ].

Ltac Rcompare :=
  repeat match goal with
    | |- context [Rltb ?a ?b] =>
        first [ rewrite (proj2 (Rltb_true_iff a b)) by Rarith
              | rewrite (proj2 (Rltb_false_iff a b)) by Rarith ]
    | |- context [Reqb ?a ?b] =>
        let E := fresh "E" in
        destruct (Reqb a b) eqn:E;
        [ apply Reqb_true_iff in E; exfalso; revert E; Rarith | clear E ]
    end.

Lemma unlinked_order (net : @sync_network R) :
  _ccore_network_pointer net = None ->
  num_osc net = 1 ->
  has_connection net 0 0 = false ->
  @sync_local_order R _ real_imports net = Ok (0 / 1)%R.
Proof.
  intros Hc Hn Hl. unfold sync_local_order, truediv, range. rewrite Hc, Hn.
  cbn -[Reqb]. rewrite Hl. cbn -[Reqb]. Rcompare. reflexivity.
Qed.

Lemma lone_oscillator_step (t step int_step : R) :
  @_calculate_phases R _ real_imports 0 lone_oscillator (PyInt 0) t step int_step
  = Ok [lone_next].
Proof.
  unfold _calculate_phases, phase_kuramoto, phase_normalization, truediv, two_pi.
  cbn -[Reqb Rltb PI]. Rcompare. cbn -[Reqb Rltb PI]. Rcompare. reflexivity.
Qed.
Lemma lone_oscillator_stalls :
  @simulate_dynamic R _ real_imports 1 (1 / 2)%R (PyInt 0) true (1 / 10)%R (1 / 100)%R
    (1 / 1000)%R (fresh lone_oscillator)
  = (Ok stalled_result, stalled_world).
Proof.
  unfold simulate_dynamic, pbind at 1, get_self.
  cbn [fresh self lone_oscillator _ccore_network_pointer].
  unfold pbind at 1, lift at 1.
  rewrite unlinked_order by reflexivity.
  unfold pbind at 1. cbn [append lift pret pbind].
  cbn [dynamic_loop]. cbn [ltb Arith_R]. Rcompare.
  unfold pbind at 1. unfold update_phases, pbind, get_self, lift. cbn [self].
  rewrite lone_oscillator_step. cbn [set_phases self stdout].
  unfold record_step, pbind, get_self. cbn [self append lift pret].
  rewrite unlinked_order by reflexivity.
  cbn [ltb absv sub Arith_R]. Rcompare.
  reflexivity.
Qed.

(** ** Exact arithmetic: the step count of [simulate_static] *)

(** In exact arithmetic the values [numpy.arange] fills in are
    [start + k * step]. *)
Lemma arange_values_exact (start step : R) (n : nat) :
  map (fun k => match k with
                | O => start
                | S O => (start + step)%R
                | _ => (start + IZR (Z.of_nat k) * (start + step - start))%R
                end) (seq 0 n)
  = map (fun k => (start + IZR (Z.of_nat k) * step)%R) (seq 0 n).
Proof.
  apply map_ext. intros [| [| k]].
  - change (Z.of_nat 0) with 0%Z. lra.
  - change (Z.of_nat 1) with 1%Z. lra.
  - ring.
Qed.

Lemma Rceil_IZR (z : Z) : Rceil (IZR z) = z.
Proof.
  unfold Rceil. rewrite <- opp_IZR.
  assert (E : up (IZR (- z)) = (- z + 1)%Z).
  { symmetry. apply tech_up.
    - rewrite plus_IZR. lra.
    - rewrite plus_IZR. lra. }
  rewrite E. lia.
Qed.

Lemma setitem_length {A : Type} (l : list A) (i : nat) (v : A) :
  i < length l -> exists l', setitem l i v = Ok l' /\ length l' = length l.
Proof.
  intros Hi. unfold setitem.
  destruct (Nat.ltb_spec i (length l)) as [_ | H]; [| lia].
  eexists. split; [reflexivity |].
  rewrite length_app. cbn [length]. rewrite length_firstn, length_skipn. lia.
Qed.

Section ExactStatic.

Context {IM : Imports R}.

Lemma phase_kuramoto_returns (net : sync_network) (teta t : R) (i : nat) :
  length (_phases net) = num_osc net ->
  length (_freq net) = num_osc net ->
  i < num_osc net ->
  exists d : R, phase_kuramoto net teta t i = Ok d.
Proof.
  intros Hp Hf Hi. unfold phase_kuramoto, range. rewrite Nat.sub_0_r.
  rewrite kuramoto_sum by (rewrite Hp; apply seq_bound).
  cbn [bind]. rewrite (getitem_nth _ 0%R) by lia. cbn [bind].
  rewrite truediv_count by lia. cbn [bind]. eexists. reflexivity.
Qed.

Lemma fast_rounds (net : sync_network) (t step int_step : R) (idxs : list nat) :
  length (_phases net) = num_osc net ->
  length (_freq net) = num_osc net ->
  Forall (fun i => i < num_osc net) idxs ->
  forall next_phases : list R,
  length next_phases = num_osc net ->
  exists (fuel : nat) (next_phases' : list R),
    length next_phases' = num_osc net
    /\ forall fuel' : nat, fuel <= fuel' ->
       for_each idxs (fun index next_phases =>
           p <- getitem (_phases net) index ;;
           d <- phase_kuramoto net p (of_Z 0) index ;;
           v <- phase_normalization fuel' (add p d) ;;
           setitem next_phases index v) next_phases
       = Ok next_phases'.
Proof.
  intros Hp Hf H. induction H as [| i idxs Hi Hidxs IH]; intros acc Hacc.
  - exists 0, acc. split; [exact Hacc |]. intros; reflexivity.
  - destruct (@phase_kuramoto_returns net (nth i (_phases net) 0%R) (of_Z 0) i Hp Hf Hi)
      as [d Hd].
    destruct (phase_normalization_total (nth i (_phases net) 0 + d)%R) as [v [Hv _]].
    destruct (@setitem_length R acc i v ltac:(lia)) as [acc1 [Hset Hlen1]].
    destruct (IH acc1 ltac:(lia)) as [fuel [acc' [Hlen' Hrest]]].
    exists (Nat.max (normalization_fuel (nth i (_phases net) 0 + d)%R) fuel), acc'.
    split; [exact Hlen' |]. intros fuel' Hle.
    cbn [for_each]. rewrite (getitem_nth _ 0%R) by lia. cbn [bind].
    rewrite Hd. cbn [bind].
    assert (Hn : phase_normalization fuel' (add (nth i (_phases net) 0%R) d) = Ok v).
    { unfold phase_normalization in Hv |- *.
      apply loop_fuel_mono with (n := normalization_fuel (nth i (_phases net) 0 + d)%R);
        [exact Hv | lia]. }
    rewrite Hn. cbn [bind]. rewrite Hset. cbn [bind]. apply Hrest. lia.
Qed.

Lemma calculate_phases_fast (net : sync_network) :
  length (_phases net) = num_osc net ->
  length (_freq net) = num_osc net ->
  exists (fuel : nat) (next_phases : list R),
    length next_phases = num_osc net
    /\ forall (fuel' : nat) (t step int_step : R), fuel <= fuel' ->
       _calculate_phases fuel' net FAST t step int_step = Ok next_phases.
Proof.
  intros Hp Hf.
  destruct (@fast_rounds net 0%R 0%R 0%R (range 0 (num_osc net)) Hp Hf) with
    (next_phases := repeat (@of_Z R _ 0) (num_osc net)) as [fuel [next [Hlen Hrun]]].
  - unfold range. rewrite Nat.sub_0_r. apply seq_bound.
  - apply repeat_length.
  - exists fuel, next. split; [exact Hlen |]. intros fuel' t step int_step Hle.
    unfold _calculate_phases.
    rewrite (proj2 (pyobj_eqb_eq FAST FAST) eq_refl). apply Hrun. exact Hle.
Qed.

Lemma static_loop_exact (step int_step : R) (ts : list R) :
  forall (times : list R) (snapshots : list (list R)) (w : world),
  length (_phases (self w)) = num_osc (self w) ->
  length (_freq (self w)) = num_osc (self w) ->
  exists (fuel : nat) (later : list (list R)) (w' : world),
    length later = length ts
    /\ forall fuel' : nat, fuel <= fuel' ->
       pfor_each ts (fun t acc =>
           _ <~ update_phases fuel' FAST t step int_step ;;
           record_step true t acc) (DynList times, DynList snapshots) w
       = (Ok (DynList (times ++ ts), DynList (snapshots ++ later)), w').
Proof.
  induction ts as [| t ts IH]; intros times snapshots w Hp Hf.
  - exists 0, [], w. split; [reflexivity |]. intros. rewrite !app_nil_r. reflexivity.
  - destruct (calculate_phases_fast (self w) Hp Hf) as [fuel1 [next [Hlen Hstep]]].
    set (w1 := {| self := with_phases (self w) next; stdout := stdout w |}).
    destruct (IH (times ++ [t]) (snapshots ++ [next]) w1) as [fuel2 [later [w' [Hl Hrest]]]];
      [exact Hlen | exact Hf |].
    exists (Nat.max fuel1 fuel2), (next :: later), w'.
    split; [simpl; lia |]. intros fuel' Hle.
    cbn [pfor_each].
    rewrite pbind_ok with (a := (DynList (times ++ [t]), DynList (snapshots ++ [next])))
                          (w' := w1).
    + rewrite Hrest by lia. rewrite <- !app_assoc. reflexivity.
    + rewrite pbind_ok with (a := tt) (w' := w1).
      * apply record_step_collect.
      * apply update_phases_run. apply Hstep. lia.
Qed.

Lemma grid_sorted (step : R) (n : nat) : forall s : nat,
  (0 < step)%R ->
  StronglySorted Rlt (map (fun k => (step + IZR (Z.of_nat k) * step)%R) (seq s n)).
Proof.
  induction n as [| n IH]; intros s Hstep; simpl.
  - constructor.
  - constructor; [apply IH; exact Hstep |].
    apply Forall_forall. intros x Hx. apply in_map_iff in Hx.
    destruct Hx as [k [<- Hk]]. apply in_seq in Hk.
    assert (IZR (Z.of_nat s) < IZR (Z.of_nat k))%R by (apply IZR_lt; lia). nra.
Qed.

Lemma static_times_sorted (steps : Z) (time : R) :
  (0 < steps)%Z -> (0 < time)%R -> StronglySorted Rlt (static_times steps time).
Proof.
  intros Hs Ht. unfold static_times.
  assert (Hstep : (0 < time / IZR steps)%R).
  { apply Rdiv_lt_0_compat; [exact Ht | apply IZR_lt; exact Hs]. }
  set (step := (time / IZR steps)%R) in *.
  constructor.
  - apply grid_sorted. exact Hstep.
  - apply Forall_forall. intros x Hx. apply in_map_iff in Hx.
    destruct Hx as [k [<- Hk]].
    assert (0 <= IZR (Z.of_nat k))%R by (apply IZR_le; lia). nra.
Qed.

(** In exact arithmetic the count is right: with the [FAST] solver, [steps]
    macro steps of size [time / steps] are taken and both series have
    [steps + 1] entries, the times increasing from [0] to [time]. *)
Lemma simulate_static_exact (steps : Z) (time : R) (w : world) :
  _ccore_network_pointer (self w) = None ->
  length (_phases (self w)) = num_osc (self w) ->
  length (_freq (self w)) = num_osc (self w) ->
  (0 < steps)%Z -> (0 < time)%R ->
  exists (fuel : nat) (snapshots : list (list R)) (w' : world),
    (forall fuel' : nat, fuel <= fuel' ->
       simulate_static fuel' steps time FAST true w
       = (Ok (DynList (static_times steps time), DynList snapshots), w'))
    /\ length snapshots = S (Z.to_nat steps)
    /\ length (static_times steps time) = S (Z.to_nat steps)
    /\ StronglySorted Rlt (static_times steps time).
Proof.
  intros Hc Hp Hf Hs Ht.
  assert (Hz : IZR steps <> 0%R) by (apply not_0_IZR; lia).
  assert (Hstep : (0 < time / IZR steps)%R).
  { apply Rdiv_lt_0_compat; [exact Ht | apply IZR_lt; exact Hs]. }
  set (step := (time / IZR steps)%R) in *.
  set (ts := map (fun k => (step + IZR (Z.of_nat k) * step)%R) (seq 0 (Z.to_nat steps))).
  destruct (@static_loop_exact step (step / 10)%R ts [0%R] [_phases (self w)] w Hp Hf)
    as [fuel [later [w' [Hl Hrun]]]].
  exists fuel, (_phases (self w) :: later), w'.
  split; [| split; [| split]].
  - intros fuel' Hle.
    unfold simulate_static, pbind at 1, get_self. rewrite Hc.
    unfold pbind at 1. cbn [append lift pret pbind app].
    assert (E1 : truediv time (of_Z steps) = Ok step).
    { unfold truediv. cbn [of_Z eqb quot Arith_R]. unfold Reqb.
      destruct (Req_dec_T (IZR steps) 0); [contradiction | reflexivity]. }
    rewrite E1.
    assert (E2 : truediv step (of_Z 10) = Ok (step / 10)%R).
    { unfold truediv. cbn [of_Z eqb quot Arith_R]. unfold Reqb.
      destruct (Req_dec_T 10 0); [lra | reflexivity]. }
    rewrite E2.
    assert (E3 : numpy_arange step (add time step) step = Ok ts).
    { unfold numpy_arange, truediv. cbn [of_Z eqb quot add sub mul ceil Arith_R].
      unfold Reqb. destruct (Req_dec_T step 0); [lra |]. cbn [bind].
      replace ((time + step - step) / step)%R with (IZR steps)
        by (unfold step; field; split; [exact Hz | lra]).
      rewrite Rceil_IZR. cbv zeta. rewrite arange_values_exact. reflexivity. }
    rewrite E3. rewrite Hrun by exact Hle. reflexivity.
  - simpl. rewrite Hl. unfold ts. rewrite length_map, length_seq. reflexivity.
  - unfold static_times. simpl. rewrite length_map, length_seq. reflexivity.
  - apply static_times_sorted; assumption.
Qed.

End ExactStatic.

(** ** Binary64: the step count of [simulate_static] *)

(** C8 fails on the program.  With [steps = 2] and [time = 0.1] (the
    binary64 number [0x1.999999999999ap-4]) the step is [0.05], and
    [0.1 + 0.05] rounds to [0.15000000000000002] ([0x1.3333333333334p-3]);
    the quotient [numpy.arange] takes the ceiling of is
    [2.0000000000000004], so the loop runs three times, not two: four
    entries in each series, at times [0], [0.05], [0.1] and
    [0.15000000000000002], the last one past [time]. *)
Theorem simulate_static_binary64_steps
    (exp sin : float -> float)
    (solve : (float -> float -> outcome float) -> float -> list float
             -> outcome (list float)) :
  exists (snapshots : list (list float)) (w' : world),
    @simulate_static float _ (binary64_imports exp sin solve)
      0 2 0x1.999999999999ap-4%float (PyInt 0) true (fresh lone_oscillator)
    = (Ok (DynList [0; 0x1.999999999999ap-5; 0x1.999999999999ap-4; 0x1.3333333333334p-3]%float,
           DynList snapshots), w')
    /\ length snapshots = 4.
Proof.
  eexists. eexists. split.
  - vm_compute. reflexivity.
  - reflexivity.
Qed.

(** With [steps = 4] and [time = 1] nothing is rounded and the count is
    right. *)
Example simulate_static_binary64_four_steps
    (exp sin : float -> float)
    (solve : (float -> float -> outcome float) -> float -> list float
             -> outcome (list float)) :
  exists (snapshots : list (list float)) (w' : world),
    @simulate_static float _ (binary64_imports exp sin solve)
      0 4 1%float (PyInt 0) true (fresh lone_oscillator)
    = (Ok (DynList [0; 0.25; 0.5; 0.75; 1]%float, DynList snapshots), w')
    /\ length snapshots = 5.
Proof.
  eexists. eexists. split.
  - vm_compute. reflexivity.
  - reflexivity.
Qed.

(** The theorems above at closed inputs. *)

Lemma allocate_sync_ensembles_greedy_pair :
  @allocate_sync_ensembles R _ real_imports pair_network (1 / 100)%R
  = Ok (greedy_first_fit (within (_phases pair_network) (1 / 100)%R)
          (num_osc pair_network)).
Proof.
  apply allocate_sync_ensembles_greedy; [reflexivity | reflexivity | cbn; lia].
Defined.

Lemma allocate_sync_ensembles_partition_pair :
  exists clusters : list (list nat),
    @allocate_sync_ensembles R _ real_imports pair_network (1 / 100)%R = Ok clusters
    /\ Permutation (concat clusters) (seq 0 (num_osc pair_network))
    /\ (forall i : nat,
          count_occ Nat.eq_dec (concat clusters) i
          = if Nat.ltb i (num_osc pair_network) then 1 else 0)
    /\ Forall (fun cluster => cluster <> []) clusters.
Proof.
  apply allocate_sync_ensembles_partition; reflexivity.
Defined.

Lemma allocate_sync_ensembles_two_sided_first_fit_close :
  @allocate_sync_ensembles float _ binary64_plain close_pair close_tolerance
  = Ok (greedy_first_fit
          (fun i m =>
             ltb (nth i (_phases close_pair) (of_Z 0))
               (add (nth m (_phases close_pair) (of_Z 0)) close_tolerance)
             && ltb (sub (nth m (_phases close_pair) (of_Z 0)) close_tolerance)
                  (nth i (_phases close_pair) (of_Z 0)))
          (num_osc close_pair)).
Proof.
  apply (allocate_sync_ensembles_two_sided_first_fit (IM := binary64_plain));
    [reflexivity | reflexivity | cbn; lia].
Defined.

(** C3 fails as stated on binary64 numbers, where the two tests part.  For
    the phases [3.0] and [3.01] and the tolerance [0.01] the difference of
    the phases is below the tolerance, but [3.0 + 0.01] rounds to [3.01],
    which [3.01] is not below: the program keeps the two oscillators apart,
    where first-fit on the absolute difference groups them. *)
Lemma allocate_sync_ensembles_binary64_rounding :
  @allocate_sync_ensembles float _ binary64_plain close_pair close_tolerance
  = Ok [[0]; [1]]
  /\ abs_within (_phases close_pair) close_tolerance 1 0 = true
  /\ greedy_first_fit (abs_within (_phases close_pair) close_tolerance)
       (num_osc close_pair)
     = [[0; 1]]
  /\ [[0]; [1]] <> [[0; 1]].
Proof.
  repeat split; try (vm_compute; reflexivity). discriminate.
Qed.

Lemma sync_local_order_formula_pair :
  @sync_local_order R _ real_imports pair_network
  = Ok (Rsum (map (pair_term (IM := real_imports) pair_network)
                (connected_pairs pair_network))
        / INR (Nat.max 1 (length (connected_pairs pair_network))))%R
  /\ (connected_pairs pair_network = []
      -> @sync_local_order R _ real_imports pair_network = Ok (0 / 1)%R).
Proof.
  apply sync_local_order_formula; reflexivity.
Defined.

Lemma phase_kuramoto_formula_pair :
  @phase_kuramoto R _ real_imports pair_network (1 / 4)%R 7%R 1
  = Ok (nth 1 (_freq pair_network) 0
        + (_weight pair_network / INR (num_osc pair_network))
          * Rsum (map (fun j => sin (nth j (_phases pair_network) 0 - 1 / 4))
                    (neighbours pair_network 1)))%R.
Proof.
  apply (phase_kuramoto_formula (IM := real_imports));
    [reflexivity | reflexivity | cbn; lia].
Defined.

Lemma unsupported_solver_fails_rkf45 :
  @_calculate_phases R _ real_imports 0 lone_oscillator (PyStr "rkf45") 0%R 1%R 1%R
  = Raise (NameError "Solver 'rkf45' is not supported")
  /\ @update_phases R _ real_imports 0 (PyStr "rkf45") 0%R 1%R 1%R (fresh lone_oscillator)
     = (Raise (NameError "Solver 'rkf45' is not supported"), fresh lone_oscillator).
Proof.
  apply (unsupported_solver_fails (IM := real_imports) 0 (solution := PyStr "rkf45")
           0%R 1%R 1%R (fresh lone_oscillator));
    [discriminate | discriminate | cbn; lia].
Defined.

Lemma unsupported_solver_type_error_rkf45 :
  @_calculate_phases R _ real_imports 0 (self (fresh lone_oscillator)) (PyInt 2) 0%R 1%R 1%R
  = Raise TypeError
  /\ (forall message : string,
        @_calculate_phases R _ real_imports 0 (self (fresh lone_oscillator)) (PyInt 2)
          0%R 1%R 1%R
        <> Raise (NameError message))
  /\ @update_phases R _ real_imports 0 (PyInt 2) 0%R 1%R 1%R (fresh lone_oscillator)
     = (Raise TypeError, fresh lone_oscillator).
Proof.
  apply (unsupported_solver_type_error (IM := real_imports) 0 (tag := 2) 0%R 1%R 1%R
           (fresh lone_oscillator));
    [discriminate | discriminate | cbn; lia].
Defined.


Lemma simulate_dynamic_already_ordered_lone :
  @simulate_dynamic R _ real_imports 0 0%R (PyInt 0) false (1 / 10)%R (1 / 100)%R
    (1 / 1000)%R (fresh lone_oscillator)
  = (Ok (DynList [], DynList []), fresh lone_oscillator).
Proof.
  apply (simulate_dynamic_already_ordered (IM := real_imports)) with (current := (0 / 1)%R);
    [reflexivity | apply unlinked_order; reflexivity | lra].
Defined.

(** The binary64 program on four oscillators in two groups. *)
Example allocate_sync_ensembles_binary64 (exp sin : float -> float)
    (solve : (float -> float -> outcome float) -> float -> list float
             -> outcome (list float)) :
  @allocate_sync_ensembles float _ (binary64_imports exp sin solve)
    {| num_osc := 4;
       has_connection := fun _ _ => true;
       _phases := [0.5; 3; 0.5078125; 2.9921875]%float;
       _freq := [0; 0; 0; 0]%float;
       _weight := 1%float;
       _ccore_network_pointer := None |} 0.015625%float
  = Ok [[0; 2]; [1; 3]].
Proof. vm_compute. reflexivity. Qed.

(** * Further properties *)

(** ** Phase normalisation *)

Section NormalizationFixed.

Context {T : Type} {AT : Arith T}.

Lemma loop_returns_unchanged (fuel : nat) (v : T) :
  ltb two_pi v = false -> ltb v (of_Z 0) = false ->
  phase_normalization_loop fuel v = Ok v.
Proof.
  intros H1 H2. destruct fuel; simpl; rewrite H1, H2; reflexivity.
Qed.

(** X1: on any arithmetic, binary64 included, a value [phase_normalization]
    has returned is a fixed point of it: normalising it again returns it
    unchanged, whatever the fuel. *)
Theorem phase_normalization_idempotent (fuel fuel' : nat) (teta v : T) :
  phase_normalization fuel teta = Ok v ->
  phase_normalization fuel' v = Ok v.
Proof.
  intros H. unfold phase_normalization in *.
  apply phase_normalization_loop_exit in H. destruct H as [H1 H2].
  apply loop_returns_unchanged; assumption.
Qed.

End NormalizationFixed.

Lemma loop_R_shift (fuel : nat) : forall x v : R,
  phase_normalization_loop fuel x = Ok v ->
  exists k : Z,
    v = (x + IZR k * (2 * PI))%R
    /\ (2 * PI < x -> 0 < v)%R
    /\ (x < 0 -> v < 2 * PI)%R
    /\ (0 <= x <= 2 * PI -> v = x)%R.
Proof.
  pose proof two_pi_pos as Hp.
  induction fuel as [| fuel IH]; intros x v H.
  - simpl in H. cbn [ltb of_Z Arith_R] in H. change (@two_pi R _) with (2 * PI)%R in H.
    destruct (Rltb (2 * PI) x) eqn:E1; [discriminate |].
    destruct (Rltb x 0) eqn:E2; [discriminate |].
    simpl in H. injection H as <-.
    apply Rltb_false_iff in E1. apply Rltb_false_iff in E2.
    exists 0%Z. repeat split; try lra.
  - rewrite loop_R_unfold in H.
    destruct (Rltb (2 * PI) x) eqn:E1.
    + apply Rltb_true_iff in E1. apply IH in H.
      destruct H as [k [Hv [Ha [Hb Hc]]]].
      exists (k - 1)%Z. rewrite minus_IZR. repeat split; lra.
    + apply Rltb_false_iff in E1. destruct (Rltb x 0) eqn:E2.
      * apply Rltb_true_iff in E2. apply IH in H.
        destruct H as [k [Hv [Ha [Hb Hc]]]].
        exists (k + 1)%Z. rewrite plus_IZR. repeat split; lra.
      * apply Rltb_false_iff in E2. injection H as <-.
        exists 0%Z. repeat split; try lra.
Qed.

(** X2: in exact arithmetic [phase_normalization] moves its argument by a
    whole number of turns, [k * 2 * PI], into the closed interval from [0]
    to [2 * PI], and takes the shortest way: an argument inside the interval
    is returned as it is, one above [2 * PI] never comes down to [0], and
    one below [0] never comes up to [2 * PI]. *)
Theorem phase_normalization_whole_turns (teta : R) :
  exists (v : R) (k : Z),
    (forall fuel : nat, (normalization_fuel teta <= fuel)%nat ->
       phase_normalization fuel teta = Ok v)
    /\ v = (teta + IZR k * (2 * PI))%R
    /\ (0 <= v <= 2 * PI)%R
    /\ (0 <= teta <= 2 * PI -> v = teta)%R
    /\ (2 * PI < teta -> 0 < v)%R
    /\ (teta < 0 -> v < 2 * PI)%R.
Proof.
  destruct (phase_normalization_total teta) as [v [Hv Hr]].
  unfold phase_normalization in Hv.
  destruct (loop_R_shift _ _ Hv) as [k [Hk [Ha [Hb Hc]]]].
  exists v, k. repeat split; try assumption; try lra.
  intros fuel Hle. unfold phase_normalization.
  apply loop_fuel_mono with (n := normalization_fuel teta); assumption.
Qed.

Lemma phase_normalization_idempotent_seven :
  @phase_normalization float _ 0 (PrimFloat.sub 7 two_pi)
  = Ok (PrimFloat.sub 7 two_pi).
Proof.
  apply (phase_normalization_idempotent (T := float) 5 0 7%float).
  vm_compute. reflexivity.
Defined.

(** ** Ensemble extraction: the shape of the clusters *)

Section ClusterShapeFacts.

Variable near : nat -> nat -> bool.

Lemma sorted_snoc (c : list nat) (i : nat) :
  StronglySorted lt c -> Forall (fun m => m < i) c -> StronglySorted lt (c ++ [i]).
Proof.
  induction 1 as [| m c Hc IH Hm]; intros Hb; simpl.
  - repeat constructor.
  - inversion Hb as [| ? ? Hmi Hci]; subst. constructor.
    + apply IH. exact Hci.
    + apply Forall_app. split; [exact Hm | repeat constructor; exact Hmi].
Qed.

Lemma chained_snoc (i : nat) (c : list nat) : forall seen : list nat,
  chained near seen c ->
  existsb (near i) (seen ++ c) = true ->
  chained near seen (c ++ [i]).
Proof.
  induction c as [| m c IH]; intros seen Hc Hi; simpl in *.
  - rewrite app_nil_r in Hi. split; [intros _; exact Hi | exact I].
  - destruct Hc as [Hm Hrest]. split; [exact Hm |].
    apply IH; [exact Hrest |]. rewrite <- app_assoc. exact Hi.
Qed.

Lemma chained_member (pre : list nat) : forall (seen c : list nat) (m : nat) (post : list nat),
  chained near seen c ->
  c = pre ++ m :: post ->
  seen ++ pre <> [] ->
  existsb (near m) (seen ++ pre) = true.
Proof.
  induction pre as [| p pre IH]; intros seen c m post Hc E Hne; subst c; simpl in Hc.
  - rewrite app_nil_r in *. destruct Hc as [Hm _]. apply Hm. exact Hne.
  - destruct Hc as [_ Hrest].
    replace (seen ++ p :: pre) with ((seen ++ [p]) ++ pre)
      by (rewrite <- app_assoc; reflexivity).
    apply (IH (seen ++ [p]) (pre ++ m :: post) m post Hrest eq_refl).
    destruct seen; discriminate.
Qed.

Lemma well_built_weaken (s : nat) (c : list nat) :
  well_built near s c -> well_built near (S s) c.
Proof.
  intros [H1 [H2 [H3 [H4 H5]]]]. repeat split; try assumption.
  eapply Forall_impl; [| exact H2]. simpl. intros; lia.
Qed.

Lemma well_built_join (s : nat) (c : list nat) :
  well_built near s c -> existsb (near s) c = true ->
  well_built near (S s) (c ++ [s]).
Proof.
  intros [H1 [H2 [H3 [H4 H5]]]] Hit. repeat split.
  - apply sorted_snoc; assumption.
  - apply Forall_app. split.
    + eapply Forall_impl; [| exact H2]. simpl. intros; lia.
    + repeat constructor.
  - destruct c; discriminate.
  - apply chained_snoc; assumption.
  - destruct c as [| h c]; [contradiction |]. exact H5.
Qed.

Lemma well_built_open (s : nat) (clusters : list (list nat)) :
  (forall j : nat, j < s -> In j (concat clusters)) ->
  Forall (fun c => existsb (near s) c = false) clusters ->
  well_built near (S s) [s].
Proof.
  intros Hcover Hmiss. repeat split.
  - repeat constructor.
  - repeat constructor.
  - discriminate.
  - intros H. contradiction.
  - simpl. intros j Hj. apply Hcover in Hj. apply in_concat in Hj.
    destruct Hj as [c [Hc Hjc]].
    rewrite Forall_forall in Hmiss. specialize (Hmiss c Hc).
    destruct (near s j) eqn:E; [| reflexivity].
    assert (existsb (near s) c = true) by (apply existsb_exists; exists j; auto).
    congruence.
Qed.

Lemma place_well_built (s : nat) (clusters : list (list nat)) :
  (forall j : nat, j < s -> In j (concat clusters)) ->
  Forall (well_built near s) clusters ->
  Forall (well_built near (S s)) (place near s clusters).
Proof.
  intros Hcover H.
  assert (Hopen : Forall (fun c => existsb (near s) c = false) clusters ->
                  well_built near (S s) [s])
    by (apply well_built_open; exact Hcover).
  clear Hcover. induction H as [| c rest Hc Hrest IH]; simpl.
  - constructor; [apply Hopen; constructor | constructor].
  - destruct (existsb (near s) c) eqn:E.
    + constructor; [apply well_built_join; assumption |].
      eapply Forall_impl; [| exact Hrest]. apply well_built_weaken.
    + constructor; [apply well_built_weaken; exact Hc |].
      apply IH. intros Hmiss. apply Hopen. constructor; assumption.
Qed.

Lemma place_heads (s : nat) (clusters : list (list nat)) :
  Forall (well_built near s) clusters ->
  StronglySorted lt (map (hd 0) clusters) ->
  StronglySorted lt (map (hd 0) (place near s clusters))
  /\ Forall (fun h => h <= s) (map (hd 0) (place near s clusters)).
Proof.
  induction 1 as [| c rest Hc Hrest IH]; simpl; intros Hs.
  - split; repeat constructor.
  - inversion Hs as [| ? ? Hs' Hlt]; subst.
    assert (Hhd : hd 0 c < s).
    { destruct Hc as [_ [Hb [Hne _]]]. destruct c as [| h c]; [contradiction |].
      inversion Hb; subst. simpl. assumption. }
    assert (Hheads : Forall (fun h => h <= s) (map (hd 0) rest)).
    { clear - Hrest. induction Hrest as [| c' r Hc' _ IHr]; simpl; constructor;
        [| exact IHr].
      destruct Hc' as [_ [Hb [Hne _]]]. destruct c' as [| h c']; [contradiction |].
      inversion Hb; subst. simpl. lia. }
    destruct (existsb (near s) c) eqn:E; simpl.
    + assert (Ehd : hd 0 (c ++ [s]) = hd 0 c).
      { destruct Hc as [_ [_ [Hne _]]]. destruct c; [contradiction | reflexivity]. }
      rewrite Ehd. split; [constructor; assumption |].
      constructor; [lia | exact Hheads].
    + destruct (IH Hs') as [IH1 IH2]. split.
      * constructor; [exact IH1 |].
        assert (Hin : forall h, In h (map (hd 0) (place near s rest)) ->
                                In h (map (hd 0) rest) \/ h = s).
        { clear. induction rest as [| c' r IHr]; simpl.
          - intros h [<- | []]. right. reflexivity.
          - destruct (existsb (near s) c'); simpl.
            + intros h [<- | Hh].
              * destruct c'; simpl; [right | left; left]; reflexivity.
              * left. right. exact Hh.
            + intros h [<- | Hh]; [left; left; reflexivity |].
              destruct (IHr h Hh) as [Hl | Hr]; [left; right; exact Hl | right; exact Hr]. }
        apply Forall_forall. intros h Hh. apply Hin in Hh. destruct Hh as [Hh | ->].
        -- rewrite Forall_forall in Hlt. apply Hlt. exact Hh.
        -- exact Hhd.
      * constructor; [lia | exact IH2].
Qed.

Lemma fold_place_shape (k : nat) : forall (s : nat) (clusters : list (list nat)),
  (forall j : nat, j < s -> In j (concat clusters)) ->
  Forall (well_built near s) clusters ->
  StronglySorted lt (map (hd 0) clusters) ->
  Forall (well_built near (s + k))
    (fold_left (fun cl i => place near i cl) (seq s k) clusters)
  /\ StronglySorted lt
       (map (hd 0) (fold_left (fun cl i => place near i cl) (seq s k) clusters)).
Proof.
  induction k as [| k IH]; intros s clusters Hcover Hw Hs; simpl.
  - rewrite Nat.add_0_r. split; assumption.
  - replace (s + S k) with (S s + k) by lia. apply IH.
    + intros j Hj.
      apply (Permutation_in j (Permutation_sym (place_concat near s clusters))).
      destruct (Nat.eq_dec j s) as [-> | Hne]; [left; reflexivity |].
      right. apply Hcover. lia.
    + apply place_well_built; assumption.
    + apply place_heads; assumption.
Qed.

Lemma greedy_first_fit_shape (n : nat) :
  1 <= n ->
  Forall (well_built near n) (greedy_first_fit near n)
  /\ StronglySorted lt (map (hd 0) (greedy_first_fit near n))
  /\ exists rest others, greedy_first_fit near n = (0 :: rest) :: others.
Proof.
  intros Hn. unfold greedy_first_fit.
  destruct (@fold_place_shape (n - 1) 1 [[0]]) as [H1 H2].
  - intros j Hj. left. lia.
  - repeat constructor; try discriminate.
    + intros H. contradiction.
    + simpl. intros j Hj. lia.
  - repeat constructor.
  - replace (1 + (n - 1)) with n in H1 by lia.
    split; [exact H1 |]. split; [exact H2 |].
    set (result := fold_left _ _ _) in *.
    assert (Hcount : count_occ Nat.eq_dec (concat result) 0 = 1).
    { pose proof (@greedy_first_fit_concat near n Hn) as Hp.
      unfold greedy_first_fit in Hp. fold result in Hp.
      rewrite (Permutation_count_occ Nat.eq_dec) in Hp. rewrite Hp.
      destruct n as [| n]; [lia |]. simpl.
      destruct (Nat.eq_dec 0 0) as [_ | Hne]; [| contradiction].
      f_equal. apply count_occ_not_In. rewrite in_seq. lia. }
    destruct result as [| c others]; [simpl in Hcount; discriminate |].
    inversion H1 as [| ? ? Hc Hothers]; subst.
    destruct Hc as [_ [_ [Hne [_ Hhead]]]].
    destruct c as [| h rest]; [contradiction |].
    destruct h as [| h]; [exists rest, others; reflexivity |].
    exfalso.
    (* a head above [0] would leave [0] to a later cluster, whose head is
       larger still *)
    assert (Hin0 : In 0 (concat ((S h :: rest) :: others))).
    { apply (count_occ_In Nat.eq_dec). lia. }
    simpl in Hin0. destruct Hin0 as [H0 | Hin0]; [discriminate |].
    apply in_app_or in Hin0. destruct Hin0 as [Hin0 | Hin0].
    + inversion H1 as [| ? ? [Hsorted _] _]; subst.
      inversion Hsorted as [| ? ? _ Hlt]; subst.
      rewrite Forall_forall in Hlt. specialize (Hlt 0 Hin0). lia.
    + apply in_concat in Hin0. destruct Hin0 as [c' [Hc' H0c']].
      inversion H2 as [| ? ? _ Hheads]; subst.
      rewrite Forall_forall in Hheads.
      assert (Hh' : S h < hd 0 c').
      { apply Hheads. apply in_map. exact Hc'. }
      rewrite Forall_forall in Hothers. specialize (Hothers c' Hc').
      destruct Hothers as [Hsorted' _].
      destruct c' as [| h' rest']; [contradiction |].
      simpl in Hh'. destruct H0c' as [-> | H0c']; [lia |].
      inversion Hsorted' as [| ? ? _ Hlt']; subst.
      rewrite Forall_forall in Hlt'. specialize (Hlt' 0 H0c'). lia.
Qed.

Lemma greedy_first_fit_singletons (n : nat) :
  1 <= n ->
  (forall i m : nat, m < i -> i < n -> near i m = false) ->
  greedy_first_fit near n = map (fun i => [i]) (seq 0 n).
Proof.
  intros Hn Hsep. unfold greedy_first_fit.
  assert (Hfold : forall k s, 1 <= s -> s + k <= n ->
            fold_left (fun cl i => place near i cl) (seq s k)
              (map (fun i => [i]) (seq 0 s))
            = map (fun i => [i]) (seq 0 (s + k))).
  { induction k as [| k IH]; intros s Hs Hle; simpl.
    - rewrite Nat.add_0_r. reflexivity.
    - rewrite place_no_hit.
      + replace (s + S k) with (S s + k) by lia.
        rewrite <- IH by lia. f_equal.
        rewrite seq_S, map_app. reflexivity.
      + apply Forall_forall. intros c Hc. apply in_map_iff in Hc.
        destruct Hc as [m [<- Hm]]. apply in_seq in Hm. simpl.
        rewrite Hsep by lia. reflexivity. }
  specialize (Hfold (n - 1) 1 ltac:(lia) ltac:(lia)).
  replace (1 + (n - 1)) with n in Hfold by lia. exact Hfold.
Qed.

Lemma greedy_first_fit_one_cluster (n : nat) :
  1 <= n ->
  (forall i : nat, 1 <= i -> i < n -> near i 0 = true) ->
  greedy_first_fit near n = [seq 0 n].
Proof.
  intros Hn Hall. unfold greedy_first_fit.
  assert (Hfold : forall k s, 1 <= s -> s + k <= n ->
            fold_left (fun cl i => place near i cl) (seq s k) [seq 0 s]
            = [seq 0 (s + k)]).
  { induction k as [| k IH]; intros s Hs Hle; simpl.
    - rewrite Nat.add_0_r. reflexivity.
    - assert (Hit : existsb (near s) (seq 0 s) = true).
      { apply existsb_exists. exists 0. split; [apply in_seq; lia | apply Hall; lia]. }
      rewrite Hit. replace (s + S k) with (S s + k) by lia.
      rewrite <- IH by lia. rewrite seq_S. reflexivity. }
  specialize (Hfold (n - 1) 1 ltac:(lia) ltac:(lia)).
  replace (1 + (n - 1)) with n in Hfold by lia. exact Hfold.
Qed.

End ClusterShapeFacts.

Section EnsembleOrder.

Context {T : Type} {AT : Arith T} {IM : Imports T}.

(** X3: the clusters come in discovery order, on any arithmetic.  On a
    network of at least one oscillator that runs the Python implementation
    and holds one phase per oscillator, the first cluster starts with index
    [0], the indices inside every cluster ascend, and so do the first
    indices of the clusters. *)
Theorem allocate_sync_ensembles_discovery_order (net : sync_network) (tolerance : T) :
  _ccore_network_pointer net = None ->
  length (_phases net) = num_osc net ->
  1 <= num_osc net ->
  exists (rest : list nat) (others : list (list nat)),
    allocate_sync_ensembles net tolerance = Ok ((0 :: rest) :: others)
    /\ Forall (StronglySorted lt) ((0 :: rest) :: others)
    /\ StronglySorted lt (map (hd 0) ((0 :: rest) :: others)).
Proof.
  intros Hc Hlen Hn.
  rewrite allocate_sync_ensembles_first_fit by assumption.
  destruct (@greedy_first_fit_shape (two_sided (_phases net) tolerance) (num_osc net) Hn)
    as [Hw [Hh [rest [others E]]]].
  exists rest, others. rewrite E in *. split; [reflexivity |]. split; [| exact Hh].
  eapply Forall_impl; [| exact Hw]. intros c Hcw. apply Hcw.
Qed.

End EnsembleOrder.

Section EnsembleTolerance.

Context {IM : Imports R}.

(** X4: what keeps a cluster together and what keeps clusters apart, in
    exact arithmetic.  Every member of a cluster but its first is within
    [tolerance] of a member that joined the cluster before it; the first
    member of a cluster is within [tolerance] of no oscillator of smaller
    index, in whatever cluster. *)
Theorem allocate_sync_ensembles_links (net : sync_network) (tolerance : R) :
  _ccore_network_pointer net = None ->
  length (_phases net) = num_osc net ->
  1 <= num_osc net ->
  exists clusters : list (list nat),
    allocate_sync_ensembles net tolerance = Ok clusters
    /\ (forall (pre : list nat) (m : nat) (post : list nat),
          In (pre ++ m :: post) clusters -> pre <> [] ->
          exists m' : nat,
            In m' pre
            /\ (Rabs (nth m (_phases net) 0 - nth m' (_phases net) 0) < tolerance)%R)
    /\ (forall (h : nat) (rest : list nat) (j : nat),
          In (h :: rest) clusters -> j < h ->
          (tolerance <= Rabs (nth h (_phases net) 0 - nth j (_phases net) 0))%R).
Proof.
  intros Hc Hlen Hn.
  rewrite allocate_sync_ensembles_first_fit by assumption.
  destruct (@greedy_first_fit_shape (two_sided (_phases net) tolerance) (num_osc net) Hn)
    as [Hw _].
  eexists. split; [reflexivity |]. rewrite Forall_forall in Hw. split.
  - intros pre m post Hin Hne.
    destruct (Hw _ Hin) as [_ [_ [_ [Hchain _]]]].
    pose proof (@chained_member _ pre [] _ m post Hchain eq_refl Hne) as Hex.
    simpl in Hex. apply existsb_exists in Hex. destruct Hex as [m' [Hm' Hnear]].
    exists m'. split; [exact Hm' |].
    rewrite two_sided_within in Hnear. apply Rltb_true_iff in Hnear. exact Hnear.
  - intros h rest j Hin Hj.
    destruct (Hw _ Hin) as [_ [_ [_ [_ Hhead]]]].
    specialize (Hhead j Hj). simpl in Hhead.
    rewrite two_sided_within in Hhead. apply Rltb_false_iff in Hhead. exact Hhead.
Qed.

(** X5: in exact arithmetic, when no two oscillators are within [tolerance]
    of each other, every oscillator is a cluster of its own, in ascending
    order. *)
Theorem allocate_sync_ensembles_apart (net : sync_network) (tolerance : R) :
  _ccore_network_pointer net = None ->
  length (_phases net) = num_osc net ->
  1 <= num_osc net ->
  (forall i m : nat, m < i -> i < num_osc net ->
     (tolerance <= Rabs (nth i (_phases net) 0 - nth m (_phases net) 0))%R) ->
  allocate_sync_ensembles net tolerance
  = Ok (map (fun i => [i]) (seq 0 (num_osc net))).
Proof.
  intros Hc Hlen Hn Hsep.
  rewrite allocate_sync_ensembles_first_fit by assumption. f_equal.
  apply greedy_first_fit_singletons; [exact Hn |].
  intros i m Hm Hi. rewrite two_sided_within. apply Rltb_false_iff.
  apply Hsep; assumption.
Qed.

(** X6: with a [tolerance] of zero or less nothing is ever grouped, equal
    phases included: the test is strict, so every oscillator is a cluster of
    its own whatever the phases are. *)
Theorem allocate_sync_ensembles_zero_tolerance (net : sync_network) (tolerance : R) :
  _ccore_network_pointer net = None ->
  length (_phases net) = num_osc net ->
  1 <= num_osc net ->
  (tolerance <= 0)%R ->
  allocate_sync_ensembles net tolerance
  = Ok (map (fun i => [i]) (seq 0 (num_osc net))).
Proof.
  intros Hc Hlen Hn Htol.
  rewrite allocate_sync_ensembles_first_fit by assumption. f_equal.
  apply greedy_first_fit_singletons; [exact Hn |].
  intros i m Hm Hi. rewrite two_sided_within. apply Rltb_false_iff.
  pose proof (Rabs_pos (nth i (_phases net) 0 - nth m (_phases net) 0)%R). lra.
Qed.

(** X7: in exact arithmetic, when every oscillator is within [tolerance] of
    oscillator [0], there is one cluster and it lists all indices in
    ascending order. *)
Theorem allocate_sync_ensembles_together (net : sync_network) (tolerance : R) :
  _ccore_network_pointer net = None ->
  length (_phases net) = num_osc net ->
  1 <= num_osc net ->
  (forall i : nat, 1 <= i -> i < num_osc net ->
     (Rabs (nth i (_phases net) 0 - nth 0 (_phases net) 0) < tolerance)%R) ->
  allocate_sync_ensembles net tolerance = Ok [seq 0 (num_osc net)].
Proof.
  intros Hc Hlen Hn Hall.
  rewrite allocate_sync_ensembles_first_fit by assumption. f_equal.
  apply greedy_first_fit_one_cluster; [exact Hn |].
  intros i Hi1 Hi. rewrite two_sided_within. apply Rltb_true_iff.
  apply Hall; assumption.
Qed.

End EnsembleTolerance.


(** ** Local order and phase derivative with the real [exp] and [sin] *)

Lemma exp_neg_abs (d : R) : (0 < exp (- Rabs d) <= 1)%R.
Proof.
  split; [apply exp_pos |].
  pose proof (Rabs_pos d) as Hd. rewrite <- exp_0.
  destruct (Req_dec (Rabs d) 0) as [E | Hne].
  - rewrite E, Ropp_0. lra.
  - left. apply exp_increasing. lra.
Qed.

Lemma exp_neg_abs_one (d : R) : exp (- Rabs d) = 1%R <-> d = 0%R.
Proof.
  split.
  - intros H. destruct (Req_dec d 0) as [E | Hne]; [exact E |].
    exfalso. pose proof (Rabs_pos_lt d Hne) as Hd.
    assert (exp (- Rabs d) < exp 0)%R by (apply exp_increasing; lra).
    rewrite exp_0 in *. lra.
  - intros ->. rewrite Rabs_R0, Ropp_0. apply exp_0.
Qed.

Lemma Rdiv_le_one (a b : R) : (0 < b)%R -> (a <= b)%R -> (a / b <= 1)%R.
Proof.
  intros Hb Hab. apply (Rmult_le_reg_r b); [exact Hb |].
  unfold Rdiv. rewrite Rmult_assoc, Rinv_l by lra. lra.
Qed.

Lemma Rsum_unit_terms (l : list R) :
  Forall (fun x => 0 < x <= 1)%R l ->
  (0 <= Rsum l <= INR (length l))%R
  /\ (l <> [] -> 0 < Rsum l)%R
  /\ (Rsum l = INR (length l) -> Forall (fun x => x = 1%R) l).
Proof.
  induction 1 as [| x l Hx Hl IH].
  - simpl. split; [lra |]. split.
    + intros H. exfalso. apply H. reflexivity.
    + intros _. constructor.
  - destruct IH as [IH1 [IH2 IH3]].
    change (Rsum (x :: l)) with (x + Rsum l)%R.
    change (length (x :: l)) with (S (length l)). rewrite S_INR.
    split; [lra |]. split.
    + intros _. lra.
    + intros E. assert (x = 1%R) by lra. constructor; [assumption |].
      apply IH3. lra.
Qed.

Lemma Rsum_all_one {A : Type} (f : A -> R) (l : list A) :
  (forall a, In a l -> f a = 1%R) -> Rsum (map f l) = INR (length l).
Proof.
  induction l as [| a l IH]; intros H.
  - reflexivity.
  - change (Rsum (map f (a :: l))) with (f a + Rsum (map f l))%R.
    change (length (a :: l)) with (S (length l)). rewrite S_INR.
    rewrite H by (left; reflexivity).
    rewrite IH by (intros b Hb; apply H; right; exact Hb). lra.
Qed.

Section RealFunctions.

Context {IM : Imports R}.

Lemma sync_local_order_sum (net : sync_network) :
  _ccore_network_pointer net = None ->
  length (_phases net) = num_osc net ->
  sync_local_order net
  = Ok (Rsum (map (pair_term net) (connected_pairs net))
        / INR (Nat.max 1 (length (connected_pairs net))))%R.
Proof.
  intros Hc Hlen. unfold sync_local_order. rewrite Hc. unfold range.
  rewrite Nat.sub_0_r.
  rewrite (@local_order_outer _ net (seq 0 (num_osc net)) (seq 0 (num_osc net)))
    by (rewrite Hlen; apply seq_bound).
  cbn [bind]. fold (connected_pairs net).
  cbn [of_Z Arith_R]. rewrite Rplus_0_l. simpl (0 + _).
  set (k := length (connected_pairs net)).
  assert (E : (if Nat.eqb k 0 then 1 else k) = Nat.max 1 k).
  { destruct (Nat.eqb_spec k 0); lia. }
  rewrite E. apply truediv_count. lia.
Qed.

Lemma pair_terms_unit (net : sync_network) (pairs : list (nat * nat)) :
  (forall x : R, math_exp x = exp x) ->
  Forall (fun x => 0 < x <= 1)%R (map (pair_term net) pairs).
Proof.
  intros Hexp. apply Forall_forall. intros x Hx. apply in_map_iff in Hx.
  destruct Hx as [p [<- _]]. unfold pair_term. rewrite Hexp. apply exp_neg_abs.
Qed.

(** X8: with the real exponential, the local order of a network that runs
    the Python implementation and holds one phase per oscillator is a
    number between [0] and [1]; it is above [0] as soon as two oscillators
    are linked, and [0] when none are. *)
Theorem sync_local_order_unit_interval (net : sync_network) :
  _ccore_network_pointer net = None ->
  length (_phases net) = num_osc net ->
  (forall x : R, math_exp x = exp x) ->
  exists order : R,
    sync_local_order net = Ok order
    /\ (0 <= order <= 1)%R
    /\ (connected_pairs net <> [] -> 0 < order)%R
    /\ (connected_pairs net = [] -> order = 0)%R.
Proof.
  intros Hc Hlen Hexp. rewrite sync_local_order_sum by assumption.
  eexists. split; [reflexivity |].
  destruct (Rsum_unit_terms (pair_terms_unit net (connected_pairs net) Hexp))
    as [Hb [Hpos _]].
  rewrite length_map in Hb.
  set (k := length (connected_pairs net)) in *.
  set (total := Rsum (map (pair_term net) (connected_pairs net))) in *.
  assert (Hk : (1 <= INR (Nat.max 1 k))%R).
  { change 1%R with (INR 1). apply le_INR. lia. }
  assert (Hle : (INR k <= INR (Nat.max 1 k))%R) by (apply le_INR; lia).
  repeat split.
  - apply Rmult_le_pos; [lra |]. left. apply Rinv_0_lt_compat. lra.
  - apply Rdiv_le_one; lra.
  - intros Hne. apply Rdiv_lt_0_compat; [| lra].
    apply Hpos. intros E. apply map_eq_nil in E. contradiction.
  - intros E. unfold total. rewrite E. simpl. lra.
Qed.

(** X9: with the real exponential and at least one link, the local order is
    [1] exactly when every two linked oscillators have the same phase. *)
Theorem sync_local_order_one (net : sync_network) :
  _ccore_network_pointer net = None ->
  length (_phases net) = num_osc net ->
  (forall x : R, math_exp x = exp x) ->
  connected_pairs net <> [] ->
  exists order : R,
    sync_local_order net = Ok order
    /\ (order = 1%R
        <-> forall i j : nat,
              i < num_osc net -> j < num_osc net -> has_connection net i j = true ->
              nth j (_phases net) 0%R = nth i (_phases net) 0%R).
Proof.
  intros Hc Hlen Hexp Hne. rewrite sync_local_order_sum by assumption.
  eexists. split; [reflexivity |].
  destruct (Rsum_unit_terms (pair_terms_unit net (connected_pairs net) Hexp))
    as [Hb [_ Hall]].
  rewrite length_map in Hb, Hall.
  set (k := length (connected_pairs net)) in *.
  assert (Hk1 : 1 <= k).
  { unfold k. destruct (connected_pairs net); [contradiction | simpl; lia]. }
  replace (Nat.max 1 k) with k by lia.
  assert (Hk : (0 < INR k)%R) by (apply lt_0_INR; lia).
  assert (Hpairs : forall i j, In (i, j) (connected_pairs net) <->
                     i < num_osc net /\ j < num_osc net /\ has_connection net i j = true).
  { intros i j. unfold connected_pairs. rewrite filter_In, in_prod_iff, !in_seq.
    simpl. split; [intros [[H1 H2] H3] | intros [H1 [H2 H3]]]; repeat split;
      try assumption; lia. }
  split.
  - intros E i j Hi Hj Hij.
    assert (Hsum : Rsum (map (pair_term net) (connected_pairs net)) = INR k).
    { apply (Rmult_eq_reg_r (/ INR k)); [| apply Rinv_neq_0_compat; lra].
      rewrite Rinv_r by lra. exact E. }
    specialize (Hall Hsum). rewrite Forall_forall in Hall.
    assert (Hterm : pair_term net (i, j) = 1%R).
    { apply Hall. apply in_map. apply Hpairs. auto. }
    unfold pair_term in Hterm. rewrite Hexp in Hterm. simpl in Hterm.
    apply exp_neg_abs_one in Hterm. lra.
  - intros Hsame.
    assert (Hsum : Rsum (map (pair_term net) (connected_pairs net)) = INR k).
    { unfold k. clear Hb Hall Hk Hk1 Hne k.
      assert (Hin : forall p, In p (connected_pairs net) -> pair_term net p = 1%R).
      { intros [i j] Hp. apply Hpairs in Hp. destruct Hp as [Hi [Hj Hij]].
        unfold pair_term. rewrite Hexp. simpl. apply exp_neg_abs_one.
        rewrite (Hsame i j Hi Hj Hij). lra. }
      apply Rsum_all_one. exact Hin. }
    rewrite Hsum. apply Rinv_r. lra.
Qed.

(** *** Phase derivative *)

Lemma phase_kuramoto_value (net : sync_network) (teta t : R) (i : nat) :
  length (_phases net) = num_osc net ->
  length (_freq net) = num_osc net ->
  i < num_osc net ->
  phase_kuramoto net teta t i
  = Ok (nth i (_freq net) 0
        + Rsum (map (fun j => math_sin (nth j (_phases net) 0 - teta))
                  (neighbours net i))
          * _weight net / INR (num_osc net))%R.
Proof.
  intros Hp Hf Hi. unfold phase_kuramoto, range. rewrite Nat.sub_0_r.
  rewrite kuramoto_sum by (rewrite Hp; apply seq_bound).
  cbn [bind]. rewrite (getitem_nth _ 0%R) by lia. cbn [bind].
  rewrite truediv_count by lia. cbn [bind].
  fold (neighbours net i). f_equal.
  cbn [of_Z add mul Arith_R]. rewrite Rplus_0_l. reflexivity.
Qed.

Lemma Rsum_abs_bound (l : list R) :
  Forall (fun x => -1 <= x <= 1)%R l -> (Rabs (Rsum l) <= INR (length l))%R.
Proof.
  induction 1 as [| x l Hx Hl IH].
  - simpl. rewrite Rabs_R0. lra.
  - change (Rsum (x :: l)) with (x + Rsum l)%R.
    change (length (x :: l)) with (S (length l)). rewrite S_INR.
    pose proof (Rabs_triang x (Rsum l)).
    assert (Rabs x <= 1)%R by (apply Rabs_le; lra). lra.
Qed.

(** X10: with the real sine, the coupling cannot move an oscillator faster
    than the coupling strength: the derivative [phase_kuramoto] returns for
    oscillator [i] differs from its own frequency [freq[i]] by at most
    [|weight|], whatever the phases and the links. *)
Theorem phase_kuramoto_bounded (net : sync_network) (teta t : R) (i : nat) :
  length (_phases net) = num_osc net ->
  length (_freq net) = num_osc net ->
  i < num_osc net ->
  (forall x : R, math_sin x = sin x) ->
  exists d : R,
    phase_kuramoto net teta t i = Ok d
    /\ (Rabs (d - nth i (_freq net) 0) <= Rabs (_weight net))%R.
Proof.
  intros Hp Hf Hi Hsin. rewrite phase_kuramoto_value by assumption.
  eexists. split; [reflexivity |].
  set (terms := map (fun j => math_sin (nth j (_phases net) 0 - teta)%R) (neighbours net i)).
  assert (Hterms : Forall (fun x => -1 <= x <= 1)%R terms).
  { apply Forall_forall. intros x Hx. apply in_map_iff in Hx.
    destruct Hx as [j [<- _]]. rewrite Hsin. apply SIN_bound. }
  pose proof (Rsum_abs_bound Hterms) as Hb.
  assert (Hlen : length terms <= num_osc net).
  { unfold terms, neighbours. rewrite length_map.
    etransitivity; [apply filter_length_le |]. rewrite length_seq. lia. }
  apply le_INR in Hlen.
  assert (Hn : (0 < INR (num_osc net))%R) by (apply lt_0_INR; lia).
  set (n := INR (num_osc net)) in *. set (S := Rsum terms) in *.
  replace (nth i (_freq net) 0 + S * _weight net / n - nth i (_freq net) 0)%R
    with (_weight net * (S / n))%R by (field; lra).
  rewrite Rabs_mult.
  assert (Hq : (Rabs (S / n) <= 1)%R).
  { unfold Rdiv. rewrite Rabs_mult, (Rabs_right (/ n)).
    - apply (Rmult_le_reg_r n); [exact Hn |].
      rewrite Rmult_assoc, Rinv_l by lra. lra.
    - left. apply Rinv_0_lt_compat. exact Hn. }
  pose proof (Rabs_pos (_weight net)). nra.
Qed.

End RealFunctions.

(** ** One step of the integrator *)

Lemma setitem_nth_error {A : Type} (l l' : list A) (i : nat) (v : A) :
  setitem l i v = Ok l' ->
  length l' = length l
  /\ nth_error l' i = Some v
  /\ forall j : nat, j <> i -> nth_error l' j = nth_error l j.
Proof.
  unfold setitem. destruct (Nat.ltb_spec i (length l)) as [Hi | Hi]; [| discriminate].
  intros H.
  assert (E : l' = firstn i l ++ v :: skipn (S i) l) by congruence.
  subst l'. clear H.
  assert (Hf : length (firstn i l) = i) by (rewrite length_firstn; lia).
  split; [| split].
  - rewrite length_app.
    change (length (v :: skipn (S i) l)) with (S (length (skipn (S i) l))).
    rewrite Hf, length_skipn. lia.
  - rewrite nth_error_app2 by lia. rewrite Hf, Nat.sub_diag. reflexivity.
  - intros j Hj. destruct (Nat.lt_ge_cases j i) as [Hlt | Hge].
    + rewrite nth_error_app1 by lia. rewrite nth_error_firstn.
      destruct (Nat.ltb_spec j i); [reflexivity | lia].
    + rewrite nth_error_app2 by lia. rewrite Hf.
      destruct (j - i) as [| d] eqn:E; [lia |]. cbn [nth_error].
      rewrite nth_error_skipn. f_equal. lia.
Qed.

Lemma setitem_next {A : Type} (done : list A) (z v : A) (k : nat) :
  setitem (done ++ repeat z (S k)) (length done) v = Ok ((done ++ [v]) ++ repeat z k).
Proof.
  unfold setitem. rewrite length_app, repeat_length.
  destruct (Nat.ltb_spec (length done) (length done + S k)) as [_ | H]; [| lia].
  f_equal. rewrite firstn_app, Nat.sub_diag, firstn_all, firstn_O, app_nil_r.
  rewrite skipn_app, skipn_all2 by lia.
  replace (S (length done) - length done) with 1 by lia.
  rewrite <- app_assoc. reflexivity.
Qed.

Section StepGeneric.

Context {T : Type} {AT : Arith T} {IM : Imports T}.

Lemma fast_loop_values (fuel : nat) (net : sync_network) (next : nat -> T) (k : nat) :
  forall s : nat,
  s + k = num_osc net ->
  length (_phases net) = num_osc net ->
  (forall i : nat, i < num_osc net ->
     (d <- phase_kuramoto net (nth i (_phases net) (of_Z 0)) (of_Z 0) i ;;
      phase_normalization fuel (add (nth i (_phases net) (of_Z 0)) d))
     = Ok (next i)) ->
  for_each (seq s k) (fun index next_phases =>
      p <- getitem (_phases net) index ;;
      d <- phase_kuramoto net p (of_Z 0) index ;;
      v <- phase_normalization fuel (add p d) ;;
      setitem next_phases index v)
    (map next (seq 0 s) ++ repeat (of_Z 0) k)
  = Ok (map next (seq 0 (num_osc net))).
Proof.
  induction k as [| k IH]; intros s Hs Hlen Hnext.
  - simpl. rewrite app_nil_r. f_equal. f_equal. f_equal. lia.
  - cbn [seq for_each].
    rewrite (getitem_nth _ (of_Z 0)) by lia. cbn [bind].
    specialize (Hnext s ltac:(lia)) as Hs'.
    destruct (phase_kuramoto net (nth s (_phases net) (of_Z 0)) (of_Z 0) s)
      as [d | e |]; try discriminate.
    cbn [bind] in Hs' |- *. rewrite Hs'. cbn [bind].
    assert (Elen : length (map next (seq 0 s)) = s)
      by (rewrite length_map, length_seq; reflexivity).
    rewrite <- Elen at 2. rewrite setitem_next. cbn [bind].
    replace (map next (seq 0 s) ++ [next s]) with (map next (seq 0 (S s)))
      by (rewrite seq_S, map_app; reflexivity).
    apply IH; [lia | exact Hlen | exact Hnext].
Qed.

(** X11: the [FAST] step is synchronous, on any arithmetic.  Provided the
    network holds one phase per oscillator, every new phase is computed from
    the old phase vector alone,
    [next[i] = phase_normalization(phases[i] + phase_kuramoto(phases[i], 0, i))],
    and the arguments [t], [step] and [int_step] have no part in it. *)
Theorem calculate_phases_fast_synchronous (fuel : nat) (net : sync_network)
    (t step int_step : T) (next : nat -> T) :
  length (_phases net) = num_osc net ->
  (forall i : nat, i < num_osc net ->
     (d <- phase_kuramoto net (nth i (_phases net) (of_Z 0)) (of_Z 0) i ;;
      phase_normalization fuel (add (nth i (_phases net) (of_Z 0)) d))
     = Ok (next i)) ->
  _calculate_phases fuel net FAST t step int_step
  = Ok (map next (seq 0 (num_osc net))).
Proof.
  intros Hlen Hnext. unfold _calculate_phases, range.
  rewrite (proj2 (pyobj_eqb_eq FAST FAST) eq_refl). rewrite Nat.sub_0_r.
  apply (@fast_loop_values fuel net next (num_osc net) 0); [lia | assumption | assumption].
Qed.

Lemma step_loop_normalised (fuel : nat) (net : sync_network) (solution : pyobj)
    (t step int_step : T) (k : nat) :
  forall (s : nat) (acc result : list T),
  for_each (seq s k) (fun index next_phases =>
      if pyobj_eqb solution FAST then
        p <- getitem (_phases net) index ;;
        d <- phase_kuramoto net p (of_Z 0) index ;;
        v <- phase_normalization fuel (add p d) ;;
        setitem next_phases index v
      else if pyobj_eqb solution RK4 then
        p <- getitem (_phases net) index ;;
        ts <- numpy_arange (sub t step) t int_step ;;
        result <- odeint (fun y s => phase_kuramoto net y s index) p ts ;;
        y <- getitem result (length result - 1) ;;
        v <- phase_normalization fuel y ;;
        setitem next_phases index v
      else unsupported_solver solution) acc
  = Ok result ->
  (forall (j : nat) (x : T), j < s -> nth_error acc j = Some x -> normalised x) ->
  length result = length acc
  /\ forall (j : nat) (x : T), j < s + k -> nth_error result j = Some x -> normalised x.
Proof.
  induction k as [| k IH]; intros s acc result Hrun Hacc.
  - simpl in Hrun. injection Hrun as <-. rewrite Nat.add_0_r. split; [reflexivity | exact Hacc].
  - cbn [seq for_each] in Hrun.
    assert (Hbody : forall (y : outcome T) (rest : list T -> outcome (list T)),
              (acc' <- (v <- y ;; setitem acc s v) ;; rest acc') = Ok result ->
              (forall v, y = Ok v -> normalised v) ->
              exists acc', rest acc' = Ok result
                /\ length acc' = length acc
                /\ forall j x, j < S s -> nth_error acc' j = Some x -> normalised x).
    { intros y rest Hy Hnorm. destruct y as [v | e |]; try discriminate.
      cbn [bind] in Hy.
      destruct (setitem acc s v) as [acc' | e |] eqn:Eset; try discriminate.
      cbn [bind] in Hy. exists acc'. split; [exact Hy |].
      destruct (setitem_nth_error _ _ _ Eset) as [Hl [Hs Hother]].
      split; [exact Hl |]. intros j x Hj Hx.
      destruct (Nat.eq_dec j s) as [-> | Hne].
      - rewrite Hs in Hx. injection Hx as <-. apply Hnorm. reflexivity.
      - rewrite Hother in Hx by exact Hne. apply (Hacc j x); [lia | exact Hx]. }
    assert (Hnormal : forall y v, phase_normalization fuel y = Ok v -> normalised v).
    { intros y v Hv. unfold phase_normalization in Hv.
      apply phase_normalization_loop_exit in Hv. exact Hv. }
    assert (Hstep : exists acc', 
               for_each (seq (S s) k) (fun index next_phases =>
                 if pyobj_eqb solution FAST then
                   p <- getitem (_phases net) index ;;
                   d <- phase_kuramoto net p (of_Z 0) index ;;
                   v <- phase_normalization fuel (add p d) ;;
                   setitem next_phases index v
                 else if pyobj_eqb solution RK4 then
                   p <- getitem (_phases net) index ;;
                   ts <- numpy_arange (sub t step) t int_step ;;
                   result <- odeint (fun y s => phase_kuramoto net y s index) p ts ;;
                   y <- getitem result (length result - 1) ;;
                   v <- phase_normalization fuel y ;;
                   setitem next_phases index v
                 else unsupported_solver solution) acc' = Ok result
               /\ length acc' = length acc
               /\ forall j x, j < S s -> nth_error acc' j = Some x -> normalised x).
    { destruct (pyobj_eqb solution FAST).
      - destruct (getitem (_phases net) s) as [p | e |]; try discriminate.
        cbn [bind] in Hrun.
        destruct (phase_kuramoto net p (of_Z 0) s) as [d | e |]; try discriminate.
        cbn [bind] in Hrun.
        apply (Hbody (phase_normalization fuel (add p d))); [exact Hrun |].
        intros v. apply Hnormal.
      - destruct (pyobj_eqb solution RK4).
        + destruct (getitem (_phases net) s) as [p | e |]; try discriminate.
          cbn [bind] in Hrun.
          destruct (numpy_arange (sub t step) t int_step) as [ts | e |]; try discriminate.
          cbn [bind] in Hrun.
          destruct (odeint (fun y s0 => phase_kuramoto net y s0 s) p ts)
            as [res | e |]; try discriminate.
          cbn [bind] in Hrun.
          destruct (getitem res (length res - 1)) as [y | e |]; try discriminate.
          cbn [bind] in Hrun.
          apply (Hbody (phase_normalization fuel y)); [exact Hrun |].
          intros v. apply Hnormal.
        + discriminate. }
    destruct Hstep as [acc' [Hrest [Hl Hn]]].
    apply IH in Hrest; [| exact Hn].
    destruct Hrest as [Hl' Hn']. split; [congruence |].
    intros j x Hj. apply Hn'. lia.
Qed.

(** X12: whatever the solver and the arithmetic, the phase vector
    [_calculate_phases] returns has one entry per oscillator and every entry
    has passed [phase_normalization]: none is above [2.0 * pi] and none is
    below [0]. *)
Theorem calculate_phases_normalised (fuel : nat) (net : sync_network)
    (solution : pyobj) (t step int_step : T) (next_phases : list T) :
  _calculate_phases fuel net solution t step int_step = Ok next_phases ->
  length next_phases = num_osc net
  /\ Forall normalised next_phases.
Proof.
  intros Hrun. unfold _calculate_phases, range in Hrun. rewrite Nat.sub_0_r in Hrun.
  apply step_loop_normalised in Hrun.
  - destruct Hrun as [Hl Hn]. rewrite repeat_length in Hl. split; [exact Hl |].
    apply Forall_forall. intros x Hx. apply In_nth_error in Hx.
    destruct Hx as [j Hj]. apply (Hn j x); [| exact Hj].
    assert (j < length next_phases) by (apply nth_error_Some; congruence). lia.
  - intros j x Hj. lia.
Qed.

End StepGeneric.

(** ** What the simulations change, and their edge cases *)

Lemma map_nth_all {A : Type} (d : A) (l : list A) :
  map (fun i => nth i l d) (seq 0 (length l)) = l.
Proof.
  induction l as [| a l IH]; [reflexivity |].
  cbn [length seq map nth]. f_equal.
  rewrite <- seq_shift, map_map. exact IH.
Qed.

Lemma Rsum_all_zero {A : Type} (f : A -> R) (l : list A) :
  (forall a, In a l -> f a = 0%R) -> Rsum (map f l) = 0%R.
Proof.
  induction l as [| a l IH]; intros H; [reflexivity |].
  change (Rsum (map f (a :: l))) with (f a + Rsum (map f l))%R.
  rewrite H by (left; reflexivity).
  rewrite IH by (intros b Hb; apply H; right; exact Hb). lra.
Qed.

Section FixedPoint.

Context {IM : Imports R}.

(** X13: a synchronised network at rest stays where it is.  In exact
    arithmetic, with the real sine, when all own frequencies are [0], all
    phases lie between [0] and [2 * PI] and every two linked oscillators
    have the same phase, the [FAST] step returns the phase vector it
    started from, with any fuel. *)
Theorem calculate_phases_fast_fixed_point (fuel : nat) (net : sync_network)
    (t step int_step : R) :
  length (_phases net) = num_osc net ->
  length (_freq net) = num_osc net ->
  (forall x : R, math_sin x = sin x) ->
  (forall i : nat, i < num_osc net -> nth i (_freq net) 0%R = 0%R) ->
  (forall i : nat, i < num_osc net -> (0 <= nth i (_phases net) 0 <= 2 * PI)%R) ->
  (forall i j : nat, i < num_osc net -> j < num_osc net ->
     has_connection net i j = true ->
     nth j (_phases net) 0%R = nth i (_phases net) 0%R) ->
  _calculate_phases fuel net FAST t step int_step = Ok (_phases net).
Proof.
  intros Hp Hf Hsin Hfreq Hrange Hsame.
  unfold _calculate_phases, range.
  rewrite (proj2 (pyobj_eqb_eq FAST FAST) eq_refl). rewrite Nat.sub_0_r.
  transitivity (Ok (map (fun i => nth i (_phases net) 0%R) (seq 0 (num_osc net))));
    [| f_equal; rewrite <- Hp; apply map_nth_all].
  apply (@fast_loop_values R _ IM fuel net (fun i => nth i (_phases net) 0%R)
           (num_osc net) 0); try assumption; try lia.
  - intros i Hi. cbn [of_Z Arith_R].
    rewrite phase_kuramoto_value by assumption. cbn [bind].
    rewrite Rsum_all_zero.
    + rewrite (Hfreq i Hi). cbn [add Arith_R].
      replace (nth i (_phases net) 0 + (0 + 0 * _weight net / INR (num_osc net)))%R
        with (nth i (_phases net) 0%R).
      * apply loop_R_in_range. apply Hrange. exact Hi.
      * assert (INR (num_osc net) <> 0%R) by (apply not_0_INR; lia). field. assumption.
    + intros j Hj. unfold neighbours in Hj. apply filter_In in Hj.
      destruct Hj as [Hj Hij]. apply in_seq in Hj.
      rewrite Hsin, (Hsame i j) by (try assumption; lia).
      rewrite Rminus_diag. apply sin_0.
Qed.

End FixedPoint.

Section Frames.

Context {T : Type} {AT : Arith T} {IM : Imports T}.

Lemma only_phases_refl (w : @world T) : only_phases w w.
Proof.
  exists (_phases (self w)). destruct w as [net out]. destruct net. reflexivity.
Qed.

Lemma only_phases_trans (w1 w2 w3 : @world T) :
  only_phases w1 w2 -> only_phases w2 w3 -> only_phases w1 w3.
Proof.
  intros [p ->] [q ->]. exists q. reflexivity.
Qed.

Lemma keeps_frame_bind {A B : Type} (m : prog (@world T) A) (k : A -> prog (@world T) B) :
  keeps_frame m -> (forall a, keeps_frame (k a)) -> keeps_frame (pbind m k).
Proof.
  intros Hm Hk w. unfold pbind. specialize (Hm w).
  destruct (m w) as [[a | e |] w1]; simpl in *; try exact Hm.
  eapply only_phases_trans; [exact Hm | apply Hk].
Qed.

Lemma keeps_frame_lift {A : Type} (m : outcome A) : @keeps_frame T A (lift m).
Proof. intros w. apply only_phases_refl. Qed.

Lemma keeps_frame_pret {A : Type} (a : A) : @keeps_frame T A (pret a).
Proof. intros w. apply only_phases_refl. Qed.

Lemma keeps_frame_update (fuel : nat) (solution : pyobj) (t step int_step : T) :
  keeps_frame (update_phases fuel solution t step int_step).
Proof.
  unfold update_phases. apply keeps_frame_bind.
  - intros w. apply only_phases_refl.
  - intros net. apply keeps_frame_bind; [apply keeps_frame_lift |].
    intros p w. exists p. reflexivity.
Qed.

Lemma keeps_frame_record (collect_dynamic : bool) (t : T) (acc : dynamic T) :
  keeps_frame (record_step collect_dynamic t acc).
Proof.
  unfold record_step. apply keeps_frame_bind.
  - intros w. apply only_phases_refl.
  - intros net. destruct acc as [dyn_time dyn_phase]. destruct collect_dynamic.
    + apply keeps_frame_bind; [apply keeps_frame_lift |]. intros a.
      apply keeps_frame_bind; [apply keeps_frame_lift |]. intros b.
      apply keeps_frame_pret.
    + apply keeps_frame_pret.
Qed.

Lemma keeps_frame_for_each {A S : Type} (xs : list A) (body : A -> S -> prog (@world T) S) :
  (forall x acc, keeps_frame (body x acc)) ->
  forall acc, keeps_frame (pfor_each xs body acc).
Proof.
  intros Hbody. induction xs as [| x xs IH]; intros acc; cbn [pfor_each].
  - apply keeps_frame_pret.
  - apply keeps_frame_bind; [apply Hbody | exact IH].
Qed.

Lemma keeps_frame_collect_init (collect_dynamic : bool) (net : sync_network)
    (none : dynamic T) :
  @keeps_frame T (dynamic T)
              (if collect_dynamic then
                 dyn_phase <~ lift (append (DynList []) (_phases net)) ;;
                 dyn_time <~ lift (append (DynList []) (of_Z 0)) ;;
                 pret (dyn_time, dyn_phase)
               else pret none).
Proof.
  destruct collect_dynamic; [| apply keeps_frame_pret].
  apply keeps_frame_bind; [apply keeps_frame_lift |]. intros a.
  apply keeps_frame_bind; [apply keeps_frame_lift |]. intros b.
  apply keeps_frame_pret.
Qed.

(** X14: whatever its arguments and however it ends, by returning, by an
    exception at some step or by running out of fuel, [simulate_static] on a
    network that runs the Python implementation changes nothing but
    [self._phases]: links, frequencies and weight are as before, and nothing
    is printed. *)
Theorem simulate_static_only_phases (fuel : nat) (steps : Z) (time : T)
    (solution : pyobj) (collect_dynamic : bool) (w : @world T) :
  _ccore_network_pointer (self w) = None ->
  only_phases w (snd (simulate_static fuel steps time solution collect_dynamic w)).
Proof.
  intros Hc. revert w Hc.
  assert (H : forall net, _ccore_network_pointer net = None ->
            @keeps_frame T (dynamic T)
              (match _ccore_network_pointer net with
               | Some p =>
                   lift (wrapper_simulate_sync_network p steps time solution collect_dynamic)
               | None =>
                   acc <~ (if collect_dynamic then
                             dyn_phase <~ lift (append (DynList []) (_phases net)) ;;
                             dyn_time <~ lift (append (DynList []) (of_Z 0)) ;;
                             pret (dyn_time, dyn_phase)
                           else pret (DynNone, DynNone)) ;;
                   step <~ lift (truediv time (of_Z steps)) ;;
                   int_step <~ lift (truediv step (of_Z 10)) ;;
                   ts <~ lift (numpy_arange step (add time step) step) ;;
                   pfor_each ts (fun t acc =>
                     _ <~ update_phases fuel solution t step int_step ;;
                     record_step collect_dynamic t acc) acc
               end)).
  { intros net Hc. rewrite Hc.
    apply keeps_frame_bind; [apply keeps_frame_collect_init |]. intros acc.
    apply keeps_frame_bind; [apply keeps_frame_lift |]. intros step.
    apply keeps_frame_bind; [apply keeps_frame_lift |]. intros int_step.
    apply keeps_frame_bind; [apply keeps_frame_lift |]. intros ts.
    apply keeps_frame_for_each. intros t acc'.
    apply keeps_frame_bind; [apply keeps_frame_update |]. intros _.
    apply keeps_frame_record. }
  intros w Hc. unfold simulate_static, pbind at 1, get_self.
  apply (H (self w) Hc w).
Qed.

Lemma dynamic_loop_frame (order : T) (solution : pyobj) (collect_dynamic : bool)
    (step int_step threshold_changes : T) (fuel : nat) :
  forall (time_counter previous_order current_order : T) (acc : dynamic T) (w : @world T),
  phases_and_warning w
    (snd (dynamic_loop fuel order solution collect_dynamic step int_step
            threshold_changes time_counter previous_order current_order acc w)).
Proof.
  assert (Hrefl : forall w : @world T, phases_and_warning w w).
  { intros w. exists (_phases (self w)). split; [| left; reflexivity].
    destruct w as [net out]. destruct net. reflexivity. }
  assert (Hweak : forall w w' : @world T, only_phases w w' -> phases_and_warning w w').
  { intros w w' [p ->]. exists p. split; [reflexivity | left; reflexivity]. }
  assert (Hcomp : forall w1 w2 w3 : @world T,
            only_phases w1 w2 -> phases_and_warning w2 w3 -> phases_and_warning w1 w3).
  { intros w1 w2 w3 [p ->] [q [Hq Hout]]. exists q. split; [exact Hq | exact Hout]. }
  induction fuel as [| fuel IH]; intros time_counter previous_order current_order acc w;
    cbn [dynamic_loop].
  - destruct (ltb current_order order); [apply Hrefl | apply Hrefl].
  - destruct (ltb current_order order); [| apply Hrefl].
    unfold pbind at 1.
    pose proof (keeps_frame_update fuel solution time_counter step int_step w) as H1.
    destruct (update_phases fuel solution time_counter step int_step w)
      as [[[] | e |] w1]; simpl in H1; try (apply Hweak; exact H1).
    unfold pbind at 1.
    pose proof (keeps_frame_record collect_dynamic (add time_counter step) acc w1) as H2.
    destruct (record_step collect_dynamic (add time_counter step) acc w1)
      as [[acc1 | e |] w2]; simpl in H2;
      try (apply Hweak; eapply only_phases_trans; eassumption).
    assert (H12 : only_phases w w2) by (eapply only_phases_trans; eassumption).
    unfold pbind at 1, get_self. unfold pbind at 1, lift at 1.
    destruct (sync_local_order (self w2)) as [current1 | e |];
      try (apply Hweak; exact H12).
    destruct (ltb (absv (sub current1 current_order)) threshold_changes).
    + unfold pbind, print, pret. simpl.
      destruct H12 as [p ->]. exists p. split; [reflexivity |].
      right. exists current1. reflexivity.
    + eapply Hcomp; [exact H12 | apply IH].
Qed.

(** X15: however it ends, [simulate_dynamic] on a network that runs the
    Python implementation changes nothing of the network but
    [self._phases], and prints nothing or one line, the stall warning. *)
Theorem simulate_dynamic_phases_and_warning (fuel : nat) (order : T)
    (solution : pyobj) (collect_dynamic : bool) (step int_step threshold_changes : T)
    (w : @world T) :
  _ccore_network_pointer (self w) = None ->
  phases_and_warning w
    (snd (simulate_dynamic fuel order solution collect_dynamic step int_step
            threshold_changes w)).
Proof.
  intros Hc.
  assert (Hrefl : phases_and_warning w w).
  { exists (_phases (self w)). split; [| left; reflexivity].
    destruct w as [net out]. destruct net. reflexivity. }
  unfold simulate_dynamic, pbind at 1, get_self. rewrite Hc.
  unfold pbind at 1, lift at 1.
  destruct (sync_local_order (self w)) as [current | e |]; try exact Hrefl.
  unfold pbind at 1.
  destruct collect_dynamic; cbn [append lift pret pbind]; apply dynamic_loop_frame.
Qed.

End Frames.

(** ** Exact arithmetic: ends and edges of the simulations *)

Lemma truediv_R (x y : R) : y <> 0%R -> truediv x y = Ok (x / y)%R.
Proof.
  intros Hy. unfold truediv. cbn [of_Z eqb quot Arith_R]. unfold Reqb.
  destruct (Req_dec_T y 0); [contradiction | reflexivity].
Qed.

Lemma truediv_R_zero (x : R) : truediv x (of_Z 0) = Raise ZeroDivisionError.
Proof.
  unfold truediv. cbn [of_Z eqb quot Arith_R]. unfold Reqb.
  destruct (Req_dec_T 0 0) as [_ | H]; [reflexivity | contradiction].
Qed.

Lemma truediv_R_ten (x : R) : truediv x (of_Z 10) = Ok (x / 10)%R.
Proof. apply truediv_R. cbn [of_Z Arith_R]. lra. Qed.

Lemma last_grid (f : nat -> R) (n : nat) :
  last (map f (seq 0 (S n))) 0%R = f n.
Proof.
  rewrite seq_S, map_app. simpl. apply last_last.
Qed.

Section ExactEdges.

Context {IM : Imports R}.

Lemma static_grid (steps : Z) (time : R) :
  steps <> 0%Z -> time <> 0%R ->
  numpy_arange (time / IZR steps)%R (add time (time / IZR steps)%R) (time / IZR steps)%R
  = Ok (map (fun k => (time / IZR steps + IZR (Z.of_nat k) * (time / IZR steps))%R)
          (seq 0 (Z.to_nat steps))).
Proof.
  intros Hs Ht.
  assert (Hz : IZR steps <> 0%R) by (apply not_0_IZR; exact Hs).
  assert (Hstep : (time / IZR steps)%R <> 0%R).
  { unfold Rdiv. apply Rmult_integral_contrapositive_currified;
      [exact Ht | apply Rinv_neq_0_compat; exact Hz]. }
  unfold numpy_arange. cbn [add sub Arith_R].
  rewrite truediv_R by exact Hstep. cbn [bind ceil mul add of_Z Arith_R].
  replace ((time + time / IZR steps - time / IZR steps) / (time / IZR steps))%R
    with (IZR steps) by (field; split; assumption).
  rewrite Rceil_IZR. cbv zeta. rewrite arange_values_exact. reflexivity.
Qed.

Lemma calculate_phases_unsupported (fuel : nat) (net : @sync_network R)
    (solution : pyobj) (t step int_step : R) :
  solution <> FAST -> solution <> RK4 -> 1 <= num_osc net ->
  _calculate_phases fuel net solution t step int_step
  = Raise (unsupported_solver_error solution).
Proof.
  intros HF HR Hn. unfold _calculate_phases, range.
  destruct (num_osc net) as [| n]; [lia |].
  cbn [Nat.sub seq for_each].
  rewrite (pyobj_eqb_neq HF), (pyobj_eqb_neq HR). reflexivity.
Qed.

Lemma calculate_phases_in_range (fuel : nat) (net : @sync_network R)
    (solution : pyobj) (t step int_step : R) (next : list R) :
  _calculate_phases fuel net solution t step int_step = Ok next ->
  length next = num_osc net /\ Forall (fun x => 0 <= x <= 2 * PI)%R next.
Proof.
  intros Hrun. unfold _calculate_phases, range in Hrun. rewrite Nat.sub_0_r in Hrun.
  apply step_loop_normalised in Hrun.
  - destruct Hrun as [Hl Hn]. rewrite repeat_length in Hl. split; [exact Hl |].
    apply Forall_forall. intros x Hx. apply In_nth_error in Hx.
    destruct Hx as [j Hj].
    assert (Hlt : j < length next) by (apply nth_error_Some; congruence).
    destruct (Hn j x ltac:(lia) Hj) as [H1 H2].
    apply Rltb_false_iff in H1. apply Rltb_false_iff in H2.
    change (@two_pi R _) with (2 * PI)%R in H1. cbn [of_Z Arith_R] in H2. lra.
  - intros j x Hj. lia.
Qed.

Lemma static_loop_last (step int_step : R) (ts : list R) :
  forall (t0 : R) (acc : dynamic R) (w : world),
  length (_phases (self w)) = num_osc (self w) ->
  length (_freq (self w)) = num_osc (self w) ->
  exists (fuel : nat) (w' : world),
    only_phases w w'
    /\ length (_phases (self w')) = num_osc (self w')
    /\ Forall (fun x => 0 <= x <= 2 * PI)%R (_phases (self w'))
    /\ forall fuel' : nat, fuel <= fuel' ->
       pfor_each (t0 :: ts) (fun t acc =>
           _ <~ update_phases fuel' FAST t step int_step ;;
           record_step false t acc) acc w
       = (Ok (DynLast (last (t0 :: ts) 0%R), DynLast (_phases (self w'))), w').
Proof.
  induction ts as [| t1 ts IH]; intros t0 acc w Hp Hf.
  - destruct (calculate_phases_fast (self w) Hp Hf) as [fuel1 [next [Hlen Hstep]]].
    set (w1 := {| self := with_phases (self w) next; stdout := stdout w |}).
    exists fuel1, w1. split; [exists next; reflexivity |].
    split; [exact Hlen |]. split.
    + apply (calculate_phases_in_range fuel1 (self w) FAST 0%R step int_step).
      apply Hstep. lia.
    + intros fuel' Hle. cbn [pfor_each].
      rewrite pbind_ok with (a := (DynLast t0, DynLast next)) (w' := w1); [reflexivity |].
      rewrite pbind_ok with (a := tt) (w' := w1).
      * destruct acc. reflexivity.
      * apply update_phases_run. apply Hstep. exact Hle.
  - destruct (calculate_phases_fast (self w) Hp Hf) as [fuel1 [next [Hlen Hstep]]].
    set (w1 := {| self := with_phases (self w) next; stdout := stdout w |}).
    destruct (IH t1 (DynLast t0, DynLast next) w1 Hlen Hf)
      as [fuel2 [w' [Hframe [Hlen' [Hrange Hrest]]]]].
    exists (Nat.max fuel1 fuel2), w'.
    split; [| split; [exact Hlen' | split; [exact Hrange |]]].
    + destruct Hframe as [q ->]. exists q. reflexivity.
    + intros fuel' Hle.
      change (pfor_each (t0 :: t1 :: ts) ?body acc w)
        with (pbind (body t0 acc) (fun acc' => pfor_each (t1 :: ts) body acc') w).
      rewrite pbind_ok with (a := (DynLast t0, DynLast next)) (w' := w1).
      * rewrite Hrest by lia. reflexivity.
      * rewrite pbind_ok with (a := tt) (w' := w1).
        -- destruct acc. reflexivity.
        -- apply update_phases_run. apply Hstep. lia.
Qed.

(** X16: without collection, in exact arithmetic and with the [FAST]
    solver, [simulate_static] on a network that holds one phase and one
    frequency per oscillator returns, for positive [steps] and [time], the
    pair of the last time stamp, which is [time] itself, and the phase vector
    the network is left with; that vector has one entry per oscillator, all
    between [0] and [2 * PI], and nothing else of the network has changed. *)
Theorem simulate_static_last (steps : Z) (time : R) (w : world) :
  _ccore_network_pointer (self w) = None ->
  length (_phases (self w)) = num_osc (self w) ->
  length (_freq (self w)) = num_osc (self w) ->
  (0 < steps)%Z -> (0 < time)%R ->
  exists (fuel : nat) (last_time : R) (w' : world),
    (forall fuel' : nat, fuel <= fuel' ->
       simulate_static fuel' steps time FAST false w
       = (Ok (DynLast last_time, DynLast (_phases (self w'))), w'))
    /\ last_time = time
    /\ only_phases w w'
    /\ length (_phases (self w')) = num_osc (self w)
    /\ Forall (fun x => 0 <= x <= 2 * PI)%R (_phases (self w')).
Proof.
  intros Hc Hp Hf Hs Ht.
  assert (Hz : IZR steps <> 0%R) by (apply not_0_IZR; lia).
  set (step := (time / IZR steps)%R).
  set (grid := fun k : nat => (step + IZR (Z.of_nat k) * step)%R).
  destruct (Z.to_nat steps) as [| n] eqn:En; [lia |].
  destruct (@static_loop_last step (step / 10)%R (map grid (seq 1 n)) (grid 0)
              (DynNone, DynNone) w Hp Hf)
    as [fuel [w' [Hframe [Hlen [Hrange Hrun]]]]].
  exists fuel, (last (grid 0 :: map grid (seq 1 n)) 0%R), w'.
  split; [| split; [| split; [exact Hframe | split; [| exact Hrange]]]].
  - intros fuel' Hle.
    unfold simulate_static, pbind at 1, get_self. rewrite Hc.
    change (@of_Z R _ steps) with (IZR steps).
    unfold pbind at 1. cbn [pret].
    unfold pbind at 1, lift at 1. rewrite truediv_R by exact Hz.
    unfold pbind at 1, lift at 1. rewrite truediv_R_ten.
    unfold pbind at 1, lift at 1.
    rewrite (static_grid (steps := steps) (time := time)) by (try lia; lra).
    fold step. rewrite En. fold grid.
    change (map grid (seq 0 (S n))) with (grid 0 :: map grid (seq 1 n)).
    apply Hrun. exact Hle.
  - change (grid 0 :: map grid (seq 1 n)) with (map grid (seq 0 (S n))).
    rewrite last_grid. unfold grid, step.
    assert (E : IZR (Z.of_nat n) = (IZR steps - 1)%R).
    { rewrite <- minus_IZR. f_equal. lia. }
    rewrite E. field. exact Hz.
  - destruct Hframe as [q ->]. cbn [self with_phases num_osc _phases] in *. exact Hlen.
Qed.

(** X17: [steps = 0] is a [ZeroDivisionError]: [simulate_static] raises it
    from [time / steps], whatever the other arguments, and the network is
    left as it was; with collection, the lists already begun are lost with
    it. *)
Theorem simulate_static_no_steps (fuel : nat) (time : R) (solution : pyobj)
    (collect_dynamic : bool) (w : world) :
  _ccore_network_pointer (self w) = None ->
  simulate_static fuel 0 time solution collect_dynamic w
  = (Raise ZeroDivisionError, w).
Proof.
  intros Hc. unfold simulate_static, pbind at 1, get_self. rewrite Hc.
  unfold pbind at 1.
  destruct collect_dynamic; cbn [append lift pret pbind];
    rewrite truediv_R_zero; reflexivity.
Qed.

(** X18: a negative number of steps is not refused.  In exact arithmetic,
    for [steps < 0] and a [time] that is not [0], the time grid is empty:
    [simulate_static] runs no step, looks at the solver tag not at all,
    leaves the network as it was and returns [(None, None)], or with
    collection the lists holding the initial state only. *)
Theorem simulate_static_negative_steps (fuel : nat) (steps : Z) (time : R)
    (solution : pyobj) (collect_dynamic : bool) (w : world) :
  _ccore_network_pointer (self w) = None ->
  (steps < 0)%Z -> time <> 0%R ->
  simulate_static fuel steps time solution collect_dynamic w
  = (Ok (if collect_dynamic
         then (DynList [0%R], DynList [_phases (self w)])
         else (DynNone, DynNone)), w).
Proof.
  intros Hc Hs Ht.
  assert (Hz : IZR steps <> 0%R) by (apply not_0_IZR; lia).
  unfold simulate_static, pbind at 1, get_self. rewrite Hc.
  change (@of_Z R _ steps) with (IZR steps).
  unfold pbind at 1.
  assert (Hto : Z.to_nat steps = 0) by lia.
  destruct collect_dynamic; cbn [append lift pret pbind app];
    rewrite truediv_R by exact Hz;
    rewrite truediv_R_ten;
    rewrite (static_grid (steps := steps) (time := time)) by (try lia; assumption);
    rewrite Hto; reflexivity.
Qed.

(** X19: a solver tag that is neither [solve_type.FAST] nor [solve_type.RK4]
    stops [simulate_dynamic] at its first step, when the network has at
    least one oscillator and its local order is below the target: the
    exception of [_calculate_phases] comes out, the network is as before,
    nothing is printed, and no trajectory is returned. *)
Theorem simulate_dynamic_unsupported_solver (fuel : nat) (order : R)
    (solution : pyobj) (collect_dynamic : bool) (step int_step threshold_changes : R)
    (w : world) (current : R) :
  _ccore_network_pointer (self w) = None ->
  sync_local_order (self w) = Ok current ->
  (current < order)%R ->
  solution <> FAST -> solution <> RK4 -> 1 <= num_osc (self w) ->
  simulate_dynamic (S fuel) order solution collect_dynamic step int_step
    threshold_changes w
  = (Raise (unsupported_solver_error solution), w).
Proof.
  intros Hc Hcur Hlt HF HR Hn.
  unfold simulate_dynamic, pbind at 1, get_self. rewrite Hc.
  unfold pbind at 1, lift at 1. rewrite Hcur. unfold pbind at 1.
  assert (Hb : ltb current order = true) by (apply Rltb_true_iff; exact Hlt).
  destruct collect_dynamic; cbn [append lift pret pbind dynamic_loop];
    rewrite Hb; unfold pbind at 1, update_phases, pbind, get_self, lift;
    rewrite calculate_phases_unsupported by assumption; reflexivity.
Qed.

(** X20: the same tag stops [simulate_static] at its first step, in exact
    arithmetic, for positive [steps] and [time] and a network of at least
    one oscillator: the exception comes out and the network is as before. *)
Theorem simulate_static_unsupported_solver (fuel : nat) (steps : Z) (time : R)
    (solution : pyobj) (collect_dynamic : bool) (w : world) :
  _ccore_network_pointer (self w) = None ->
  (0 < steps)%Z -> (0 < time)%R ->
  solution <> FAST -> solution <> RK4 -> 1 <= num_osc (self w) ->
  simulate_static fuel steps time solution collect_dynamic w
  = (Raise (unsupported_solver_error solution), w).
Proof.
  intros Hc Hs Ht HF HR Hn.
  assert (Hz : IZR steps <> 0%R) by (apply not_0_IZR; lia).
  assert (Hstep : (0 < time / IZR steps)%R).
  { apply Rdiv_lt_0_compat; [exact Ht | apply IZR_lt; exact Hs]. }
  unfold simulate_static, pbind at 1, get_self. rewrite Hc.
  change (@of_Z R _ steps) with (IZR steps).
  unfold pbind at 1.
  destruct (Z.to_nat steps) as [| n] eqn:En; [lia |].
  destruct collect_dynamic; cbn [append lift pret pbind app];
    rewrite truediv_R by exact Hz;
    rewrite truediv_R_ten;
    rewrite (static_grid (steps := steps) (time := time)) by (try lia; lra);
    rewrite En; cbn [seq map pfor_each];
    unfold pbind at 1; unfold pbind at 1, update_phases, pbind, get_self, lift;
    rewrite calculate_phases_unsupported by assumption; reflexivity.
Qed.

(** X21: with collection, a network whose local order is already at least
    the target is returned at once: the loop body does not run, the network
    and the output are untouched, and the trajectory has the one entry of
    the initial state, time [0] and the current phase vector. *)
Theorem simulate_dynamic_already_ordered_collecting (fuel : nat) (order : R)
    (solution : pyobj) (step int_step threshold_changes : R) (w : world)
    (current : R) :
  _ccore_network_pointer (self w) = None ->
  sync_local_order (self w) = Ok current ->
  (order <= current)%R ->
  simulate_dynamic fuel order solution true step int_step threshold_changes w
  = (Ok (DynList [0%R], DynList [_phases (self w)]), w).
Proof.
  intros Hc Hcur Hle.
  unfold simulate_dynamic, pbind at 1, get_self. rewrite Hc.
  unfold pbind at 1, lift at 1. rewrite Hcur. unfold pbind at 1.
  assert (Hb : ltb current order = false) by (apply Rltb_false_iff; exact Hle).
  cbn [append lift pret pbind app].
  destruct fuel; cbn [dynamic_loop]; rewrite Hb; reflexivity.
Qed.

End ExactEdges.

(** ** Global order *)

Lemma exp_tangent_sum (mu : R) (l : list R) :
  (exp mu * (INR (length l) + Rsum l - INR (length l) * mu) <= Rsum (map exp l))%R.
Proof.
  induction l as [| a l IH].
  - simpl. lra.
  - change (Rsum (map exp (a :: l))) with (exp a + Rsum (map exp l))%R.
    change (Rsum (a :: l)) with (a + Rsum l)%R.
    change (length (a :: l)) with (S (length l)). rewrite S_INR.
    assert (Ha : (exp mu * (1 + (a - mu)) <= exp a)%R).
    { replace a with (mu + (a - mu))%R at 2 by lra. rewrite exp_plus.
      apply Rmult_le_compat_l; [left; apply exp_pos | apply exp_ineq1_le]. }
    nra.
Qed.

Lemma exp_mean (l : list R) :
  l <> [] ->
  (exp (Rsum l / INR (length l)) <= Rsum (map exp l) / INR (length l))%R.
Proof.
  intros Hne.
  assert (Hn : (0 < INR (length l))%R).
  { apply lt_0_INR. destruct l; [contradiction | simpl; lia]. }
  pose proof (exp_tangent_sum (Rsum l / INR (length l)) l) as H.
  replace (INR (length l) + Rsum l - INR (length l) * (Rsum l / INR (length l)))%R
    with (INR (length l)) in H by (field; lra).
  apply (Rmult_le_reg_r (INR (length l))); [exact Hn |].
  unfold Rdiv at 2. rewrite Rmult_assoc, Rinv_l by lra. lra.
Qed.

Lemma Rsum_abs_triangle (l : list R) : (Rabs (Rsum l) <= Rsum (map Rabs l))%R.
Proof.
  induction l as [| a l IH].
  - simpl. rewrite Rabs_R0. lra.
  - change (Rsum (a :: l)) with (a + Rsum l)%R.
    change (Rsum (map Rabs (a :: l))) with (Rabs a + Rsum (map Rabs l))%R.
    pose proof (Rabs_triang a (Rsum l)). lra.
Qed.

Lemma exp_monotone (x y : R) : (x <= y)%R -> (exp x <= exp y)%R.
Proof.
  intros [H | ->]; [left; apply exp_increasing; exact H | lra].
Qed.

Lemma expm1_abs_sum (l : list R) :
  (0 <= Rsum (map (fun x => (exp (Rabs x) - 1)%R) l))%R
  /\ (Rsum (map (fun x => (exp (Rabs x) - 1)%R) l) = 0%R -> Forall (fun x => x = 0%R) l)
  /\ Rsum (map (fun x => (exp (Rabs x) - 1)%R) l)
     = (Rsum (map exp (map Rabs l)) - INR (length l))%R.
Proof.
  induction l as [| a l [IH1 [IH2 IH3]]].
  - simpl. repeat split; try lra. intros _. constructor.
  - change (Rsum (map (fun x => (exp (Rabs x) - 1)%R) (a :: l)))
      with (exp (Rabs a) - 1 + Rsum (map (fun x => (exp (Rabs x) - 1)%R) l))%R.
    change (Rsum (map exp (map Rabs (a :: l))))
      with (exp (Rabs a) + Rsum (map exp (map Rabs l)))%R.
    change (length (a :: l)) with (S (length l)). rewrite S_INR.
    pose proof (Rabs_pos a) as Ha.
    assert (H1 : (1 <= exp (Rabs a))%R).
    { rewrite <- exp_0. apply exp_monotone. exact Ha. }
    split; [lra |]. split; [| lra].
    intros E. assert (E1 : exp (Rabs a) = 1%R) by lra.
    constructor; [| apply IH2; lra].
    destruct (Req_dec a 0) as [Hz | Hnz]; [exact Hz |]. exfalso.
    pose proof (Rabs_pos_lt a Hnz) as Hpos.
    pose proof (exp_increasing 0 (Rabs a) Hpos) as Hinc.
    rewrite exp_0 in Hinc. lra.
Qed.

Section GlobalOrder.

Context {IM : Imports R} {IC : ImportsClass R}.

Lemma sync_order_loop (net : @sync_network R) (k : nat) :
  forall (s : nat) (exp_amount average_phase : R),
  s + k <= length (_phases net) ->
  for_each (seq s k) (fun index '(exp_amount, average_phase) =>
      phase <- getitem (_phases net) index ;;
      let exp_amount := add exp_amount (math_expm1 (abs_imaginary phase)) in
      phase <- getitem (_phases net) index ;;
      Ok (exp_amount, add average_phase phase))
    (exp_amount, average_phase)
  = Ok ((exp_amount
         + Rsum (map (fun x => math_expm1 (Rabs x)) (firstn k (skipn s (_phases net)))))%R,
        (average_phase + Rsum (firstn k (skipn s (_phases net))))%R).
Proof.
  induction k as [| k IH]; intros s e a Hlen.
  - simpl. f_equal. f_equal; lra.
  - cbn [seq for_each].
    rewrite (getitem_nth _ 0%R) by lia. cbn [bind].
    rewrite IH by lia.
    assert (E : firstn (S k) (skipn s (_phases net))
                = nth s (_phases net) 0%R :: firstn k (skipn (S s) (_phases net))).
    { clear - Hlen. revert s Hlen. induction (_phases net) as [| x l IHl]; intros s Hlen.
      - simpl in Hlen. lia.
      - destruct s as [| s]; [reflexivity |].
        simpl in Hlen. cbn [skipn nth]. apply IHl. lia. }
    rewrite E. cbn [map]. unfold abs_imaginary. cbn [add absv Arith_R].
    change (Rsum (?x :: ?l)) with (x + Rsum l)%R.
    f_equal. f_equal; lra.
Qed.

Lemma sync_order_sums (net : @sync_network R) :
  _ccore_network_pointer net = None ->
  length (_phases net) = num_osc net ->
  sync_order net
  = (exp_amount <- truediv (Rsum (map (fun x => math_expm1 (Rabs x)) (_phases net)))
                     (INR (num_osc net)) ;;
     mean <- truediv (Rsum (_phases net)) (INR (num_osc net)) ;;
     truediv (Rabs (math_expm1 (Rabs mean))) (Rabs exp_amount)).
Proof.
  intros Hc Hlen. unfold sync_order, range. rewrite Hc, Nat.sub_0_r.
  rewrite sync_order_loop by lia. cbn [bind].
  rewrite <- Hlen, skipn_O, firstn_all.
  cbn [of_Z Arith_R]. rewrite !Rplus_0_l, <- INR_IZR_INZ. reflexivity.
Qed.

(** X22: the global order of a network whose phases are all [0] is a
    [ZeroDivisionError], the network without oscillators included: the sum
    of [expm1(|phase|)] it divides by is [0].  (Exact arithmetic, with
    [expm1(0) = 0].) *)
Theorem sync_order_zero_phases (net : sync_network) :
  _ccore_network_pointer net = None ->
  length (_phases net) = num_osc net ->
  math_expm1 0%R = 0%R ->
  Forall (fun x => x = 0%R) (_phases net) ->
  sync_order net = Raise ZeroDivisionError.
Proof.
  intros Hc Hlen Hexp Hzero. rewrite sync_order_sums by assumption.
  destruct (num_osc net) as [| n] eqn:En.
  - unfold truediv. cbn [of_Z eqb Arith_R]. simpl INR. unfold Reqb.
    destruct (Req_dec_T 0 0) as [_ | H]; [reflexivity | contradiction].
  - assert (Hn : INR (S n) <> 0%R) by (apply not_0_INR; lia).
    assert (E1 : Rsum (map (fun x => math_expm1 (Rabs x)) (_phases net)) = 0%R).
    { apply Rsum_all_zero. intros a Ha. rewrite Forall_forall in Hzero.
      rewrite (Hzero a Ha), Rabs_R0. exact Hexp. }
    rewrite E1. rewrite !truediv_R by exact Hn. cbn [bind].
    unfold truediv. cbn [of_Z eqb Arith_R].
    replace (Rabs (0 / INR (S n))) with 0%R.
    + unfold Reqb. destruct (Req_dec_T 0 0) as [_ | H]; [reflexivity | contradiction].
    + unfold Rdiv. rewrite Rmult_0_l, Rabs_R0. reflexivity.
Qed.

(** X23: when some phase is not [0], the global order is a number between
    [0] and [1].  (Exact arithmetic, with [expm1 x = exp x - 1]; the upper
    bound is the convexity of [exp].) *)
Theorem sync_order_unit_interval (net : sync_network) :
  _ccore_network_pointer net = None ->
  length (_phases net) = num_osc net ->
  (forall x : R, math_expm1 x = exp x - 1)%R ->
  (exists x : R, In x (_phases net) /\ x <> 0%R) ->
  exists order : R, sync_order net = Ok order /\ (0 <= order <= 1)%R.
Proof.
  intros Hc Hlen Hexp [x0 [Hin Hx0]]. rewrite sync_order_sums by assumption.
  assert (Hne : _phases net <> []) by (intros E; rewrite E in Hin; contradiction).
  assert (Hn1 : 1 <= num_osc net).
  { rewrite <- Hlen. destruct (_phases net); [contradiction | simpl; lia]. }
  assert (Hn : (0 < INR (num_osc net))%R) by (apply lt_0_INR; lia).
  rewrite !truediv_R by lra. cbn [bind].
  set (n := INR (num_osc net)) in *.
  assert (Emap : map (fun x => math_expm1 (Rabs x)) (_phases net)
                 = map (fun x => (exp (Rabs x) - 1)%R) (_phases net)).
  { apply map_ext. intros a. apply Hexp. }
  rewrite Emap, Hexp.
  destruct (expm1_abs_sum (_phases net)) as [Hpos [Hzero Hsum]].
  set (total := Rsum (map (fun x => (exp (Rabs x) - 1)%R) (_phases net))) in *.
  assert (Htotal : (0 < total)%R).
  { destruct (Req_dec total 0) as [E | Hnz]; [| lra].
    specialize (Hzero E). rewrite Forall_forall in Hzero.
    exfalso. apply Hx0. apply Hzero. exact Hin. }
  set (m := Rabs (Rsum (_phases net) / n)).
  assert (Hm0 : (0 <= m)%R) by apply Rabs_pos.
  assert (Hm1 : (1 <= exp m)%R) by (rewrite <- exp_0; apply exp_monotone; exact Hm0).
  assert (Hmean : (exp m - 1 <= total / n)%R).
  { assert (Hle : (m <= Rsum (map Rabs (_phases net)) / n)%R).
    { unfold m, Rdiv. rewrite Rabs_mult, (Rabs_right (/ n))
        by (left; apply Rinv_0_lt_compat; exact Hn).
      apply Rmult_le_compat_r; [left; apply Rinv_0_lt_compat; exact Hn |].
      apply Rsum_abs_triangle. }
    pose proof (exp_monotone Hle) as H1.
    assert (Hne' : map Rabs (_phases net) <> []).
    { intros E. apply map_eq_nil in E. contradiction. }
    pose proof (exp_mean Hne') as H2.
    rewrite length_map, Hlen in H2. fold n in H2.
    rewrite Hsum, Hlen. fold n.
    replace ((Rsum (map exp (map Rabs (_phases net))) - n) / n)%R
      with (Rsum (map exp (map Rabs (_phases net))) / n - 1)%R by (field; lra).
    lra. }
  assert (Hq : (0 < total / n)%R) by (apply Rdiv_lt_0_compat; assumption).
  rewrite (Rabs_right (exp m - 1)) by lra.
  rewrite (Rabs_right (total / n)) by lra.
  rewrite truediv_R by lra.
  eexists. split; [reflexivity |]. split.
  - apply Rmult_le_pos; [lra |]. left. apply Rinv_0_lt_compat. exact Hq.
  - apply Rdiv_le_one; assumption.
Qed.

(** X24: when all oscillators have the same phase, and it is not [0], the
    global order is [1].  (Exact arithmetic, with [expm1 x = exp x - 1].) *)
Theorem sync_order_equal_phases (net : sync_network) (c : R) :
  _ccore_network_pointer net = None ->
  length (_phases net) = num_osc net ->
  (forall x : R, math_expm1 x = exp x - 1)%R ->
  1 <= num_osc net ->
  c <> 0%R ->
  Forall (fun x => x = c) (_phases net) ->
  exists order : R, sync_order net = Ok order /\ order = 1%R.
Proof.
  intros Hc Hlen Hexp Hn1 Hcz Hall. rewrite sync_order_sums by assumption.
  assert (Hn : (0 < INR (num_osc net))%R) by (apply lt_0_INR; lia).
  rewrite !truediv_R by lra. cbn [bind].
  assert (E1 : Rsum (map (fun x => math_expm1 (Rabs x)) (_phases net))
               = (INR (num_osc net) * (exp (Rabs c) - 1))%R).
  { rewrite <- Hlen. clear - Hall Hexp.
    induction Hall as [| x l Hx Hl IH].
    - simpl. lra.
    - change (Rsum (map (fun x => math_expm1 (Rabs x)) (x :: l)))
        with (math_expm1 (Rabs x) + Rsum (map (fun x => math_expm1 (Rabs x)) l))%R.
      change (length (x :: l)) with (S (length l)). rewrite S_INR.
      rewrite IH, Hexp, Hx. lra. }
  assert (E2 : Rsum (_phases net) = (INR (num_osc net) * c)%R).
  { rewrite <- Hlen. clear - Hall.
    induction Hall as [| x l Hx Hl IH].
    - simpl. lra.
    - change (Rsum (x :: l)) with (x + Rsum l)%R.
      change (length (x :: l)) with (S (length l)). rewrite S_INR.
      rewrite IH, Hx. lra. }
  rewrite E1, E2, Hexp.
  replace (INR (num_osc net) * (exp (Rabs c) - 1) / INR (num_osc net))%R
    with (exp (Rabs c) - 1)%R by (field; lra).
  replace (INR (num_osc net) * c / INR (num_osc net))%R with c by (field; lra).
  pose proof (Rabs_pos_lt c Hcz) as Hpos.
  pose proof (exp_increasing 0 (Rabs c) Hpos) as Hinc. rewrite exp_0 in Hinc.
  rewrite (Rabs_right (exp (Rabs c) - 1)) by lra.
  rewrite truediv_R by lra.
  eexists. split; [reflexivity |]. field. lra.
Qed.

End GlobalOrder.

(** ** Constructor and destructor *)

Lemma map_seq_step {A : Type} (g : nat -> A) (k : nat) :
  map g (seq 0 (S k)) = g 0 :: map (fun j => g (S j)) (seq 0 k).
Proof.
  cbn [seq map]. f_equal. rewrite <- seq_shift, map_map. reflexivity.
Qed.

Section Constructor.

Context {T : Type} {AT : Arith T} {IM : Imports T} {IC : ImportsClass T}.

Lemma init_loop_gaussian (num_osc : nat) (frequency : T) (initial_phases : pyobj)
    (indexes : list nat) :
  pyobj_eqb initial_phases RANDOM_GAUSSIAN = true ->
  forall (phases freq : list T) (drawn : nat),
  init_loop num_osc frequency initial_phases indexes phases freq drawn
  = Ok (phases ++ map (fun j => mul (mul (random_draw (drawn + 2 * j)) (of_Z 2)) pi)
                    (seq 0 (length indexes)),
        freq ++ map (fun j => mul (random_draw (drawn + 2 * j + 1)) frequency)
                  (seq 0 (length indexes)),
        drawn + 2 * length indexes).
Proof.
  intros Htag. induction indexes as [| index rest IH]; intros phases freq drawn.
  - simpl. rewrite !app_nil_r, Nat.add_0_r. reflexivity.
  - cbn [init_loop length]. rewrite Htag. cbn [bind]. rewrite IH.
    rewrite !map_seq_step, <- !app_assoc. cbn [app].
    replace (drawn + 2 * 0) with drawn by lia.
    replace (drawn + 1) with (S drawn) by lia.
    f_equal. f_equal; [f_equal |].
    + f_equal. f_equal. apply map_ext. intros j. do 3 f_equal. lia.
    + f_equal. f_equal. apply map_ext. intros j. do 2 f_equal. lia.
    + lia.
Qed.

Lemma init_loop_unknown (num_osc : nat) (frequency : T) (initial_phases : pyobj)
    (indexes : list nat) :
  pyobj_eqb initial_phases RANDOM_GAUSSIAN = false ->
  pyobj_eqb initial_phases EQUIPARTITION = false ->
  forall (phases freq : list T) (drawn : nat),
  init_loop num_osc frequency initial_phases indexes phases freq drawn
  = Ok (phases,
        freq ++ map (fun j => mul (random_draw (drawn + j)) frequency)
                  (seq 0 (length indexes)),
        drawn + length indexes).
Proof.
  intros H1 H2. induction indexes as [| index rest IH]; intros phases freq drawn.
  - simpl. rewrite app_nil_r, Nat.add_0_r. reflexivity.
  - cbn [init_loop length]. rewrite H1, H2. cbn [bind]. rewrite IH.
    rewrite map_seq_step, <- app_assoc. cbn [app].
    replace (drawn + 0) with drawn by lia.
    f_equal. f_equal; [f_equal |].
    + f_equal. f_equal. apply map_ext. intros j. do 2 f_equal. lia.
    + lia.
Qed.

(** X26: with [RANDOM_GAUSSIAN] the constructor takes two draws per
    oscillator, on any arithmetic: oscillator [i] gets the phase
    [draw(2 i) * 2 * pi] and the frequency [draw(2 i + 1) * frequency], and
    the network holds one phase and one frequency per oscillator, the given
    weight and no C handle. *)
Theorem init_random_gaussian (n : nat) (weight frequency : T)
    (type_conn conn_represent : pyobj) :
  init n weight frequency type_conn conn_represent RANDOM_GAUSSIAN
  = Ok ({| num_osc := n;
           has_connection := network_has_connection n type_conn conn_represent;
           _phases := map (fun i => mul (mul (random_draw (2 * i)) (of_Z 2)) pi) (seq 0 n);
           _freq := map (fun i => mul (random_draw (2 * i + 1)) frequency) (seq 0 n);
           _weight := weight;
           _ccore_network_pointer := None |}, 2 * n).
Proof.
  unfold init. rewrite init_loop_gaussian by (apply pyobj_eqb_eq; reflexivity).
  unfold range. rewrite length_seq, Nat.sub_0_r. reflexivity.
Qed.

(** X27: an [initial_phases] tag that is neither [RANDOM_GAUSSIAN] nor
    [EQUIPARTITION] is not refused, on any arithmetic: the constructor
    returns a network with [num_osc] frequencies and no phase at all, and
    with two oscillators or more [allocate_sync_ensembles] on that network
    raises [IndexError]. *)
Theorem init_unknown_initial_phases (n : nat) (weight frequency : T)
    (type_conn conn_represent initial_phases : pyobj) (tolerance : T) :
  initial_phases <> RANDOM_GAUSSIAN ->
  initial_phases <> EQUIPARTITION ->
  exists net : sync_network,
    init n weight frequency type_conn conn_represent initial_phases = Ok (net, n)
    /\ num_osc net = n
    /\ _phases net = []
    /\ length (_freq net) = n
    /\ (2 <= n -> allocate_sync_ensembles net tolerance = Raise IndexError).
Proof.
  intros H1 H2. unfold init.
  rewrite init_loop_unknown by (apply pyobj_eqb_neq; assumption).
  cbn [bind app]. eexists. split; [unfold range; rewrite length_seq, Nat.sub_0_r; reflexivity |].
  cbn [num_osc _phases _freq]. split; [reflexivity |]. split; [reflexivity |]. split.
  - unfold range. rewrite length_map, !length_seq. lia.
  - intros Hn. unfold allocate_sync_ensembles. cbn [_ccore_network_pointer num_osc].
    destruct n as [| [| n]]; try lia. reflexivity.
Qed.

(** X28: the destructor releases a C handle once: it hands the handle to
    [destroy_sync_network] and clears it, leaves size, phases, frequencies
    and weight as they were, and a second call does nothing. *)
Theorem del_once (state : @sync_network T * list Z) :
  del (del state) = del state
  /\ _ccore_network_pointer (fst (del state)) = None
  /\ num_osc (fst (del state)) = num_osc (fst state)
  /\ _phases (fst (del state)) = _phases (fst state)
  /\ _freq (fst (del state)) = _freq (fst state)
  /\ _weight (fst (del state)) = _weight (fst state)
  /\ snd (del state)
     = snd state ++ match _ccore_network_pointer (fst state) with
                    | Some p => [p]
                    | None => []
                    end.
Proof.
  destruct state as [net destroyed]. unfold del.
  destruct (_ccore_network_pointer net) eqn:E; cbn [fst snd _ccore_network_pointer].
  - rewrite E. repeat split; reflexivity.
  - rewrite E. cbn [fst snd]. rewrite app_nil_r. repeat split; try assumption; reflexivity.
Qed.

End Constructor.

Section ConstructorExact.

Context {IC : ImportsClass R}.

Lemma init_loop_equipartition (n : nat) (frequency : R) (indexes : list nat) :
  RANDOM_GAUSSIAN <> EQUIPARTITION ->
  1 <= n ->
  forall (phases freq : list R) (drawn : nat),
  init_loop n frequency EQUIPARTITION indexes phases freq drawn
  = Ok (phases ++ map (fun i => (PI / INR n * INR i)%R) indexes,
        freq ++ map (fun j => (random_draw (drawn + j) * frequency)%R)
                  (seq 0 (length indexes)),
        drawn + length indexes).
Proof.
  intros Htags Hn.
  assert (H1 : pyobj_eqb EQUIPARTITION RANDOM_GAUSSIAN = false)
    by (apply pyobj_eqb_neq; congruence).
  assert (H2 : pyobj_eqb EQUIPARTITION EQUIPARTITION = true)
    by (apply pyobj_eqb_eq; reflexivity).
  assert (Hz : @of_Z R _ (Z.of_nat n) <> 0%R).
  { cbn [of_Z Arith_R]. apply not_0_IZR. lia. }
  induction indexes as [| index rest IH]; intros phases freq drawn.
  - simpl. rewrite !app_nil_r, Nat.add_0_r. reflexivity.
  - cbn [init_loop length]. rewrite H1, H2, (truediv_R _ Hz). cbn [bind]. rewrite IH.
    rewrite map_seq_step, <- !app_assoc. cbn [app map].
    replace (drawn + 0) with drawn by lia.
    cbn [of_Z mul pi Arith_R]. rewrite <- !INR_IZR_INZ.
    f_equal. f_equal; [f_equal |].
    + f_equal. f_equal. apply map_ext. intros j. do 2 f_equal. lia.
    + lia.
Qed.

Lemma equipartition_sorted (q : R) (k s : nat) :
  (0 < q)%R ->
  StronglySorted Rlt (map (fun i => (q * INR i)%R) (seq s k)).
Proof.
  intros Hq. revert s. induction k as [| k IH]; intros s; cbn [seq map].
  - constructor.
  - constructor; [apply IH |].
    apply Forall_forall. intros x Hx. apply in_map_iff in Hx.
    destruct Hx as [i [<- Hi]]. apply in_seq in Hi.
    apply Rmult_lt_compat_l; [exact Hq | apply lt_INR; lia].
Qed.

(** X25: with [EQUIPARTITION], tags distinct and at least one oscillator, in
    exact arithmetic the constructor takes one draw per oscillator and
    spreads the phases evenly over half a turn: oscillator [i] gets
    [pi / num_osc * i] and the frequency [draw(i) * frequency]; the phases
    increase strictly from [0] and stay below [pi]. *)
Theorem init_equipartition (n : nat) (weight frequency : R)
    (type_conn conn_represent : pyobj) :
  RANDOM_GAUSSIAN <> EQUIPARTITION ->
  1 <= n ->
  exists net : sync_network,
    init n weight frequency type_conn conn_represent EQUIPARTITION = Ok (net, n)
    /\ num_osc net = n
    /\ _phases net = map (fun i => (PI / INR n * INR i)%R) (seq 0 n)
    /\ _freq net = map (fun i => (random_draw i * frequency)%R) (seq 0 n)
    /\ _weight net = weight
    /\ _ccore_network_pointer net = None
    /\ hd 1%R (_phases net) = 0%R
    /\ StronglySorted Rlt (_phases net)
    /\ Forall (fun x => (0 <= x < PI)%R) (_phases net).
Proof.
  intros Htags Hn. unfold init.
  rewrite (init_loop_equipartition frequency (range 0 n) Htags Hn).
  unfold range. rewrite length_seq, Nat.sub_0_r. cbn [bind app Nat.add].
  eexists. split; [reflexivity |]. cbn [num_osc _phases _freq _weight _ccore_network_pointer].
  assert (Hpos : (0 < INR n)%R) by (apply lt_0_INR; lia).
  assert (Hq : (0 < PI / INR n)%R) by (apply Rdiv_lt_0_compat; [apply PI_RGT_0 | exact Hpos]).
  repeat split.
  - destruct n as [| m]; [lia |]. cbn [seq map hd]. change (INR 0) with 0%R. lra.
  - apply equipartition_sorted. exact Hq.
  - apply Forall_forall. intros x Hx. apply in_map_iff in Hx.
    destruct Hx as [i [<- Hi]]. apply in_seq in Hi.
    assert (H0 : (0 <= INR i)%R) by apply pos_INR.
    assert (H1 : (INR i < INR n)%R) by (apply lt_INR; lia).
    split; [nra |].
    replace PI with (PI / INR n * INR n)%R at 2 by (field; lra).
    apply Rmult_lt_compat_l; assumption.
Qed.

(** X29: with [RANDOM_GAUSSIAN] and draws in [[0, 1)], as [random.random]
    gives them, in exact arithmetic every initial phase lies in
    [[0, 2 pi)], so [phase_normalization] returns it unchanged. *)
Theorem init_random_gaussian_normalised (n : nat) (weight frequency : R)
    (type_conn conn_represent : pyobj) (net : sync_network) (drawn fuel : nat) :
  (forall k : nat, (0 <= random_draw k < 1)%R) ->
  init n weight frequency type_conn conn_represent RANDOM_GAUSSIAN = Ok (net, drawn) ->
  Forall (fun x => (0 <= x < 2 * PI)%R
                   /\ phase_normalization fuel x = Ok x) (_phases net).
Proof.
  intros Hdraw Hinit. unfold init in Hinit.
  rewrite init_loop_gaussian in Hinit by (apply pyobj_eqb_eq; reflexivity).
  cbn [bind app] in Hinit.
  assert (E : _phases net
              = map (fun j => mul (mul (random_draw (0 + 2 * j)) (of_Z 2)) pi)
                    (seq 0 (length (range 0 n)))).
  { inversion Hinit. reflexivity. }
  rewrite E. apply Forall_forall. intros x Hx. apply in_map_iff in Hx.
  destruct Hx as [j [<- _]]. cbn [mul of_Z pi Arith_R].
  pose proof (Hdraw (0 + 2 * j)) as [Hlo Hhi]. pose proof PI_RGT_0 as Hpi.
  assert (Hr : (0 <= random_draw (0 + 2 * j) * 2 * PI < 2 * PI)%R) by (split; nra).
  split; [exact Hr |].
  apply loop_returns_unchanged.
  - cbn [ltb two_pi mul of_Z pi Arith_R]. apply Rltb_false_iff. lra.
  - cbn [ltb of_Z Arith_R]. apply Rltb_false_iff. lra.
Qed.

End ConstructorExact.

(** ** The further properties at closed inputs *)

Ltac Rabs_cases :=
  cbn [nth pair_network level_pair _phases _freq _weight];
  unfold Rabs; repeat destruct Rcase_abs; lra.

Lemma allocate_sync_ensembles_discovery_order_pair :
  exists (rest : list nat) (others : list (list nat)),
    @allocate_sync_ensembles R _ real_imports pair_network (1 / 100)%R
    = Ok ((0 :: rest) :: others)
    /\ Forall (StronglySorted lt) ((0 :: rest) :: others)
    /\ StronglySorted lt (map (hd 0) ((0 :: rest) :: others)).
Proof.
  apply allocate_sync_ensembles_discovery_order; [reflexivity | reflexivity | cbn; lia].
Defined.

Lemma allocate_sync_ensembles_links_pair :
  exists clusters : list (list nat),
    @allocate_sync_ensembles R _ real_imports pair_network (1 / 100)%R = Ok clusters
    /\ (forall (pre : list nat) (m : nat) (post : list nat),
          In (pre ++ m :: post) clusters -> pre <> [] ->
          exists m' : nat,
            In m' pre
            /\ (Rabs (nth m (_phases pair_network) 0 - nth m' (_phases pair_network) 0)
                < 1 / 100)%R)
    /\ (forall (h : nat) (rest : list nat) (j : nat),
          In (h :: rest) clusters -> j < h ->
          (1 / 100 <= Rabs (nth h (_phases pair_network) 0
                            - nth j (_phases pair_network) 0))%R).
Proof.
  apply allocate_sync_ensembles_links; [reflexivity | reflexivity | cbn; lia].
Defined.

Lemma allocate_sync_ensembles_apart_pair :
  @allocate_sync_ensembles R _ real_imports pair_network (1 / 100)%R
  = Ok (map (fun i => [i]) (seq 0 (num_osc pair_network))).
Proof.
  apply allocate_sync_ensembles_apart; [reflexivity | reflexivity | cbn; lia |].
  intros i m Hm Hi. cbn [num_osc pair_network] in Hi.
  destruct i as [| [| i]]; [lia | | lia].
  destruct m as [| m]; [| lia]. Rabs_cases.
Defined.

Lemma allocate_sync_ensembles_zero_tolerance_level :
  @allocate_sync_ensembles R _ real_imports level_pair 0%R
  = Ok (map (fun i => [i]) (seq 0 (num_osc level_pair))).
Proof.
  apply allocate_sync_ensembles_zero_tolerance;
    [reflexivity | reflexivity | cbn; lia | lra].
Defined.

Lemma allocate_sync_ensembles_together_pair :
  @allocate_sync_ensembles R _ real_imports pair_network 1%R
  = Ok [seq 0 (num_osc pair_network)].
Proof.
  apply allocate_sync_ensembles_together; [reflexivity | reflexivity | cbn; lia |].
  intros i Hlo Hi. cbn [num_osc pair_network] in Hi.
  destruct i as [| [| i]]; [lia | | lia]. Rabs_cases.
Defined.

Lemma sync_local_order_unit_interval_pair :
  exists order : R,
    @sync_local_order R _ real_imports pair_network = Ok order
    /\ (0 <= order <= 1)%R
    /\ (connected_pairs pair_network <> [] -> 0 < order)%R
    /\ (connected_pairs pair_network = [] -> order = 0)%R.
Proof.
  apply (sync_local_order_unit_interval (IM := real_imports));
    [reflexivity | reflexivity | intros x; reflexivity].
Defined.

Lemma sync_local_order_one_level :
  exists order : R,
    @sync_local_order R _ real_imports level_pair = Ok order
    /\ (order = 1%R
        <-> forall i j : nat,
              i < num_osc level_pair -> j < num_osc level_pair ->
              has_connection level_pair i j = true ->
              nth j (_phases level_pair) 0%R = nth i (_phases level_pair) 0%R).
Proof.
  apply (sync_local_order_one (IM := real_imports));
    [reflexivity | reflexivity | intros x; reflexivity | discriminate].
Defined.

Lemma phase_kuramoto_bounded_pair :
  exists d : R,
    @phase_kuramoto R _ real_imports pair_network (1 / 4)%R 7%R 1 = Ok d
    /\ (Rabs (d - nth 1 (_freq pair_network) 0) <= Rabs (_weight pair_network))%R.
Proof.
  apply (phase_kuramoto_bounded (IM := real_imports));
    [reflexivity | reflexivity | cbn; lia | intros x; reflexivity].
Defined.

Lemma calculate_phases_fast_synchronous_lone :
  @_calculate_phases R _ real_imports 0 lone_oscillator (PyInt 0) 0%R 1%R 1%R
  = Ok (map (fun _ : nat => lone_next) (seq 0 (num_osc (lone_oscillator (T := R))))).
Proof.
  apply (calculate_phases_fast_synchronous (IM := real_imports) 0 lone_oscillator
           0%R 1%R 1%R (fun _ => lone_next)); [reflexivity |].
  intros i Hi. cbn [num_osc lone_oscillator] in Hi.
  destruct i as [| i]; [| lia].
  unfold phase_kuramoto, phase_normalization, truediv, two_pi.
  cbn -[Reqb Rltb PI]. Rcompare. cbn -[Reqb Rltb PI]. Rcompare. reflexivity.
Defined.

Lemma calculate_phases_normalised_lone :
  length [lone_next] = num_osc (lone_oscillator (T := R))
  /\ Forall normalised [lone_next].
Proof.
  apply (calculate_phases_normalised (IM := real_imports) 0 lone_oscillator (PyInt 0)
           0%R 1%R 1%R).
  apply lone_oscillator_step.
Defined.

Lemma calculate_phases_fast_fixed_point_level :
  @_calculate_phases R _ real_imports 0 level_pair (PyInt 0) 0%R 1%R 1%R
  = Ok (_phases level_pair).
Proof.
  apply (calculate_phases_fast_fixed_point (IM := real_imports));
    [reflexivity | reflexivity | intros x; reflexivity | | |].
  - intros i Hi. cbn [num_osc level_pair] in Hi.
    destruct i as [| [| i]]; [reflexivity | reflexivity | lia].
  - intros i Hi. cbn [num_osc level_pair] in Hi. pose proof PI_RGT_0.
    destruct i as [| [| i]]; [| | lia]; cbn [nth level_pair _phases];
      pose proof PI2_1; lra.
  - intros i j Hi Hj _. cbn [num_osc level_pair] in Hi, Hj.
    destruct i as [| [| i]]; [| | lia]; (destruct j as [| [| j]]; [| | lia]); reflexivity.
Defined.

Lemma simulate_static_only_phases_pair :
  only_phases (fresh pair_network)
    (snd (@simulate_static R _ real_imports 0 2 1%R (PyInt 0) true (fresh pair_network))).
Proof.
  apply simulate_static_only_phases. reflexivity.
Defined.

Lemma simulate_dynamic_phases_and_warning_pair :
  phases_and_warning (IM := real_imports) (fresh pair_network)
    (snd (@simulate_dynamic R _ real_imports 3 (99 / 100)%R (PyInt 0) true
            (1 / 10)%R (1 / 100)%R (1 / 1000)%R (fresh pair_network))).
Proof.
  apply simulate_dynamic_phases_and_warning. reflexivity.
Defined.

Lemma simulate_static_last_pair :
  exists (fuel : nat) (last_time : R) (w' : world),
    (forall fuel' : nat, fuel <= fuel' ->
       @simulate_static R _ real_imports fuel' 2 1%R (PyInt 0) false (fresh pair_network)
       = (Ok (DynLast last_time, DynLast (_phases (self w'))), w'))
    /\ last_time = 1%R
    /\ only_phases (fresh pair_network) w'
    /\ length (_phases (self w')) = num_osc (self (fresh pair_network))
    /\ Forall (fun x => 0 <= x <= 2 * PI)%R (_phases (self w')).
Proof.
  apply (simulate_static_last (IM := real_imports));
    [reflexivity | reflexivity | reflexivity | lia | lra].
Defined.

Lemma simulate_static_no_steps_pair :
  @simulate_static R _ real_imports 0 0 1%R (PyInt 0) true (fresh pair_network)
  = (Raise ZeroDivisionError, fresh pair_network).
Proof.
  apply simulate_static_no_steps. reflexivity.
Defined.

Lemma simulate_static_negative_steps_pair :
  @simulate_static R _ real_imports 0 (-1) 1%R (PyInt 0) true (fresh pair_network)
  = (Ok (DynList [0%R], DynList [_phases (self (fresh pair_network))]),
     fresh pair_network).
Proof.
  apply (simulate_static_negative_steps (IM := real_imports) 0 (steps := -1) (time := 1%R)
           (PyInt 0) true); [reflexivity | lia | lra].
Defined.

Lemma simulate_dynamic_unsupported_solver_lone :
  @simulate_dynamic R _ real_imports 1 (1 / 2)%R (PyStr "rkf45") true
    (1 / 10)%R (1 / 100)%R (1 / 1000)%R (fresh lone_oscillator)
  = (Raise (unsupported_solver_error (PyStr "rkf45")),
     fresh lone_oscillator).
Proof.
  apply (simulate_dynamic_unsupported_solver (IM := real_imports)) with (current := (0 / 1)%R);
    [reflexivity | apply unlinked_order; reflexivity | lra
    | discriminate | discriminate | cbn; lia].
Defined.

Lemma simulate_static_unsupported_solver_pair :
  @simulate_static R _ real_imports 0 2 1%R (PyStr "rkf45") true (fresh pair_network)
  = (Raise (unsupported_solver_error (PyStr "rkf45")),
     fresh pair_network).
Proof.
  apply (simulate_static_unsupported_solver (IM := real_imports));
    [reflexivity | lia | lra | discriminate | discriminate | cbn; lia].
Defined.

Lemma simulate_dynamic_already_ordered_collecting_lone :
  @simulate_dynamic R _ real_imports 0 0%R (PyInt 0) true (1 / 10)%R (1 / 100)%R
    (1 / 1000)%R (fresh lone_oscillator)
  = (Ok (DynList [0%R], DynList [_phases (self (fresh (lone_oscillator (T := R))))]),
     fresh lone_oscillator).
Proof.
  apply (simulate_dynamic_already_ordered_collecting (IM := real_imports))
    with (current := (0 / 1)%R);
    [reflexivity | apply unlinked_order; reflexivity | lra].
Defined.

Lemma sync_order_zero_phases_lone :
  @sync_order R _ real_class lone_oscillator = Raise ZeroDivisionError.
Proof.
  apply (sync_order_zero_phases (IC := real_class));
    [reflexivity | reflexivity | | repeat constructor].
  cbn [math_expm1 real_class]. rewrite exp_0. lra.
Defined.

Lemma sync_order_unit_interval_pair :
  exists order : R,
    @sync_order R _ real_class pair_network = Ok order /\ (0 <= order <= 1)%R.
Proof.
  apply (sync_order_unit_interval (IC := real_class));
    [reflexivity | reflexivity | intros x; reflexivity |].
  exists (1 / 4)%R. split; [cbn; auto | lra].
Defined.

Lemma sync_order_equal_phases_level :
  exists order : R, @sync_order R _ real_class level_pair = Ok order /\ order = 1%R.
Proof.
  apply (sync_order_equal_phases (IC := real_class)) with (c := (1 / 4)%R);
    [reflexivity | reflexivity | intros x; reflexivity | cbn; lia | lra
    | repeat constructor].
Defined.

Lemma init_equipartition_three :
  exists net : sync_network,
    @init R _ real_class 3 1%R 2%R (PyInt 0) (PyInt 0) (PyInt 1) = Ok (net, 3)
    /\ num_osc net = 3
    /\ _phases net = map (fun i => (PI / INR 3 * INR i)%R) (seq 0 3)
    /\ _freq net = map (fun i => (@random_draw R real_class i * 2)%R) (seq 0 3)
    /\ _weight net = 1%R
    /\ _ccore_network_pointer net = None
    /\ hd 1%R (_phases net) = 0%R
    /\ StronglySorted Rlt (_phases net)
    /\ Forall (fun x => (0 <= x < PI)%R) (_phases net).
Proof.
  apply (init_equipartition (IC := real_class)); [discriminate | lia].
Defined.

Lemma init_unknown_initial_phases_two :
  exists net : sync_network,
    @init R _ real_class 2 1%R 3%R (PyInt 0) (PyInt 0) (PyStr "zeros") = Ok (net, 2)
    /\ num_osc net = 2
    /\ _phases net = []
    /\ length (_freq net) = 2
    /\ (2 <= 2 -> @allocate_sync_ensembles R _ real_imports net (1 / 100)%R
                  = Raise IndexError).
Proof.
  apply (init_unknown_initial_phases (IM := real_imports) (IC := real_class));
    discriminate.
Defined.

Lemma init_random_gaussian_normalised_pair :
  Forall (fun x => (0 <= x < 2 * PI)%R
                   /\ @phase_normalization R _ 0 x = Ok x) (_phases half_turn_pair).
Proof.
  apply (init_random_gaussian_normalised (IC := real_class) 2 1%R 3%R (PyInt 0) (PyInt 0)
           (net := half_turn_pair) (drawn := 4) 0).
  - intros k. cbn [random_draw real_class]. lra.
  - reflexivity.
Defined.
